(** * springresearch: the data pipeline, embedded and verified

    A shallow embedding of five parts of the repository:
    - [src/data/parse_so/dump_parsing.py]  (module [DumpParsing]);
    - [src/config/experiments.py]          (module [Experiments]);
    - [src/tutorials/html_parsers.py]      (module [HtmlParsers]);
    - [src/evaluation/evaluation.py]       (module [Evaluation]);
    - [scripts/parse_tutorials.py]         (module [ParseTutorials]).

    Python dictionaries whose iteration order is observable are insertion
    ordered association lists; dictionaries that are only looked up and
    counted are [gmap]s.  Exceptions are values of [exn] in the result
    monad [res]. *)

From Stdlib Require Import ZArith String Ascii List Lia Bool.
From stdpp Require Import base option list gmap strings fin_maps.

Set Warnings "-register-all,-clear-no-such-hyp".

Local Open Scope string_scope.
Local Open Scope list_scope.
Local Open Scope Z_scope.

(** ** Exceptions and the result monad *)

Inductive exn :=
| KeyError | ValueError | TypeError | IndexError | AttributeError
| AssertionError | ZeroDivisionError | FileExistsError | FileNotFoundError
| RecursionError.

Inductive res (A : Type) :=
| Ok (a : A)
| Raise (e : exn).
Arguments Ok {A} a.
Arguments Raise {A} e.

Definition rbind {A B} (m : res A) (f : A -> res B) : res B :=
  match m with
  | Ok a => f a
  | Raise e => Raise e
  end.

Notation "x <~ m ;; k" := (rbind m (fun x => k))
  (at level 100, m at next level, right associativity).

(** [d[k]] on a possibly absent key. *)
Definition subscript {A} (o : option A) : res A :=
  match o with
  | Some a => Ok a
  | None => Raise KeyError
  end.

(** A [for] loop whose body may raise. *)
Fixpoint rfold {A S} (f : S -> A -> res S) (l : list A) (s : S) : res S :=
  match l with
  | [] => Ok s
  | x :: l' => s' <~ f s x ;; rfold f l' s'
  end.

Lemma rbind_Ok {A B} (m : res A) (f : A -> res B) (b : B) :
  rbind m f = Ok b -> exists a, m = Ok a /\ f a = Ok b.
Proof. destruct m as [a|e]; simpl; [eauto | discriminate]. Qed.

Ltac rbind_inv H :=
  let a := fresh "a" in
  let Ha := fresh "Ha" in
  apply rbind_Ok in H; destruct H as (a & Ha & H).

(** ** Insertion-ordered dictionaries

    A Python [dict] whose order of iteration matters: [d[k] = v] replaces
    the value in place when the key is there and appends the pair when it is
    not. *)

Section pydict.
Context {K V : Type} `{EqDecision K}.

Fixpoint dict_get (k : K) (d : list (K * V)) : option V :=
  match d with
  | [] => None
  | (k', v) :: d' => if decide (k = k') then Some v else dict_get k d'
  end.

Fixpoint dict_set (k : K) (v : V) (d : list (K * V)) : list (K * V) :=
  match d with
  | [] => [(k, v)]
  | (k', v') :: d' =>
      if decide (k = k') then (k, v) :: d' else (k', v') :: dict_set k v d'
  end.

Definition dict_has (k : K) (d : list (K * V)) : bool :=
  match dict_get k d with
  | Some _ => true
  | None => false
  end.

(** [a.update(b)] *)
Definition dict_update (a b : list (K * V)) : list (K * V) :=
  fold_left (fun acc kv => dict_set (fst kv) (snd kv) acc) b a.

Definition dict_keys (d : list (K * V)) : list K := map fst d.
End pydict.

Section pydict_facts.
Context {K V : Type} `{EqDecision K}.
Implicit Types (d : list (K * V)) (k : K) (v : V).

Lemma dict_get_set_eq k v d : dict_get k (dict_set k v d) = Some v.
Proof.
  induction d as [|[k' v'] d IH]; simpl.
  - by rewrite decide_True.
  - destruct (decide (k = k')); simpl.
    + by rewrite decide_True.
    + by rewrite decide_False.
Qed.

Lemma dict_get_set_ne k k' v d : k <> k' -> dict_get k' (dict_set k v d) = dict_get k' d.
Proof.
  intros Hne. induction d as [|[k0 v0] d IH]; simpl.
  - rewrite decide_False; [done|congruence].
  - destruct (decide (k = k0)) as [->|]; simpl.
    + by rewrite !decide_False by congruence.
    + destruct (decide (k' = k0)); [done|apply IH].
Qed.

Lemma dict_set_same k v d : dict_get k d = Some v -> dict_set k v d = d.
Proof.
  induction d as [|[k0 v0] d IH]; simpl; [done|].
  destruct (decide (k = k0)) as [->|]; [by intros [= ->]|].
  intros H'. by rewrite IH.
Qed.

Lemma dict_set_fresh k v d : dict_get k d = None -> dict_set k v d = d ++ [(k, v)].
Proof.
  induction d as [|[k0 v0] d IH]; simpl; [done|].
  destruct (decide (k = k0)); [done|]. intros H'. by rewrite IH.
Qed.

Lemma dict_get_None k d : dict_get k d = None <-> k ∉ dict_keys d.
Proof.
  induction d as [|[k0 v0] d IH]; simpl.
  - split; [intros _; apply not_elem_of_nil|done].
  - destruct (decide (k = k0)) as [->|Hne].
    + split; [done|]. intros Hn. exfalso. apply Hn. apply elem_of_cons. by left.
    + rewrite IH. rewrite not_elem_of_cons. tauto.
Qed.

Lemma dict_get_Some_in k v d : dict_get k d = Some v -> (k, v) ∈ d.
Proof.
  induction d as [|[k0 v0] d IH]; simpl; [done|].
  destruct (decide (k = k0)) as [->|]; [intros [= ->]; apply elem_of_cons; by left|].
  intros H'. apply elem_of_cons. right. by apply IH.
Qed.

Lemma dict_get_in_NoDup k v d : NoDup (dict_keys d) -> (k, v) ∈ d -> dict_get k d = Some v.
Proof.
  induction d as [|[k0 v0] d IH]; simpl; intros Hnd Hin.
  - by apply elem_of_nil in Hin.
  - apply NoDup_cons in Hnd as [Hk0 Hnd].
    apply elem_of_cons in Hin as [[= -> ->]|Hin].
    + by rewrite decide_True.
    + destruct (decide (k = k0)) as [->|]; [|by apply IH].
      exfalso. apply Hk0. unfold dict_keys. apply list_elem_of_fmap. by exists (k0, v).
Qed.

Lemma dict_keys_set k v d :
  dict_keys (dict_set k v d) = if dict_has k d then dict_keys d else dict_keys d ++ [k].
Proof.
  unfold dict_has. induction d as [|[k0 v0] d IH]; simpl; [done|].
  destruct (decide (k = k0)) as [->|]; simpl; [done|].
  rewrite IH. by destruct (dict_get k d).
Qed.

Lemma dict_keys_set_NoDup k v d : NoDup (dict_keys d) -> NoDup (dict_keys (dict_set k v d)).
Proof.
  intros Hnd. rewrite dict_keys_set. unfold dict_has.
  destruct (dict_get k d) eqn:Hg; [done|].
  apply NoDup_app. split; [done|]. split; [|apply NoDup_singleton].
  intros x Hx Hx'. apply list_elem_of_singleton in Hx'. subst.
  apply dict_get_None in Hg. done.
Qed.

Lemma dict_update_id (a b : list (K * V)) :
  (forall k v, (k, v) ∈ b -> dict_get k a = Some v) -> dict_update a b = a.
Proof.
  unfold dict_update. induction b as [|[k v] b IH]; simpl; intros Hb; [done|].
  rewrite dict_set_same by (apply Hb, elem_of_cons; by left).
  apply IH. intros k' v' Hin. apply Hb, elem_of_cons. by right.
Qed.

Lemma dict_update_get (b : list (K * V)) : forall (a : list (K * V)) k,
  NoDup (dict_keys b) ->
  dict_get k (dict_update a b) =
    match dict_get k b with
    | Some v => Some v
    | None => dict_get k a
    end.
Proof.
  unfold dict_update. induction b as [|[k0 v0] b IH]; intros a k Hnd; simpl; [done|].
  apply NoDup_cons in Hnd as [Hk0 Hnd]. simpl in Hk0. rewrite IH by done.
  destruct (decide (k = k0)) as [->|Hne].
  - apply dict_get_None in Hk0. by rewrite Hk0, dict_get_set_eq.
  - by rewrite dict_get_set_ne.
Qed.

Lemma dict_update_self d : NoDup (dict_keys d) -> dict_update d d = d.
Proof. intros Hnd. apply dict_update_id. intros k v. by apply dict_get_in_NoDup. Qed.

Lemma dict_update_nil_l (b : list (K * V)) :
  NoDup (dict_keys b) -> dict_update [] b = b.
Proof.
  intros Hnd. unfold dict_update.
  enough (forall a, NoDup (dict_keys (a ++ b)) ->
            fold_left (fun acc kv => dict_set kv.1 kv.2 acc) b a = a ++ b) as H'
    by (apply (H' []); done).
  clear Hnd. induction b as [|[k v] b IH]; intros a Hnd; simpl.
  - by rewrite app_nil_r.
  - rewrite dict_set_fresh.
    + rewrite IH; rewrite <- app_assoc; done.
    + apply dict_get_None. unfold dict_keys in *. rewrite fmap_app in Hnd.
      apply NoDup_app in Hnd as (_ & Hd & _). intros Hin. apply (Hd _ Hin).
      simpl. apply elem_of_cons. by left.
Qed.
End pydict_facts.

(** ** Filters *)

Lemma filter_length_split {A} (P Q R : A -> Prop)
    `{forall x, Decision (P x)} `{forall x, Decision (Q x)} `{forall x, Decision (R x)}
    (l : list A) :
  (forall x, R x <-> P x \/ Q x) -> (forall x, P x -> Q x -> False) ->
  length (filter R l) = (length (filter P l) + length (filter Q l))%nat.
Proof.
  intros HR Hdis. induction l as [|x l IH]; [done|].
  rewrite !filter_cons.
  destruct (decide (P x)) as [Hp|Hp], (decide (Q x)) as [Hq|Hq];
    destruct (decide (R x)) as [Hr|Hr]; simpl; rewrite ?IH; try lia.
  - exfalso. eauto.
  - exfalso. eauto.
  - exfalso. apply Hr, HR. by left.
  - exfalso. apply Hr, HR. by right.
  - exfalso. apply HR in Hr. tauto.
Qed.

Lemma filter_none {A} (P : A -> Prop) `{forall x, Decision (P x)} (l : list A) :
  (forall x, x ∈ l -> ~ P x) -> filter P l = [].
Proof.
  induction l as [|x l IH]; intros Hn; [done|].
  rewrite filter_cons_False by (apply Hn, elem_of_cons; by left).
  apply IH. intros y Hy. apply Hn, elem_of_cons. by right.
Qed.

Lemma filter_same {A} (P Q : A -> Prop) `{forall x, Decision (P x)}
    `{forall x, Decision (Q x)} (l : list A) :
  (forall x, x ∈ l -> (P x <-> Q x)) -> filter P l = filter Q l.
Proof.
  induction l as [|x l IH]; intros Hpq; [done|].
  assert (Hx : P x <-> Q x) by (apply Hpq, elem_of_cons; by left).
  assert (Hl : filter P l = filter Q l).
  { apply IH. intros y Hy. apply Hpq, elem_of_cons. by right. }
  rewrite !filter_cons. destruct (decide (P x)), (decide (Q x)); rewrite ?Hl; tauto.
Qed.

(** ** Strings

    [str.split] on a one-character separator, [str.replace] of a character
    by nothing, and [str.strip], on the bytes of the string.  The white
    space of [strip] is Python's for the ASCII range. *)

Fixpoint split_on (c : ascii) (s : string) : list string :=
  match s with
  | EmptyString => [EmptyString]
  | String a s' =>
      if Ascii.eqb a c then EmptyString :: split_on c s'
      else match split_on c s' with
           | [] => [String a EmptyString]
           | h :: t => String a h :: t
           end
  end.

Fixpoint remove_char (c : ascii) (s : string) : string :=
  match s with
  | EmptyString => EmptyString
  | String a s' =>
      if Ascii.eqb a c then remove_char c s' else String a (remove_char c s')
  end.

Definition is_space (a : ascii) : bool :=
  let n := nat_of_ascii a in
  ((9 <=? n) && (n <=? 13) || (28 <=? n) && (n <=? 32))%nat.

Fixpoint lstrip (s : string) : string :=
  match s with
  | EmptyString => EmptyString
  | String a s' => if is_space a then lstrip s' else s
  end.

Definition rev_string (s : string) : string :=
  string_of_list_ascii (rev (list_ascii_of_string s)).

Definition strip (s : string) : string :=
  rev_string (lstrip (rev_string (lstrip s))).

Definition str_empty (s : string) : bool :=
  match s with
  | EmptyString => true
  | _ => false
  end.

(** ** The Stack Overflow dump parser *)

Module DumpParsing.

(** The dict that [parse_line] builds and the JSON lines hold.  A key that
    the dict may lack is an [option]; [accepted_answer] and [parent_id] hold
    the value of [dict.get], which is [None] when the attribute is absent. *)
Record post := mkPost {
  p_line : Z;
  p_body : option string;
  p_result : string;
  p_type : option Z;
  p_id : option string;
  p_date : option string;
  p_score : option Z;
  p_comment_count : option Z;
  p_tags : option (list string);
  p_title : option string;
  p_answer_count : option Z;
  p_views : option Z;
  p_accepted_answer : option (option string);
  p_parent_id : option (option string)
}.

(** A value of [tag_counts]: an [int] of the first pass's [Counter], or the
    [Count] attribute of a row of Tags.xml, which lxml hands over as [str]. *)
Inductive count :=
| CInt (n : Z)
| CStr (s : string).

(** [tag_counts]: the [Counter] of [initial_parse_dump] (a missing key reads
    as 0) or the plain dict that [parse_so_dump] fills from Tags.xml (a
    missing key raises). *)
Inductive tag_counts_t :=
| TCCounter (c : gmap string Z)
| TCDict (d : gmap string string).

Definition tag_counts_get (tc : tag_counts_t) (t : string) : res count :=
  match tc with
  | TCCounter c => Ok (CInt (default 0 (c !! t)))
  | TCDict d => c <~ subscript (d !! t) ;; Ok (CStr c)
  end.

(** Python's [>] on [str]: lexicographic, by code point. *)
Definition str_gt (a b : string) : bool :=
  match String.compare a b with
  | Gt => true
  | _ => false
  end.

Definition count_gt (a b : count) : res bool :=
  match a, b with
  | CInt x, CInt y => Ok (y <? x)
  | CStr x, CStr y => Ok (str_gt x y)
  | _, _ => Raise TypeError
  end.

(** [max(iterable, key=...)]: the key of every item is computed in order,
    and an item replaces the running maximum only when its key is strictly
    greater, so the first maximal item wins. *)
Fixpoint max_from (key : string -> res count) (best : string) (kbest : count)
    (l : list string) : res string :=
  match l with
  | [] => Ok best
  | x :: l' =>
      kx <~ key x ;;
      gt <~ count_gt kx kbest ;;
      if (gt : bool) then max_from key x kx l' else max_from key best kbest l'
  end.

Definition py_max (key : string -> res count) (l : list string) : res string :=
  match l with
  | [] => Raise ValueError
  | x :: l' => kx <~ key x ;; max_from key x kx l'
  end.

(** The shard directory: the lines of every file, the files that have an
    open descriptor, and the largest number of descriptors that were ever
    open at once (a ghost field, updated by [open_w]). *)
Record shard_dir := mkDir {
  files : gmap string (list post);
  open_fds : gset string;
  peak : nat
}.

Definition empty_dir : shard_dir := mkDir ∅ ∅ 0.

(** Code that works on the shard directory and may raise: what it wrote
    stays on disk when it raises. *)
Definition io (A : Type) : Type := shard_dir -> res A * shard_dir.

Definition io_ret {A} (a : A) : io A := fun d => (Ok a, d).

Definition io_bind {A B} (m : io A) (f : A -> io B) : io B :=
  fun d =>
    match m d with
    | (Ok a, d') => f a d'
    | (Raise e, d') => (Raise e, d')
    end.

Definition io_lift {A} (r : res A) : io A := fun d => (r, d).

Definition io_do (f : shard_dir -> shard_dir) : io unit := fun d => (Ok tt, f d).

Notation "x <- m ;; k" := (io_bind m (fun x => k))
  (at level 100, m at next level, right associativity).

Fixpoint io_fold {A S} (f : S -> A -> io S) (l : list A) (s : S) : io S :=
  match l with
  | [] => io_ret s
  | x :: l' => s' <- f s x ;; io_fold f l' s'
  end.

(** [path.open('w')]: creates or truncates the file. *)
Definition open_w (name : string) (d : shard_dir) : shard_dir :=
  let fds := {[name]} ∪ open_fds d in
  mkDir (<[name := []]> (files d)) fds (Nat.max (peak d) (size fds)).

Definition write_line (name : string) (p : post) (d : shard_dir) : shard_dir :=
  mkDir (<[name := default [] (files d !! name) ++ [p]]> (files d))
        (open_fds d) (peak d).

Definition close_all (names : gset string) (d : shard_dir) : shard_dir :=
  mkDir (files d) (open_fds d ∖ names) (peak d).

Definition shard_name (tag : string) : string := (tag ++ ".jsonl")%string.

(** The handles of [tag_file_descriptors], by the name of their file. *)
Definition handles (tfd : gmap string string) : gset string :=
  list_to_set (snd <$> map_to_list tfd).

Definition tag_to_use_of (parsed : post) (tag_counts : tag_counts_t) : res string :=
  match default [] (p_tags parsed) with
  | [] => Ok "NO_TAG"
  | tags => py_max (tag_counts_get tag_counts) tags
  end.

(** Lines 160-165: the descriptor is opened when the table lacks the tag,
    and the line is written through the table's descriptor. *)
Definition open_and_write (parsed : post) (tag_to_use : string)
    (tfd : gmap string string) : io (gmap string string) :=
  tfd1 <- match tfd !! tag_to_use with
          | Some _ => io_ret tfd
          | None =>
              _ <- io_do (open_w (shard_name tag_to_use)) ;;
              io_ret (<[tag_to_use := shard_name tag_to_use]> tfd)
          end ;;
  h <- io_lift (subscript (tfd1 !! tag_to_use)) ;;
  _ <- io_do (write_line h parsed) ;;
  io_ret tfd1.

(** Lines 166-172. *)
Definition close_if_full (max_files_open : Z) (tfd : gmap string string)
    : io (gmap string string) :=
  if Z.of_nat (size tfd) >=? max_files_open
  then _ <- io_do (close_all (handles tfd)) ;; io_ret ∅
  else io_ret tfd.

Definition save_post_using_tag (parsed : post) (tfd : gmap string string)
    (tag_counts : tag_counts_t) (max_files_open : Z)
    : io (gmap string string * string) :=
  tag_to_use <- io_lift (tag_to_use_of parsed tag_counts) ;;
  tfd1 <- open_and_write parsed tag_to_use tfd ;;
  tfd2 <- close_if_full max_files_open tfd1 ;;
  io_ret (tfd2, tag_to_use).

(** A value of [question_overview_data], as [initial_parse_dump] stores it;
    [tag_to_use] is the key the second pass adds. *)
Record overview := mkOverview {
  o_tags : list string;
  o_score : Z;
  o_views : Z;
  o_answer_count : Z;
  o_accepted_answer : option string;
  o_tag_to_use : option string
}.

Definition set_tag_to_use (t : string) (o : overview) : overview :=
  mkOverview (o_tags o) (o_score o) (o_views o) (o_answer_count o)
             (o_accepted_answer o) (Some t).

Definition set_tags (tags : list string) (p : post) : post :=
  mkPost (p_line p) (p_body p) (p_result p) (p_type p) (p_id p) (p_date p)
         (p_score p) (p_comment_count p) (Some tags) (p_title p)
         (p_answer_count p) (p_views p) (p_accepted_answer p) (p_parent_id p).

(** The local variables of [second_parse_dump] that its loops update. *)
Record pass2 := mkPass2 {
  tag_file_descriptors : gmap string string;
  posts_per_tag : gmap string Z;
  no_tags : Z;
  question_overview_data : gmap string overview
}.

Definition max_files_open_of (debug : bool) : Z := if debug then 16 else 1000.

Definition incr (k : string) (c : gmap string Z) : gmap string Z :=
  <[k := default 0 (c !! k) + 1]> c.

Definition is_no_tag (t : string) : Z := if String.eqb t "NO_TAG" then 1 else 0.

(** The body of the loop over questions.jsonl (lines 264-280). *)
Definition question_step (tag_counts : tag_counts_t) (max_files_open : Z)
    (s : pass2) (parsed : post) : io pass2 :=
  ty <- io_lift (if String.eqb (p_result parsed) "PASS"
                 then t <~ subscript (p_type parsed) ;; Ok (Some t)
                 else Ok None) ;;
  match ty with
  | None => io_ret s
  | Some t =>
      if negb ((t =? 1) || (t =? 2)) then io_ret s else
      r <- save_post_using_tag parsed (tag_file_descriptors s) tag_counts
             max_files_open ;;
      let '(tfd, tag_to_use) := r in
      id <- io_lift (subscript (p_id parsed)) ;;
      o <- io_lift (subscript (question_overview_data s !! id)) ;;
      io_ret (mkPass2 tfd (incr tag_to_use (posts_per_tag s))
                (no_tags s + is_no_tag tag_to_use)
                (<[id := set_tag_to_use tag_to_use o]> (question_overview_data s)))
  end.

(** The body of the loop over answers.jsonl (lines 296-311).  A parent that
    is not in [question_overview_data] is logged and the answer skipped; the
    log message itself reads [parsed['id']] and [parsed['parent_id']]. *)
Definition answer_step (tag_counts : tag_counts_t) (max_files_open : Z)
    (s : pass2) (parsed : post) : io pass2 :=
  parent <- io_lift (subscript (p_parent_id parsed)) ;;
  match parent ≫= (fun k => question_overview_data s !! k) with
  | None => _ <- io_lift (subscript (p_id parsed)) ;; io_ret s
  | Some o =>
      r <- save_post_using_tag (set_tags (o_tags o) parsed)
             (tag_file_descriptors s) tag_counts max_files_open ;;
      let '(tfd, tag_to_use) := r in
      io_ret (mkPass2 tfd (posts_per_tag s) (no_tags s + is_no_tag tag_to_use)
                (question_overview_data s))
  end.

(** [second_parse_dump]: the shard directory is created empty, the two
    files are read in turn, and the descriptors left open are closed.  It
    returns [posts_per_tag]; the other locals are kept for the proofs. *)
Definition second_parse_dump (questions answers : list post)
    (qod : gmap string overview) (tag_counts : tag_counts_t) (debug : bool)
    : io pass2 :=
  let max_files_open := max_files_open_of debug in
  s1 <- io_fold (question_step tag_counts max_files_open) questions
          (mkPass2 ∅ ∅ 0 qod) ;;
  s2 <- io_fold (answer_step tag_counts max_files_open) answers s1 ;;
  _ <- io_do (close_all (handles (tag_file_descriptors s2))) ;;
  io_ret s2.

(** [second_parse_dump] run on the directory it has just created. *)
Definition run_second_parse_dump (questions answers : list post)
    (qod : gmap string overview) (tag_counts : tag_counts_t) (debug : bool)
    : res pass2 * shard_dir :=
  second_parse_dump questions answers qod tag_counts debug empty_dir.

(** *** [parse_line] and the first pass *)

Section first_pass.
(** lxml's [etree.XML(line).attrib]: the attributes of the element, or
    [None] when lxml raises. *)
Variable etree_XML : string -> option (list (string * string)).
(** [int(s)] on a string: [None] when it raises [ValueError]. *)
Variable py_int : string -> option Z.
Variable unidecode : string -> string.
(** [src.data.parse_so.util.POST_TYPE_TO_STR], which is not among the
    sources: the name of the file of each post type. *)
Variable POST_TYPE_TO_STR : list (Z * string).

Definition int_of (s : string) : res Z :=
  match py_int s with
  | Some n => Ok n
  | None => Raise ValueError
  end.

(** [int(post_dict.get(key, 0))] *)
Definition int_get (key : string) (post_dict : list (string * string)) : res Z :=
  match dict_get key post_dict with
  | Some s => int_of s
  | None => Ok 0
  end.

(** The result dict as line 67 creates it, with another ['result']. *)
Definition failed (line_number : Z) (result : string) : post :=
  mkPost line_number None result None None None None None None None None
         None None None.

(** [post_type in [1, 2, 4, 5]] *)
Definition valid_type (post_type : Z) : bool :=
  existsb (Z.eqb post_type) [1; 2; 4; 5].

Definition parse_tags (tags : string) : list string :=
  map (fun t => strip (remove_char "<"%char t))
      (filter (fun t => negb (str_empty (strip t))) (split_on ">"%char tags)).

Definition parse_line (line_number : Z) (line : string) : res post :=
  match etree_XML line with
  | None => Ok (failed line_number "PARSE_FAIL")
  | Some post_dict =>
      type_str <~ subscript (dict_get "PostTypeId" post_dict) ;;
      match py_int type_str with
      | None => Ok (failed line_number "PARSE_FAIL")
      | Some post_type =>
          if negb (valid_type post_type)
          then Ok (failed line_number "NOT_VALID_TYPE") else
          body <~ subscript (dict_get "Body" post_dict) ;;
          if str_empty body then Ok (failed line_number "NO_BODY") else
          id <~ subscript (dict_get "Id" post_dict) ;;
          date <~ subscript (dict_get "CreationDate" post_dict) ;;
          score_str <~ subscript (dict_get "Score" post_dict) ;;
          score <~ int_of score_str ;;
          comment_count <~ int_get "CommentCount" post_dict ;;
          let updated (result : string) tags title answer_count views accepted parent :=
            mkPost line_number (Some (unidecode body)) result (Some post_type)
                   (Some id) (Some date) (Some score) (Some comment_count)
                   tags title answer_count views accepted parent in
          if post_type =? 1 then
            tags_str <~ subscript (dict_get "Tags" post_dict) ;;
            let post_tags := parse_tags tags_str in
            match dict_get "Title" post_dict with
            | Some (String a t) =>
                answer_count <~ int_get "AnswerCount" post_dict ;;
                views <~ int_get "ViewCount" post_dict ;;
                Ok (updated "PASS" (Some post_tags)
                      (Some (unidecode (String a t))) (Some answer_count)
                      (Some views) (Some (dict_get "AcceptedAnswerId" post_dict))
                      None)
            | _ => Ok (updated "NO_TITLE" None None None None None None)
            end
          else
            Ok (updated "PASS" None None None None None
                  (Some (dict_get "ParentId" post_dict)))
      end
  end.

(** [read_dump]: the lines are numbered from 0, and in debug mode the
    generator stops after it has yielded line 2499. *)
Definition read_lines (lines : list string) (debug : bool) : list (Z * string) :=
  let numbered := imap (fun i l => (Z.of_nat i, l)) lines in
  if debug then take 2500 numbered else numbered.

(** The local variables of [initial_parse_dump]; [post_files] holds the
    lines written to [post_type_to_file[k]], by [k]. *)
Record pass1 := mkPass1 {
  overview_data : gmap string overview;
  failures_counts : gmap string Z;
  post_type_counter : gmap string Z;
  first_tag_counts : gmap string Z;
  post_files : list (Z * list post)
}.

Definition pass1_init : pass1 :=
  mkPass1 ∅ ∅ ∅ ∅ (map (fun kv => (fst kv, [])) POST_TYPE_TO_STR).

(** The body of the loop of [initial_parse_dump] (lines 193-210). *)
Definition initial_step (s : pass1) (parsed : post) : res pass1 :=
  if negb (String.eqb (p_result parsed) "PASS") then
    Ok (mkPass1 (overview_data s) (incr (p_result parsed) (failures_counts s))
                (post_type_counter s) (first_tag_counts s) (post_files s))
  else
    ty <~ subscript (p_type parsed) ;;
    name <~ subscript (dict_get ty POST_TYPE_TO_STR) ;;
    file <~ subscript (dict_get ty (post_files s)) ;;
    let counter := incr name (post_type_counter s) in
    let written := dict_set ty (file ++ [parsed]) (post_files s) in
    if ty =? 1 then
      id <~ subscript (p_id parsed) ;;
      tags <~ subscript (p_tags parsed) ;;
      score <~ subscript (p_score parsed) ;;
      views <~ subscript (p_views parsed) ;;
      answer_count <~ subscript (p_answer_count parsed) ;;
      accepted <~ subscript (p_accepted_answer parsed) ;;
      Ok (mkPass1
            (<[id := mkOverview tags score views answer_count accepted None]>
               (overview_data s))
            (failures_counts s) counter
            (fold_left (fun c t => incr t c) tags (first_tag_counts s))
            written)
    else
      Ok (mkPass1 (overview_data s) (failures_counts s) counter
                  (first_tag_counts s) written).

(** [initial_parse_dump]: every line is parsed when the loop reaches it,
    so an exception of [parse_line] ends the pass there. *)
Definition initial_parse_dump (lines : list string) (debug : bool) : res pass1 :=
  rfold (fun s nl => parsed <~ parse_line (fst nl) (snd nl) ;; initial_step s parsed)
        (read_lines lines debug) pass1_init.

(** Lines 374-382 of [parse_so_dump]: [tag_counts] read from Tags.xml;
    the values are the [Count] attributes as lxml returns them, strings. *)
Definition load_tag_counts (tags_xml : list string) : res (gmap string string) :=
  rfold (fun tc line =>
           match etree_XML line with
           | None => Ok tc
           | Some post_dict =>
               name <~ subscript (dict_get "TagName" post_dict) ;;
               c <~ subscript (dict_get "Count" post_dict) ;;
               Ok (<[name := c]> tc)
           end)
        tags_xml ∅.

Definition file_of_type (name : string) (s : pass1) : res (list post) :=
  match filter (fun kv => String.eqb (snd kv) name) POST_TYPE_TO_STR with
  | (k, _) :: _ => subscript (dict_get k (post_files s))
  | [] => Raise FileNotFoundError
  end.

(** [parse_so_dump] up to the end of the second pass: [tags_xml] holds
    the lines of Tags.xml when that file exists. *)
Definition parse_so_dump_passes (lines : list string) (tags_xml : option (list string))
    (debug : bool) : res pass2 * shard_dir :=
  match
    (s <~ initial_parse_dump lines debug ;;
     tag_counts <~ match tags_xml with
                   | Some l => tc <~ load_tag_counts l ;; Ok (TCDict tc)
                   | None => Ok (TCCounter (first_tag_counts s))
                   end ;;
     questions <~ file_of_type "questions" s ;;
     answers <~ file_of_type "answers" s ;;
     Ok (questions, answers, overview_data s, tag_counts))
  with
  | Ok (questions, answers, qod, tag_counts) =>
      run_second_parse_dump questions answers qod tag_counts debug
  | Raise e => (Raise e, empty_dir)
  end.
End first_pass.

Arguments valid_type : simpl never.

(** *** [align_tag_file] *)

(** A value of [question_dict]: the line, and under ['answers'] the dict
    object [orphaned_children[line['id']]] itself, named here by its key in
    [orphaned_children]: the two dicts share it. *)
Record question_entry := mkEntry {
  answers_ref : option string;
  q_line : post
}.

(** A line of the rewritten file: [json.dumps] of a value of
    [question_dict], the shared dict read at that time. *)
Record aligned := mkAligned {
  a_answers : list (string * post);
  a_line : post
}.

Record align_state := mkAlign {
  question_dict : list (string * question_entry);
  orphaned_children : list (option string * list (string * post))
}.

(** [orphaned_children[k]] of a [defaultdict(dict)]: a missing key is
    inserted with a new empty dict. *)
Definition touch (k : option string) (oc : list (option string * list (string * post)))
    : list (option string * list (string * post)) :=
  if dict_has k oc then oc else dict_set k [] oc.

(** The body of the first loop (lines 340-346). *)
Definition align_step (s : align_state) (line : post) : res align_state :=
  ty <~ subscript (p_type line) ;;
  if ty =? 1 then
    id <~ subscript (p_id line) ;;
    Ok (mkAlign (dict_set id (mkEntry (Some id) line) (question_dict s))
                (touch (Some id) (orphaned_children s)))
  else
    parent <~ subscript (p_parent_id line) ;;
    let oc := touch parent (orphaned_children s) in
    id <~ subscript (p_id line) ;;
    Ok (mkAlign (question_dict s)
                (dict_set parent (dict_set id line (default [] (dict_get parent oc))) oc)).

(** The body of the second loop (lines 349-353), at key [k] of
    [orphaned_children]: [v] is the dict stored there. *)
Definition orphan_step (qd : list (string * question_entry))
    (acc : list (option string * list (string * post)) * Z) (k : option string)
    : res (list (option string * list (string * post)) * Z) :=
  let '(oc, orphans) := acc in
  v <~ subscript (dict_get k oc) ;;
  match k ≫= (fun id => dict_get id qd) with
  | Some e =>
      target <~ subscript (dict_get (answers_ref e) oc) ;;
      Ok (dict_set (answers_ref e) (dict_update target v) oc, orphans)
  | None => Ok (oc, orphans + Z.of_nat (length v))
  end.

Definition dump_entry (oc : list (option string * list (string * post)))
    (e : question_entry) : res aligned :=
  answers <~ subscript (dict_get (answers_ref e) oc) ;;
  Ok (mkAligned answers (q_line e)).

Fixpoint rmap {A B} (f : A -> res B) (l : list A) : res (list B) :=
  match l with
  | [] => Ok []
  | x :: l' => y <~ f x ;; ys <~ rmap f l' ;; Ok (y :: ys)
  end.

(** [align_tag_file] on the lines of the file: the lines it writes back,
    and the number of orphans. *)
Definition align_tag_file (lines : list post) : res (list aligned * Z) :=
  s <~ rfold align_step lines (mkAlign [] []) ;;
  r <~ rfold (orphan_step (question_dict s)) (dict_keys (orphaned_children s))
         (orphaned_children s, 0) ;;
  out <~ rmap (dump_entry (fst r)) (map snd (question_dict s)) ;;
  Ok (out, snd r).


(** *** The file-handle budget *)

Lemma handles_empty : handles ∅ = ∅.
Proof. unfold handles. rewrite map_to_list_empty. reflexivity. Qed.

Lemma handles_insert_fresh (tfd : gmap string string) t n :
  tfd !! t = None -> handles (<[t := n]> tfd) = {[n]} ∪ handles tfd.
Proof.
  intros Hn. unfold handles. apply set_eq. intros x.
  rewrite elem_of_union, elem_of_singleton, !elem_of_list_to_set, !list_elem_of_fmap.
  split.
  - intros [[k v] [-> Hin]]. apply elem_of_map_to_list in Hin.
    destruct (decide (t = k)) as [->|Hne].
    + rewrite lookup_insert_eq in Hin. left. simpl. congruence.
    + rewrite lookup_insert_ne in Hin by done. right. exists (k, v). split; [done|].
      by apply elem_of_map_to_list.
  - intros [->|[[k v] [-> Hin]]].
    + exists (t, n). split; [done|]. apply elem_of_map_to_list. apply lookup_insert_eq.
    + apply elem_of_map_to_list in Hin. exists (k, v). split; [done|].
      apply elem_of_map_to_list. rewrite lookup_insert_ne; [done|]. congruence.
Qed.

Lemma size_handles_le (tfd : gmap string string) : (size (handles tfd) <= size tfd)%nat.
Proof.
  induction tfd as [|k v m Hk IH] using map_ind.
  - rewrite handles_empty, size_empty, map_size_empty. lia.
  - rewrite handles_insert_fresh by done. rewrite map_size_insert_None by done.
    rewrite (size_union_alt {[v]} (handles m)), size_singleton.
    assert (Hsub : handles m ∖ {[v]} ⊆ handles m) by apply subseteq_difference_l, reflexivity.
    apply subseteq_size in Hsub. lia.
Qed.

(** What holds of the table and the directory between two calls of
    [save_post_using_tag]: every open descriptor is in the table, the table
    is below the cap, and so was the number of open descriptors so far. *)
Definition fd_inv (cap : Z) (tfd : gmap string string) (d : shard_dir) : Prop :=
  open_fds d ⊆ handles tfd /\ Z.of_nat (size tfd) < cap /\ Z.of_nat (peak d) <= cap.

Lemma open_and_write_spec parsed t (tfd : gmap string string) d :
  exists tfd1 d1,
    open_and_write parsed t tfd d = (Ok tfd1, d1) /\
    tfd1 = (if tfd !! t is Some _ then tfd else <[t := shard_name t]> tfd) /\
    open_fds d1 = (if tfd !! t is Some _ then open_fds d
                   else {[shard_name t]} ∪ open_fds d) /\
    peak d1 = (if tfd !! t is Some _ then peak d
               else Nat.max (peak d) (size ({[shard_name t]} ∪ open_fds d))).
Proof.
  unfold open_and_write, io_bind, io_do, io_ret, io_lift.
  destruct (tfd !! t) as [h|] eqn:Ht; simpl.
  - rewrite Ht. simpl. eauto 10.
  - rewrite lookup_insert_eq. simpl. eauto 10.
Qed.

Lemma save_post_using_tag_inv parsed tfd tc cap d r d' :
  1 <= cap -> fd_inv cap tfd d ->
  save_post_using_tag parsed tfd tc cap d = (r, d') ->
  Z.of_nat (peak d') <= cap /\
  forall tfd' t, r = Ok (tfd', t) -> fd_inv cap tfd' d'.
Proof.
  intros Hcap (Hsub & Hsz & Hpk) Hrun.
  unfold save_post_using_tag, io_bind, io_lift in Hrun.
  destruct (tag_to_use_of parsed tc) as [t|e].
  2:{ inversion Hrun; subst. split; [done|]. intros ? ? [=]. }
  destruct (open_and_write_spec parsed t tfd d) as (tfd1 & d1 & Hrw & Htfd1 & Hop & Hp).
  rewrite Hrw in Hrun.
  assert (Hsub1 : open_fds d1 ⊆ handles tfd1).
  { rewrite Hop, Htfd1. destruct (tfd !! t) eqn:Ht; [done|].
    rewrite handles_insert_fresh by done.
    apply union_mono_l, Hsub. }
  assert (Hsz1 : Z.of_nat (size tfd1) <= cap).
  { rewrite Htfd1. destruct (tfd !! t) eqn:Ht; [lia|].
    rewrite map_size_insert_None by done. lia. }
  assert (Hp1 : Z.of_nat (peak d1) <= cap).
  { rewrite Hp. destruct (tfd !! t) eqn:Ht; [done|].
    assert (size ({[shard_name t]} ∪ open_fds d) <= size tfd1)%nat.
    { etrans; [|apply (size_handles_le tfd1)].
      apply subseteq_size. rewrite <- Hop. done. }
    lia. }
  unfold close_if_full, io_bind, io_do, io_ret in Hrun.
  destruct (Z.of_nat (size tfd1) >=? cap) eqn:Hfull; simpl in Hrun;
    inversion Hrun; subst r d'; clear Hrun; simpl.
  - split; [done|]. intros ? ? [= <- <-]. repeat split; simpl.
    + intros x Hx. apply elem_of_difference in Hx as [Hx Hn]. by apply Hsub1 in Hx.
    + rewrite map_size_empty. lia.
    + done.
  - split; [done|]. intros ? ? [= <- <-]. repeat split; [done| lia | done].
Qed.

Lemma io_fold_inv {A S} (f : S -> A -> io S) (I : S -> shard_dir -> Prop)
    (P : shard_dir -> Prop) :
  (forall s d, I s d -> P d) ->
  (forall s x d r d', I s d -> f s x d = (r, d') ->
     P d' /\ forall s', r = Ok s' -> I s' d') ->
  forall l s d r d', I s d -> io_fold f l s d = (r, d') ->
     P d' /\ forall s', r = Ok s' -> I s' d'.
Proof.
  intros HIP Hstep l. induction l as [|x l IH]; intros s d r d' HI Hrun; simpl in Hrun.
  - unfold io_ret in Hrun. inversion Hrun; subst. split; [eauto|]. by intros ? [= <-].
  - unfold io_bind in Hrun. destruct (f s x d) as [[s1|e] d1] eqn:Hf.
    + destruct (Hstep _ _ _ _ _ HI Hf) as [_ H1]. eapply IH; [|exact Hrun]. by apply H1.
    + inversion Hrun; subst. destruct (Hstep _ _ _ _ _ HI Hf) as [HP _].
      split; [done|]. intros ? [=].
Qed.

Definition pass_inv (cap : Z) (s : pass2) (d : shard_dir) : Prop :=
  fd_inv cap (tag_file_descriptors s) d.

Lemma question_step_inv tc cap s parsed d r d' :
  1 <= cap -> pass_inv cap s d -> question_step tc cap s parsed d = (r, d') ->
  Z.of_nat (peak d') <= cap /\ forall s', r = Ok s' -> pass_inv cap s' d'.
Proof.
  intros Hcap HI Hrun. pose proof HI as (_ & _ & Hpk).
  unfold question_step, io_bind, io_lift, io_ret in Hrun.
  destruct (String.eqb (p_result parsed) "PASS").
  2:{ simpl in Hrun. inversion Hrun; subst. split; [done|]. by intros ? [= <-]. }
  destruct (p_type parsed) as [t|]; simpl in Hrun.
  2:{ inversion Hrun; subst. split; [done|]. intros ? [=]. }
  destruct (negb ((t =? 1) || (t =? 2))).
  { inversion Hrun; subst. split; [done|]. by intros ? [= <-]. }
  destruct (save_post_using_tag parsed (tag_file_descriptors s) tc cap d)
    as [[[tfd tg]|e] d1] eqn:Hs.
  2:{ inversion Hrun; subst.
      destruct (save_post_using_tag_inv _ _ _ _ _ _ _ Hcap HI Hs) as [? _].
      split; [done|]. intros ? [=]. }
  destruct (save_post_using_tag_inv _ _ _ _ _ _ _ Hcap HI Hs) as [Hp Hi].
  specialize (Hi _ _ eq_refl).
  destruct (p_id parsed) as [id|]; simpl in Hrun.
  2:{ inversion Hrun; subst. split; [done|]. intros ? [=]. }
  destruct (question_overview_data s !! id); simpl in Hrun;
    inversion Hrun; subst; (split; [done|]); [|intros ? [=]].
  by intros ? [= <-].
Qed.

Lemma answer_step_inv tc cap s parsed d r d' :
  1 <= cap -> pass_inv cap s d -> answer_step tc cap s parsed d = (r, d') ->
  Z.of_nat (peak d') <= cap /\ forall s', r = Ok s' -> pass_inv cap s' d'.
Proof.
  intros Hcap HI Hrun. pose proof HI as (_ & _ & Hpk).
  unfold answer_step, io_bind, io_lift, io_ret in Hrun.
  destruct (p_parent_id parsed) as [parent|]; simpl in Hrun.
  2:{ inversion Hrun; subst. split; [done|]. intros ? [=]. }
  destruct (parent ≫= _) as [o|].
  - destruct (save_post_using_tag _ (tag_file_descriptors s) tc cap d)
      as [[[tfd tg]|e] d1] eqn:Hs;
      destruct (save_post_using_tag_inv _ _ _ _ _ _ _ Hcap HI Hs) as [Hp Hi];
      inversion Hrun; subst; (split; [done|]); [|intros ? [=]].
    intros ? [= <-]. by apply (Hi _ _ eq_refl).
  - destruct (p_id parsed); simpl in Hrun; inversion Hrun; subst;
      (split; [done|]); [|intros ? [=]]. by intros ? [= <-].
Qed.

Lemma max_files_open_pos debug : 1 <= max_files_open_of debug.
Proof. destruct debug; simpl; lia. Qed.

Lemma second_parse_dump_peak questions answers qod tc debug :
  Z.of_nat (peak (snd (run_second_parse_dump questions answers qod tc debug)))
    <= max_files_open_of debug.
Proof.
  unfold run_second_parse_dump, second_parse_dump.
  set (cap := max_files_open_of debug).
  assert (Hcap : 1 <= cap) by apply max_files_open_pos.
  assert (H0 : pass_inv cap (mkPass2 ∅ ∅ 0 qod) empty_dir).
  { repeat split; simpl; [done | rewrite map_size_empty; lia | lia]. }
  assert (HIP : forall s d, pass_inv cap s d -> Z.of_nat (peak d) <= cap).
  { by intros ? ? (_ & _ & ?). }
  unfold io_bind at 1.
  destruct (io_fold (question_step tc cap) questions _ empty_dir) as [r1 d1] eqn:H1.
  destruct (io_fold_inv (question_step tc cap) (pass_inv cap) _ HIP
              (fun s x d r d' => question_step_inv tc cap s x d r d' Hcap)
              _ _ _ _ _ H0 H1) as [Hp1 Hi1].
  destruct r1 as [s1|e]; [|done].
  specialize (Hi1 _ eq_refl).
  unfold io_bind at 1.
  destruct (io_fold (answer_step tc cap) answers s1 d1) as [r2 d2] eqn:H2.
  destruct (io_fold_inv (answer_step tc cap) (pass_inv cap) _ HIP
              (fun s x d r d' => answer_step_inv tc cap s x d r d' Hcap)
              _ _ _ _ _ Hi1 H2) as [Hp2 Hi2].
  destruct r2 as [s2|e]; [|done].
  simpl. done.
Qed.

Lemma save_post_using_tag_reset parsed tfd tc cap d tfd' t d' :
  open_fds d ⊆ handles tfd ->
  save_post_using_tag parsed tfd tc cap d = (Ok (tfd', t), d') ->
  cap <= Z.of_nat (size (<[t := shard_name t]> tfd)) ->
  tfd' = ∅ /\ open_fds d' = ∅.
Proof.
  intros Hsub Hrun Hfull.
  unfold save_post_using_tag, io_bind, io_lift in Hrun.
  destruct (tag_to_use_of parsed tc) as [t0|e]; [|discriminate].
  destruct (open_and_write_spec parsed t0 tfd d) as (tfd1 & d1 & Hrw & Htfd1 & Hop & _).
  rewrite Hrw in Hrun.
  unfold close_if_full, io_bind, io_do, io_ret in Hrun.
  destruct (Z.of_nat (size tfd1) >=? cap) eqn:Hc; simpl in Hrun;
    inversion Hrun; subst tfd' t d'; clear Hrun.
  - split; [done|]. simpl. apply set_eq. intros x. split; [|by intros ?%not_elem_of_empty].
    intros Hx. apply elem_of_difference in Hx as [Hx Hn]. exfalso. apply Hn. clear Hn.
    rewrite Hop in Hx. rewrite Htfd1. destruct (tfd !! t0) eqn:Ht; [by apply Hsub|].
    rewrite handles_insert_fresh by done.
    apply elem_of_union in Hx as [Hx|Hx]; apply elem_of_union; [by left|right; by apply Hsub].
  - exfalso. assert (size tfd1 = size (<[t0 := shard_name t0]> tfd)) as Heq.
    { rewrite Htfd1. destruct (tfd !! t0) eqn:Ht; [|done].
      rewrite map_size_insert_Some; [done|eauto]. }
    lia.
Qed.

(** C3. The number of shard descriptors open at once never exceeds
    [max_files_open] in any execution of [second_parse_dump], whether it
    returns or raises (16 in debug mode, 1000 otherwise); and when the table
    has reached the cap after a write, [save_post_using_tag] returns the
    empty table and has closed every descriptor. *)
Theorem file_handle_budget :
  (forall questions answers qod tc debug,
     Z.of_nat (peak (snd (run_second_parse_dump questions answers qod tc debug)))
       <= max_files_open_of debug /\
     (max_files_open_of debug = 16 \/ max_files_open_of debug = 1000)) /\
  (forall parsed tfd tc cap d tfd' t d',
     open_fds d ⊆ handles tfd ->
     save_post_using_tag parsed tfd tc cap d = (Ok (tfd', t), d') ->
     cap <= Z.of_nat (size (<[t := shard_name t]> tfd)) ->
     tfd' = ∅ /\ open_fds d' = ∅).
Proof.
  split.
  - intros. split; [apply second_parse_dump_peak|]. destruct debug; simpl; auto.
  - apply save_post_using_tag_reset.
Qed.

(** Inputs for the examples: a question, sixteen tags, and seventeen
    questions of which the last has the tag of the first. *)
Definition question (id : string) (tags : list string) : post :=
  mkPost 0 (Some "body") "PASS" (Some 1) (Some id) (Some "2020-01-01") (Some 0)
         (Some 0) (Some tags) (Some "title") (Some 0) (Some 0) (Some None) None.

Definition overview_of (p : post) : overview :=
  mkOverview (default [] (p_tags p)) 0 0 0 None None.

Definition sixteen_tags : list string :=
  ["t00"; "t01"; "t02"; "t03"; "t04"; "t05"; "t06"; "t07"; "t08"; "t09"; "t10";
   "t11"; "t12"; "t13"; "t14"; "t15"].

Definition cap_questions : list post :=
  map (fun t => question t [t]) sixteen_tags ++ [question "last" ["t00"]].

Definition cap_overview : gmap string overview :=
  list_to_map (map (fun p => (default "" (p_id p), overview_of p)) cap_questions).

Lemma file_handle_budget_witness :
  (Z.of_nat (peak (snd (run_second_parse_dump cap_questions [] cap_overview (TCCounter ∅) true)))
       <= max_files_open_of true /\
     (max_files_open_of true = 16 \/ max_files_open_of true = 1000)) /\
  ((∅ : gmap string string) = ∅ /\ (∅ : gset string) = ∅).
Proof.
  split.
  - apply (proj1 file_handle_budget).
  - apply (proj2 file_handle_budget (question "q" []) ∅ (TCCounter ∅) 1 empty_dir ∅ "NO_TAG"
             (mkDir (<["NO_TAG.jsonl" := [question "q" []]]> ∅) ∅ 1)).
    + done.
    + vm_compute. reflexivity.
    + vm_compute. discriminate.
Defined.


(** *** The tag of a post *)

Definition counter_get (c : gmap string Z) (t : string) : Z := default 0 (c !! t).

Lemma max_from_counter c l : forall best,
  exists t, max_from (tag_counts_get (TCCounter c)) best (CInt (counter_get c best)) l = Ok t /\
            t ∈ best :: l /\
            forall u, u ∈ best :: l -> counter_get c u <= counter_get c t.
Proof.
  induction l as [|x l IH]; intros best; simpl.
  - exists best. split; [done|]. split; [set_solver|].
    intros u Hu. apply list_elem_of_singleton in Hu. subst. lia.
  - fold (counter_get c x). destruct (counter_get c best <? counter_get c x) eqn:Hlt.
    + destruct (IH x) as (t & Ht & Hin & Hmax). exists t. split; [done|].
      split; [set_solver|]. intros u Hu.
      apply Z.ltb_lt in Hlt.
      apply elem_of_cons in Hu as [->|Hu].
      * specialize (Hmax x ltac:(set_solver)). lia.
      * by apply Hmax.
    + destruct (IH best) as (t & Ht & Hin & Hmax). exists t. split; [done|].
      split; [set_solver|]. intros u Hu.
      apply Z.ltb_ge in Hlt.
      apply elem_of_cons in Hu as [->|Hu]; [by apply Hmax; set_solver|].
      apply elem_of_cons in Hu as [->|Hu].
      * specialize (Hmax best ltac:(set_solver)). lia.
      * apply Hmax. set_solver.
Qed.

Lemma tag_to_use_counter parsed c tags :
  p_tags parsed = Some tags -> tags <> [] ->
  exists t, tag_to_use_of parsed (TCCounter c) = Ok t /\ t ∈ tags /\
            forall u, u ∈ tags -> counter_get c u <= counter_get c t.
Proof.
  intros Hp Hne. unfold tag_to_use_of. rewrite Hp. simpl.
  destruct tags as [|x l]; [done|]. simpl. apply max_from_counter.
Qed.

Lemma tag_to_use_no_tags parsed tc :
  default [] (p_tags parsed) = [] -> tag_to_use_of parsed tc = Ok "NO_TAG".
Proof. intros H. unfold tag_to_use_of. by rewrite H. Qed.

Definition xml_counts : tag_counts_t := TCDict (<["a" := "9"]> (<["b" := "10"]> ∅)).
Definition int_counts : tag_counts_t := TCCounter (<["a" := 9]> (<["b" := 10]> ∅)).

(** C1, at the failing input.  With the counts of Tags.xml, which are
    strings, a question tagged [a] (count 9) and [b] (count 10) goes to the
    shard of [a], because ["9" > "10"] as strings; with the same counts as
    integers it goes to the shard of [b]. *)
Theorem tags_xml_counts_compare_as_strings :
  tag_to_use_of (question "1" ["a"; "b"]) xml_counts = Ok "a" /\
  tag_to_use_of (question "1" ["a"; "b"]) int_counts = Ok "b" /\
  files (snd (save_post_using_tag (question "1" ["a"; "b"]) ∅ xml_counts 1000
                empty_dir)) !! "a.jsonl" = Some [question "1" ["a"; "b"]] /\
  files (snd (save_post_using_tag (question "1" ["a"; "b"]) ∅ xml_counts 1000
                empty_dir)) !! "b.jsonl" = None.
Proof. repeat split; vm_compute; reflexivity. Qed.

(** *** Records across a reset of the table *)

(** C2, at the failing input.  In debug mode the sixteenth distinct tag
    fills the table, which is closed and emptied; the seventeenth question
    has the tag of the first, whose shard is opened again with mode ['w']:
    two posts were counted for [t00] and the file holds the last one only. *)
Theorem reopened_shard_is_truncated :
  exists s d,
    run_second_parse_dump cap_questions [] cap_overview (TCCounter ∅) true = (Ok s, d) /\
    posts_per_tag s !! "t00" = Some 2 /\
    files d !! "t00.jsonl" = Some [question "last" ["t00"]].
Proof.
  eexists _, _. split; [vm_compute; reflexivity|]. split; vm_compute; reflexivity.
Qed.

(** *** Answers under their questions *)

(** What the claim speaks of: the questions and the answers of a file, the
    answers to a parent, and the orphans. *)
Definition is_question (p : post) : Prop := p_type p = Some 1.

#[global] Instance is_question_dec p : Decision (is_question p).
Proof. unfold is_question. apply _. Defined.

Definition the_id (p : post) : string := default "" (p_id p).
Definition the_parent (p : post) : option string := default None (p_parent_id p).

Definition questions_of (lines : list post) : list post := filter is_question lines.
Definition answers_of (lines : list post) : list post :=
  filter (fun p => ~ is_question p) lines.

Definition answers_to (k : option string) (lines : list post) : list (string * post) :=
  map (fun a => (the_id a, a))
      (filter (fun a => the_parent a = k) (answers_of lines)).

Definition question_ids (lines : list post) : list (option string) :=
  map (fun q => Some (the_id q)) (questions_of lines).

Definition expected_lines (lines : list post) : list aligned :=
  map (fun q => mkAligned (answers_to (Some (the_id q)) lines) q) (questions_of lines).

Definition expected_orphans (lines : list post) : Z :=
  Z.of_nat (length (filter (fun a => the_parent a ∉ question_ids lines)
                           (answers_of lines))).

(** A shard as the second pass writes it: every line is a question or an
    answer with its keys, and no id occurs twice among the questions or
    among the answers. *)
Definition post_ok (p : post) : Prop :=
  (p_type p = Some 1 \/ p_type p = Some 2) /\ is_Some (p_id p) /\
  (p_type p = Some 2 -> is_Some (p_parent_id p)).

Definition shard_ok (lines : list post) : Prop :=
  Forall post_ok lines /\
  NoDup (map the_id (questions_of lines)) /\
  NoDup (map the_id (answers_of lines)).

Definition entry_of (q : post) : string * question_entry :=
  (the_id q, mkEntry (Some (the_id q)) q).

(** The state of the first loop after the lines [pre]. *)
Definition align_inv (pre : list post) (s : align_state) : Prop :=
  question_dict s = map entry_of (questions_of pre) /\
  NoDup (dict_keys (orphaned_children s)) /\
  (forall k v, dict_get k (orphaned_children s) = Some v -> v = answers_to k pre) /\
  (forall q, q ∈ questions_of pre ->
     dict_has (Some (the_id q)) (orphaned_children s) = true) /\
  (forall a, a ∈ answers_of pre ->
     dict_has (the_parent a) (orphaned_children s) = true).

Lemma questions_of_app l1 l2 : questions_of (l1 ++ l2) = questions_of l1 ++ questions_of l2.
Proof. apply filter_app. Qed.

Lemma answers_of_app l1 l2 : answers_of (l1 ++ l2) = answers_of l1 ++ answers_of l2.
Proof. apply filter_app. Qed.

Lemma answers_to_app k l1 l2 : answers_to k (l1 ++ l2) = answers_to k l1 ++ answers_to k l2.
Proof. unfold answers_to. by rewrite answers_of_app, filter_app, map_app. Qed.

Lemma shard_ok_prefix l1 l2 : shard_ok (l1 ++ l2) -> shard_ok l1.
Proof.
  intros (Hf & Hq & Ha). repeat split.
  - by apply Forall_app in Hf as [? _].
  - rewrite questions_of_app, map_app in Hq. by apply NoDup_app in Hq as [? _].
  - rewrite answers_of_app, map_app in Ha. by apply NoDup_app in Ha as [? _].
Qed.

Lemma touch_get k k' oc :
  dict_get k' (touch k oc) =
    if decide (k = k') then Some (default [] (dict_get k oc)) else dict_get k' oc.
Proof.
  unfold touch, dict_has. destruct (dict_get k oc) as [v|] eqn:Hg.
  - destruct (decide (k = k')) as [<-|]; [by rewrite Hg|done].
  - destruct (decide (k = k')) as [<-|]; [by rewrite dict_get_set_eq|].
    by rewrite dict_get_set_ne.
Qed.

Lemma touch_NoDup k oc : NoDup (dict_keys oc) -> NoDup (dict_keys (touch k oc)).
Proof. intros H. unfold touch. destruct (dict_has k oc); [done|by apply dict_keys_set_NoDup]. Qed.

Lemma dict_has_get {K V} `{EqDecision K} (k : K) (d : list (K * V)) :
  dict_has k d = true <-> is_Some (dict_get k d).
Proof. unfold dict_has. destruct (dict_get k d); split; try done; by intros [? [=]]. Qed.

Lemma align_step_inv pre line s :
  shard_ok (pre ++ [line]) -> align_inv pre s ->
  exists s', align_step s line = Ok s' /\ align_inv (pre ++ [line]) s'.
Proof.
  intros Hok (Hqd & Hnd & Hval & Hq & Ha).
  pose proof Hok as (Hf & Hndq & Hnda).
  apply Forall_app in Hf as [_ Hl]. apply (proj1 (Forall_singleton _ _)) in Hl.
  destruct Hl as (Hty & [id Hid] & Hpar).
  unfold align_step. destruct Hty as [Hty|Hty]; rewrite Hty; simpl.
  - (* a question *)
    rewrite Hid. simpl. eexists. split; [reflexivity|].
    assert (Hisq : is_question line) by done.
    assert (Hqs : questions_of (pre ++ [line]) = questions_of pre ++ [line]).
    { rewrite questions_of_app. unfold questions_of at 2. by rewrite filter_cons_True. }
    assert (Has : answers_of (pre ++ [line]) = answers_of pre).
    { rewrite answers_of_app. unfold answers_of at 2.
      rewrite filter_cons_False by (intros Hn; by apply Hn). by rewrite app_nil_r. }
    assert (Hto : forall k, answers_to k (pre ++ [line]) = answers_to k pre).
    { intros k. unfold answers_to. by rewrite Has. }
    assert (Hidl : the_id line = id) by (unfold the_id; by rewrite Hid).
    repeat split; simpl.
    + rewrite Hqs, map_app. simpl. rewrite Hqd.
      rewrite dict_set_fresh.
      * unfold entry_of at 3. by rewrite Hidl.
      * apply dict_get_None. rewrite Hqs, map_app in Hndq. simpl in Hndq.
        apply NoDup_app in Hndq as (_ & Hdis & _).
        intros Hin. unfold dict_keys in Hin. rewrite <- list_fmap_compose in Hin.
        apply (Hdis id).
        -- apply list_elem_of_fmap in Hin as (q & -> & Hin). apply list_elem_of_fmap.
           by exists q.
        -- rewrite Hidl. apply elem_of_cons. by left.
    + by apply touch_NoDup.
    + intros k v. rewrite touch_get. rewrite Hto. destruct (decide (Some id = k)) as [<-|].
      * intros [= <-]. destruct (dict_get (Some id) (orphaned_children s)) eqn:Hg; simpl.
        -- by apply Hval.
        -- symmetry. unfold answers_to.
           destruct (filter _ (answers_of pre)) as [|a l] eqn:Hfil; [done|].
           assert (a ∈ filter (fun a => the_parent a = Some id) (answers_of pre))
             as Hin by (rewrite Hfil; apply elem_of_cons; by left).
           apply list_elem_of_filter in Hin as [Hp Hin]. apply Ha in Hin.
           apply dict_has_get in Hin as [? Hin]. congruence.
      * apply Hval.
    + intros q. rewrite Hqs. intros Hin. apply dict_has_get. rewrite touch_get.
      destruct (decide (Some id = Some (the_id q))); [eauto|].
      apply elem_of_app in Hin as [Hin|Hin].
      * apply dict_has_get. by apply Hq.
      * apply list_elem_of_singleton in Hin. subst q. congruence.
    + intros a. rewrite Has. intros Hin. apply dict_has_get. rewrite touch_get.
      destruct (decide (Some id = the_parent a)); [eauto|]. apply dict_has_get. by apply Ha.
  - (* an answer *)
    destruct (Hpar Hty) as [parent Hp]. rewrite Hp, Hid. simpl.
    eexists. split; [reflexivity|].
    assert (Hisq : ~ is_question line) by (unfold is_question; congruence).
    assert (Hqs : questions_of (pre ++ [line]) = questions_of pre).
    { rewrite questions_of_app. unfold questions_of at 2.
      rewrite filter_cons_False by done. by rewrite app_nil_r. }
    assert (Has : answers_of (pre ++ [line]) = answers_of pre ++ [line]).
    { rewrite answers_of_app. unfold answers_of at 2. by rewrite filter_cons_True. }
    assert (Hidl : the_id line = id) by (unfold the_id; by rewrite Hid).
    assert (Hparl : the_parent line = parent) by (unfold the_parent; by rewrite Hp).
    assert (Hto : forall k, answers_to k (pre ++ [line]) =
                    answers_to k pre ++ (if decide (parent = k) then [(id, line)] else [])).
    { intros k. unfold answers_to. rewrite Has, filter_app, map_app. f_equal.
      destruct (decide (parent = k)) as [->|Hne].
      - rewrite filter_cons_True by done. simpl. by rewrite Hidl.
      - rewrite filter_cons_False by congruence. done. }
    repeat split; simpl.
    + by rewrite Hqs.
    + by apply dict_keys_set_NoDup, touch_NoDup.
    + intros k v. rewrite Hto. destruct (decide (parent = k)) as [<-|Hne].
      * rewrite dict_get_set_eq. intros [= <-]. rewrite touch_get, decide_True by done.
        simpl.
        assert (default [] (dict_get parent (orphaned_children s)) = answers_to parent pre)
          as ->.
        { destruct (dict_get parent (orphaned_children s)) eqn:Hg; simpl; [by apply Hval|].
          symmetry. unfold answers_to.
          destruct (filter _ (answers_of pre)) as [|a l] eqn:Hfil; [done|].
          assert (a ∈ filter (fun a => the_parent a = parent) (answers_of pre))
            as Hin by (rewrite Hfil; apply elem_of_cons; by left).
          apply list_elem_of_filter in Hin as [Hp' Hin]. apply Ha in Hin.
          apply dict_has_get in Hin as [? Hin]. congruence. }
        apply dict_set_fresh. apply dict_get_None.
        rewrite Has, map_app in Hnda. simpl in Hnda.
        apply NoDup_app in Hnda as (_ & Hdis & _).
        intros Hin. apply (Hdis id).
        -- unfold dict_keys, answers_to in Hin. rewrite <- list_fmap_compose in Hin.
           apply list_elem_of_fmap in Hin as (a & -> & Hin).
           apply list_elem_of_filter in Hin as [_ Hin].
           apply list_elem_of_fmap. by exists a.
        -- rewrite Hidl. apply elem_of_cons. by left.
      * rewrite dict_get_set_ne by done. rewrite touch_get, decide_False by done.
        rewrite app_nil_r. apply Hval.
    + intros q. rewrite Hqs. intros Hin. apply dict_has_get.
      destruct (decide (parent = Some (the_id q))) as [->|Hne].
      * rewrite dict_get_set_eq. eauto.
      * rewrite dict_get_set_ne by done. rewrite touch_get, decide_False by done.
        apply dict_has_get. by apply Hq.
    + intros a. rewrite Has. intros Hin. apply dict_has_get.
      destruct (decide (parent = the_parent a)) as [->|Hne].
      * rewrite dict_get_set_eq. eauto.
      * rewrite dict_get_set_ne by done. rewrite touch_get, decide_False by done.
        apply elem_of_app in Hin as [Hin|Hin]; [apply dict_has_get; by apply Ha|].
        apply list_elem_of_singleton in Hin. subst a. congruence.
Qed.

Lemma align_loop_inv rest : forall pre s,
  shard_ok (pre ++ rest) -> align_inv pre s ->
  exists s', rfold align_step rest s = Ok s' /\ align_inv (pre ++ rest) s'.
Proof.
  induction rest as [|line rest IH]; intros pre s Hok Hinv; simpl.
  - exists s. by rewrite app_nil_r.
  - assert (Hok1 : shard_ok (pre ++ [line])).
    { apply (shard_ok_prefix _ rest). by rewrite <- app_assoc. }
    destruct (align_step_inv pre line s Hok1 Hinv) as (s1 & -> & Hinv1). simpl.
    destruct (IH (pre ++ [line]) s1) as (s' & Hs' & Hinv'); [by rewrite <- app_assoc|done|].
    exists s'. split; [done|]. by rewrite <- app_assoc in Hinv'.
Qed.

Lemma align_inv_init : align_inv [] (mkAlign [] []).
Proof.
  repeat split; simpl; try done.
  - apply NoDup_nil_2.
  - intros q Hq. by apply elem_of_nil in Hq.
  - intros a Ha. by apply elem_of_nil in Ha.
Qed.

(** The orphans that the second loop counts at the keys [ks]. *)
Definition orphans_at (lines : list post) (ks : list (option string)) : nat :=
  sum_list_with
    (fun k => if decide (k ∈ question_ids lines) then 0%nat
              else length (answers_to k lines)) ks.

Lemma in_question_dict lines (k : option string) :
  (k ≫= fun id => dict_get id (map entry_of (questions_of lines))) = None <->
  k ∉ question_ids lines.
Proof.
  destruct k as [id|]; simpl.
  - rewrite dict_get_None. unfold dict_keys, question_ids.
    rewrite <- !list_fmap_compose. split; intros Hn Hin; apply Hn.
    + apply list_elem_of_fmap in Hin as (q & [= ->] & Hin). apply list_elem_of_fmap. by exists q.
    + apply list_elem_of_fmap in Hin as (q & -> & Hin). apply list_elem_of_fmap. by exists q.
  - split; [|done]. intros _ Hin. unfold question_ids in Hin.
    by apply list_elem_of_fmap in Hin as (q & [=] & _).
Qed.

Lemma question_entry_ref lines id e :
  dict_get id (map entry_of (questions_of lines)) = Some e -> answers_ref e = Some id.
Proof.
  intros Hg. apply dict_get_Some_in in Hg.
  by apply list_elem_of_fmap in Hg as (q & [= -> ->] & _).
Qed.

Lemma answers_to_keys_NoDup lines k :
  NoDup (map the_id (answers_of lines)) -> NoDup (dict_keys (answers_to k lines)).
Proof.
  intros Hnd. unfold dict_keys, answers_to. rewrite <- list_fmap_compose.
  apply (sublist_NoDup _ _ Hnd).
  apply (fmap_sublist the_id). apply sublist_filter.
Qed.

Lemma orphan_loop lines s ks n :
  shard_ok lines -> align_inv lines s ->
  (forall k, k ∈ ks -> is_Some (dict_get k (orphaned_children s))) ->
  rfold (orphan_step (question_dict s)) ks (orphaned_children s, n)
    = Ok (orphaned_children s, n + Z.of_nat (orphans_at lines ks)).
Proof.
  intros (_ & _ & Hnda) (Hqd & _ & Hval & _ & _). revert n.
  induction ks as [|k ks IH]; intros n Hks; simpl.
  - f_equal. f_equal. unfold orphans_at. simpl. lia.
  - destruct (Hks k) as [v Hv]; [apply elem_of_cons; by left|].
    rewrite Hv. simpl.
    destruct (k ≫= _) as [e|] eqn:He; rewrite Hqd in He.
    + assert (Hin : k ∈ question_ids lines).
      { destruct (decide (k ∈ question_ids lines)) as [|Hn]; [done|].
        apply in_question_dict in Hn. congruence. }
      destruct k as [id|]; [|done]. simpl in He.
      rewrite (question_entry_ref _ _ _ He). rewrite Hv. simpl.
      rewrite dict_update_self.
      2:{ rewrite (Hval _ _ Hv). by apply answers_to_keys_NoDup. }
      rewrite dict_set_same by done.
      etrans; [apply IH; intros k' Hk'; apply Hks, elem_of_cons; by right|].
      f_equal. f_equal. unfold orphans_at. simpl. rewrite decide_True by done. lia.
    + apply in_question_dict in He.
      etrans; [apply IH; intros k' Hk'; apply Hks, elem_of_cons; by right|].
      f_equal. f_equal. unfold orphans_at. simpl. rewrite decide_False by done.
      rewrite (Hval _ _ Hv). lia.
Qed.

Lemma orphans_at_count lines ks :
  NoDup ks ->
  orphans_at lines ks =
    length (filter (fun a => the_parent a ∈ ks /\ the_parent a ∉ question_ids lines)
                   (answers_of lines)).
Proof.
  induction ks as [|k ks IH]; intros Hnd.
  - unfold orphans_at. simpl. rewrite filter_none; [done|].
    intros a _ [Hin _]. by apply elem_of_nil in Hin.
  - apply NoDup_cons in Hnd as [Hk Hnd]. unfold orphans_at in *. simpl.
    rewrite IH by done.
    etrans; [|symmetry; apply (filter_length_split
               (fun a => the_parent a = k /\ the_parent a ∉ question_ids lines)
               (fun a => the_parent a ∈ ks /\ the_parent a ∉ question_ids lines))].
    + f_equal. destruct (decide (k ∈ question_ids lines)) as [Hin|Hin].
      * rewrite filter_none; [done|]. intros a _ [-> Hn]. done.
      * unfold answers_to. rewrite length_map. f_equal.
        apply filter_same. intros a _. split; [|tauto]. intros <-. done.
    + intros a. rewrite elem_of_cons. tauto.
    + intros a [-> _] [Hin _]. done.
Qed.

Lemma rmap_dump lines s :
  align_inv lines s ->
  rmap (dump_entry (orphaned_children s)) (map snd (question_dict s))
    = Ok (expected_lines lines).
Proof.
  intros (Hqd & _ & Hval & Hq & _). rewrite Hqd. unfold expected_lines.
  assert (Hall : forall q, q ∈ questions_of lines -> q ∈ questions_of lines) by done.
  revert Hall. generalize (questions_of lines) at 1 3 4 as qs.
  induction qs as [|q qs IH]; intros Hall; simpl; [done|].
  unfold dump_entry at 1. simpl.
  destruct (dict_get (Some (the_id q)) (orphaned_children s)) as [v|] eqn:Hv.
  2:{ exfalso. assert (Hin : q ∈ questions_of lines) by (apply Hall, elem_of_cons; by left).
      apply Hq, dict_has_get in Hin as [? Hin]. congruence. }
  simpl. rewrite IH.
  - simpl. by rewrite (Hval _ _ Hv).
  - intros q' Hq'. apply Hall, elem_of_cons. by right.
Qed.

(** C4.  On a shard whose lines are questions (type 1) and answers (type 2)
    with their keys, and where no id occurs twice among the questions or
    among the answers, [align_tag_file] writes one line per question, in the
    order of the file; the ['answers'] of a question map the id of every
    answer whose [parent_id] is the id of the question to that answer,
    wherever the answer stands in the file; the answers without a question
    are left out, and their number is returned. *)
Theorem align_tag_file_aligns lines :
  shard_ok lines ->
  align_tag_file lines = Ok (expected_lines lines, expected_orphans lines).
Proof.
  intros Hok. unfold align_tag_file.
  destruct (align_loop_inv lines [] (mkAlign [] []) Hok align_inv_init) as (s & -> & Hinv).
  simpl in Hinv. simpl.
  rewrite (orphan_loop lines s _ 0 Hok Hinv).
  2:{ intros k Hk. destruct (dict_get k (orphaned_children s)) eqn:E; [eauto|].
      by apply dict_get_None in E. }
  simpl. rewrite (rmap_dump lines s Hinv). simpl.
  f_equal. f_equal. unfold expected_orphans. f_equal.
  destruct Hinv as (_ & Hnd & _ & _ & Ha).
  rewrite orphans_at_count by done. rewrite Z.add_0_l. do 2 f_equal.
  apply filter_same. intros a Hin. split; [tauto|]. intros Hn. split; [|done].
  apply Ha, dict_has_get in Hin as [v Hv].
  destruct (decide (the_parent a ∈ dict_keys (orphaned_children s))) as [|Hnin]; [done|].
  apply dict_get_None in Hnin. congruence.
Qed.

(** A shard with an answer before its question, one after it, and an
    orphan. *)
Definition answer (id parent : string) : post :=
  mkPost 0 (Some "body") "PASS" (Some 2) (Some id) (Some "2020-01-01") (Some 0)
         (Some 0) (Some ["t"]) None None None None (Some (Some parent)).

Definition shard_example : list post :=
  [answer "a1" "q1"; question "q1" ["t"]; answer "a2" "q1"; answer "a3" "gone"].

Lemma align_tag_file_aligns_witness :
  align_tag_file shard_example =
    Ok ([mkAligned [("a1", answer "a1" "q1"); ("a2", answer "a2" "q1")]
                   (question "q1" ["t"])], 1).
Proof.
  apply (align_tag_file_aligns shard_example).
  repeat split.
  - repeat (apply Forall_cons; split;
              [split; [(by left) || (by right)|split; [by eexists|intros; (done || by eexists)]]|]).
    apply Forall_nil_2.
  - apply (@bool_decide_unpack _ (NoDup_dec _)). vm_compute. exact I.
  - apply (@bool_decide_unpack _ (NoDup_dec _)). vm_compute. exact I.
Defined.

(** *** What [parse_line] returns and when it raises *)

Section first_pass_facts.
Variable etree_XML : string -> option (list (string * string)).
Variable py_int : string -> option Z.
Variable unidecode : string -> string.
Variable POST_TYPE_TO_STR : list (Z * string).

Let parse := parse_line etree_XML py_int unidecode.

Definition has (k : string) (d : list (string * string)) : Prop :=
  is_Some (dict_get k d).

(** [int(d.get(k, 0))] does not raise. *)
Definition int_ok (k : string) (d : list (string * string)) : Prop :=
  forall s, dict_get k d = Some s -> is_Some (py_int s).

Definition has_title (d : list (string * string)) : Prop :=
  exists a t, dict_get "Title" d = Some (String a t).

(** The attributes [parse_line] reads without a guard, on the path the
    post takes through it. *)
Definition attributes_ok (d : list (string * string)) : Prop :=
  match dict_get "PostTypeId" d with
  | None => False
  | Some s =>
      match py_int s with
      | None => True
      | Some t =>
          if valid_type t then
            match dict_get "Body" d with
            | None => False
            | Some body =>
                if str_empty body then True else
                has "Id" d /\ has "CreationDate" d /\ has "Score" d /\
                int_ok "Score" d /\ int_ok "CommentCount" d /\
                (t = 1 -> has "Tags" d /\
                          (has_title d -> int_ok "AnswerCount" d /\ int_ok "ViewCount" d))
            end
          else True
      end
  end.

Definition results : list string :=
  ["PASS"; "PARSE_FAIL"; "NOT_VALID_TYPE"; "NO_BODY"; "NO_TITLE"].

Lemma int_get_ok k d : int_ok k d -> exists n, int_get py_int k d = Ok n.
Proof.
  unfold int_ok, int_get, int_of. intros H. destruct (dict_get k d) as [s|]; [|eauto].
  destruct (H s eq_refl) as [n ->]. eauto.
Qed.

Lemma int_get_Ok k d n : int_get py_int k d = Ok n -> int_ok k d.
Proof.
  unfold int_ok, int_get, int_of. intros H s Hs. rewrite Hs in H.
  destruct (py_int s); [eauto|discriminate].
Qed.

Lemma parse_line_returns n line d :
  etree_XML line = Some d -> attributes_ok d ->
  exists r, parse n line = Ok r /\ p_result r ∈ results.
Proof.
  intros He Hok. unfold parse, parse_line. rewrite He. unfold attributes_ok in Hok.
  destruct (dict_get "PostTypeId" d) as [s|]; [|done]. simpl.
  destruct (py_int s) as [t|].
  2:{ eexists; split; [reflexivity|]; simpl; unfold results; set_solver. }
  destruct (valid_type t); simpl.
  2:{ eexists; split; [reflexivity|]; simpl; unfold results; set_solver. }
  destruct (dict_get "Body" d) as [body|]; [|done]. simpl.
  destruct (str_empty body).
  { eexists; split; [reflexivity|]; simpl; unfold results; set_solver. }
  destruct Hok as ([id ->] & [date ->] & [score Hs] & Hsc & Hcc & Hq). simpl.
  rewrite Hs. simpl. destruct (Hsc _ Hs) as [sc Hsc']. unfold int_of at 1. rewrite Hsc'.
  simpl. destruct (int_get_ok _ _ Hcc) as [cc ->]. simpl.
  destruct (t =? 1) eqn:Ht.
  2:{ eexists; split; [reflexivity|]; simpl; unfold results; set_solver. }
  apply Z.eqb_eq in Ht. destruct (Hq Ht) as ([tags ->] & Htitle). simpl.
  destruct (dict_get "Title" d) as [[|a ti]|] eqn:Hti.
  1,3: eexists; split; [reflexivity|]; simpl; unfold results; set_solver.
  destruct Htitle as [Hac Hvc]; [by exists a, ti|].
  destruct (int_get_ok _ _ Hac) as [ac ->]. destruct (int_get_ok _ _ Hvc) as [vc ->].
  simpl. eexists; split; [reflexivity|]; simpl; unfold results; set_solver.
Qed.

Lemma parse_line_returned n line d r :
  etree_XML line = Some d -> parse n line = Ok r -> attributes_ok d.
Proof.
  intros He. unfold parse, parse_line, attributes_ok. rewrite He.
  destruct (dict_get "PostTypeId" d) as [s|]; [|done]. simpl.
  destruct (py_int s) as [t|]; [|done].
  destruct (valid_type t); simpl; [|done].
  destruct (dict_get "Body" d) as [body|]; [|done]. simpl.
  destruct (str_empty body); [done|].
  destruct (dict_get "Id" d) as [id|] eqn:Hid; [|done]. simpl.
  destruct (dict_get "CreationDate" d) as [date|] eqn:Hdate; [|done]. simpl.
  destruct (dict_get "Score" d) as [score|] eqn:Hscore; [|done]. simpl.
  destruct (int_of py_int score) as [sc|] eqn:Hsc; [|done]. simpl.
  destruct (int_get py_int "CommentCount" d) as [cc|] eqn:Hcc; [|done]. simpl.
  intros Hr. unfold has. rewrite Hid, Hdate, Hscore.
  do 3 (split; [eauto|]). split.
  { intros s' Hs'. assert (s' = score) as -> by congruence.
    unfold int_of in Hsc. destruct (py_int score); [eauto|done]. }
  split; [exact (int_get_Ok _ _ _ Hcc)|].
  intros ->. simpl in Hr.
  destruct (dict_get "Tags" d) as [tags|]; [|done]. simpl in Hr. split; [eauto|].
  intros (a & ti & Hti). rewrite Hti in Hr.
  destruct (int_get py_int "AnswerCount" d) as [ac|] eqn:Hac; [|done]. simpl in Hr.
  destruct (int_get py_int "ViewCount" d) as [vc|] eqn:Hvc; [|done].
  split; [exact (int_get_Ok _ _ _ Hac)|exact (int_get_Ok _ _ _ Hvc)].
Qed.

Lemma parse_line_no_xml n line :
  etree_XML line = None -> parse n line = Ok (failed n "PARSE_FAIL").
Proof. intros He. unfold parse, parse_line. by rewrite He. Qed.

Lemma parse_line_type_not_int n line d s :
  etree_XML line = Some d -> dict_get "PostTypeId" d = Some s -> py_int s = None ->
  parse n line = Ok (failed n "PARSE_FAIL").
Proof. intros He Hs Hi. unfold parse, parse_line. rewrite He, Hs. simpl. by rewrite Hi. Qed.

Lemma parse_line_not_valid_type n line d s t :
  etree_XML line = Some d -> dict_get "PostTypeId" d = Some s -> py_int s = Some t ->
  valid_type t = false ->
  parse n line = Ok (failed n "NOT_VALID_TYPE").
Proof.
  intros He Hs Hi Hv. unfold parse, parse_line. rewrite He, Hs. simpl.
  by rewrite Hi, Hv.
Qed.

Lemma parse_line_no_body n line d s t :
  etree_XML line = Some d -> dict_get "PostTypeId" d = Some s -> py_int s = Some t ->
  valid_type t = true -> dict_get "Body" d = Some "" ->
  parse n line = Ok (failed n "NO_BODY").
Proof.
  intros He Hs Hi Hv Hb. unfold parse, parse_line. rewrite He, Hs. simpl.
  rewrite Hi, Hv. simpl. by rewrite Hb.
Qed.

Lemma parse_line_no_title n line d s body :
  etree_XML line = Some d -> attributes_ok d ->
  dict_get "PostTypeId" d = Some s -> py_int s = Some 1 ->
  dict_get "Body" d = Some body -> body <> "" -> ~ has_title d ->
  exists r, parse n line = Ok r /\ p_result r = "NO_TITLE".
Proof.
  intros He Hok Hs Hi Hb Hne Hnt. unfold parse, parse_line. rewrite He, Hs. simpl.
  unfold attributes_ok in Hok. rewrite Hs, Hi in Hok. rewrite Hi.
  change (valid_type 1) with true in *. simpl. rewrite Hb in *. simpl.
  destruct body as [|a b]; [done|]. simpl in *.
  destruct Hok as ([id ->] & [date ->] & [score Hsc] & Hscore & Hcc & Hq). simpl.
  rewrite Hsc. simpl. destruct (Hscore _ Hsc) as [sc Hsc']. unfold int_of at 1.
  rewrite Hsc'. simpl. destruct (int_get_ok _ _ Hcc) as [cc ->]. simpl.
  destruct (Hq eq_refl) as ([tags ->] & _). simpl.
  destruct (dict_get "Title" d) as [[|a' ti]|] eqn:Hti; try (eexists; split; reflexivity).
  exfalso. apply Hnt. by exists a', ti.
Qed.

(** What a record with result ['PASS'] holds. *)
Definition pass_shape (r : post) : Prop :=
  exists t, p_type r = Some t /\ valid_type t = true /\
    (t = 1 -> is_Some (p_id r) /\ is_Some (p_tags r) /\ is_Some (p_score r) /\
              is_Some (p_views r) /\ is_Some (p_answer_count r) /\
              is_Some (p_accepted_answer r)).

Lemma parse_line_pass_shape n line r :
  parse n line = Ok r -> p_result r = "PASS" -> pass_shape r.
Proof.
  unfold parse, parse_line. destruct (etree_XML line) as [d|]; [|by intros [= <-]].
  destruct (dict_get "PostTypeId" d) as [s|]; [|done]. simpl.
  destruct (py_int s) as [t|]; [|by intros [= <-]].
  destruct (valid_type t) eqn:Hv; simpl; [|by intros [= <-]].
  destruct (dict_get "Body" d) as [body|]; [|done]. simpl.
  destruct (str_empty body); [by intros [= <-]|].
  destruct (dict_get "Id" d) as [id|]; [|done]. simpl.
  destruct (dict_get "CreationDate" d) as [date|]; [|done]. simpl.
  destruct (dict_get "Score" d) as [score|]; [|done]. simpl.
  destruct (int_of py_int score) as [sc|]; [|done]. simpl.
  destruct (int_get py_int "CommentCount" d) as [cc|]; [|done]. simpl.
  destruct (t =? 1) eqn:Ht.
  - destruct (dict_get "Tags" d) as [tags|]; [|done]. simpl.
    destruct (dict_get "Title" d) as [[|a ti]|]; try by intros [= <-].
    destruct (int_get py_int "AnswerCount" d) as [ac|]; [|done]. simpl.
    destruct (int_get py_int "ViewCount" d) as [vc|]; [|done]. simpl.
    intros [= <-] _. exists t. simpl. repeat split; eauto.
  - intros [= <-] _. exists t. simpl. split; [done|]. split; [done|].
    intros ->. done.
Qed.

Let step := initial_step POST_TYPE_TO_STR.

Lemma initial_step_skips s parsed :
  p_result parsed <> "PASS" ->
  step s parsed =
    Ok (mkPass1 (overview_data s) (incr (p_result parsed) (failures_counts s))
                (post_type_counter s) (first_tag_counts s) (post_files s)).
Proof.
  intros Hne. unfold step, initial_step.
  destruct (String.eqb (p_result parsed) "PASS") eqn:He; [|done].
  by apply String.eqb_eq in He.
Qed.

(** [post_type_to_file] has a file for every type of the table. *)
Definition files_inv (s : pass1) : Prop :=
  forall t, is_Some (dict_get t POST_TYPE_TO_STR) -> is_Some (dict_get t (post_files s)).

Lemma initial_step_returns s r :
  (forall t, valid_type t = true -> is_Some (dict_get t POST_TYPE_TO_STR)) ->
  files_inv s -> (p_result r = "PASS" -> pass_shape r) ->
  exists s', step s r = Ok s' /\ files_inv s'.
Proof.
  intros Htab Hinv Hshape. unfold step, initial_step.
  destruct (String.eqb (p_result r) "PASS") eqn:He; simpl; [|by eexists].
  apply String.eqb_eq in He. destruct (Hshape He) as (t & -> & Hv & Hq). simpl.
  destruct (Htab t Hv) as [name Hn]. rewrite Hn. simpl.
  destruct (Hinv t) as [file Hf]; [eauto|]. rewrite Hf. simpl.
  assert (Hinv' : forall f, forall t', is_Some (dict_get t' POST_TYPE_TO_STR) ->
            is_Some (dict_get t' (dict_set t f (post_files s)))).
  { intros f t' Ht'. destruct (decide (t = t')) as [<-|Hne].
    - rewrite dict_get_set_eq. eauto.
    - rewrite dict_get_set_ne by done. by apply Hinv. }
  destruct (t =? 1) eqn:Ht.
  - apply Z.eqb_eq in Ht.
    destruct (Hq Ht) as ([? ->] & [? ->] & [? ->] & [? ->] & [? ->] & [? ->]). simpl.
    eexists. split; [reflexivity|]. intros t' Ht'. simpl. by apply Hinv'.
  - eexists. split; [reflexivity|]. intros t' Ht'. simpl. by apply Hinv'.
Qed.

Lemma pass1_init_files : files_inv (pass1_init POST_TYPE_TO_STR).
Proof.
  intros t [name Hn]. unfold pass1_init. simpl.
  induction POST_TYPE_TO_STR as [|[k v] l IH]; simpl in *; [done|].
  destruct (decide (t = k)); [eauto|]. by apply IH.
Qed.

Lemma initial_parse_dump_returns lines debug :
  (forall t, valid_type t = true -> is_Some (dict_get t POST_TYPE_TO_STR)) ->
  (forall n l, (n, l) ∈ read_lines lines debug -> exists r, parse n l = Ok r) ->
  exists s, initial_parse_dump etree_XML py_int unidecode POST_TYPE_TO_STR lines debug
              = Ok s.
Proof.
  intros Htab Hall. unfold initial_parse_dump.
  generalize (pass1_init_files). generalize (pass1_init POST_TYPE_TO_STR) as s.
  revert Hall. generalize (read_lines lines debug) as nls.
  induction nls as [|[n l] nls IH]; intros Hall s Hinv; simpl; [by eexists|].
  destruct (Hall n l) as [r Hr]; [apply elem_of_cons; by left|].
  fold parse. rewrite Hr. simpl.
  destruct (initial_step_returns s r Htab Hinv) as (s' & Hs' & Hinv').
  { intros Hp. by eapply parse_line_pass_shape. }
  fold step. rewrite Hs'. simpl. apply IH; [|done].
  intros n' l' Hin. apply Hall, elem_of_cons. by right.
Qed.
End first_pass_facts.


(** A fragment of [int] on strings: decimal digits after an optional sign. *)
Definition digit (a : ascii) : option Z :=
  let n := Z.of_nat (nat_of_ascii a) in
  if (48 <=? n) && (n <=? 57) then Some (n - 48) else None.

Fixpoint digits (acc : Z) (s : string) : option Z :=
  match s with
  | EmptyString => Some acc
  | String a s' =>
      match digit a with
      | Some k => digits (10 * acc + k) s'
      | None => None
      end
  end.

Definition decimal (s : string) : option Z :=
  match s with
  | EmptyString => None
  | String "-"%char (String a s') => option_map Z.opp (digits 0 (String a s'))
  | _ => digits 0 s
  end.

(** What lxml returns for four lines: a row without [PostTypeId], a row
    without [Body], a row whose [PostTypeId] is no number, and a line that
    is no XML. *)
Definition row_without_type : string := "<row Id='1' />".
Definition row_without_body : string := "<row Id='2' PostTypeId='1' />".
Definition row_type_x : string := "<row Id='3' PostTypeId='x' />".

Definition example_xml (line : string) : option (list (string * string)) :=
  if String.eqb line row_without_type then Some [("Id", "1")]
  else if String.eqb line row_without_body then Some [("Id", "2"); ("PostTypeId", "1")]
  else if String.eqb line row_type_x then Some [("Id", "3"); ("PostTypeId", "x")]
  else None.

Definition post_types : list (Z * string) :=
  [(1, "questions"); (2, "answers"); (4, "tag_wiki_excerpt"); (5, "tag_wiki")].



(** *** Where a post is written *)

(** The table names, for every tag it holds, the shard of that tag. *)
Definition table_ok (tfd : gmap string string) : Prop :=
  forall t h, tfd !! t = Some h -> h = shard_name t.

Lemma table_ok_empty : table_ok ∅.
Proof. intros t h Hl. by rewrite lookup_empty in Hl. Qed.

Lemma table_ok_insert t tfd : table_ok tfd -> table_ok (<[t := shard_name t]> tfd).
Proof.
  intros Hok u h. destruct (decide (t = u)) as [->|Hne].
  - rewrite lookup_insert_eq. congruence.
  - rewrite lookup_insert_ne by done. apply Hok.
Qed.

(** One call of [save_post_using_tag] whose tag is [t]: the post is the
    last line of the shard of [t], which is created empty when the table
    lacks [t]; the other files are as before. *)
Lemma save_post_using_tag_writes parsed tfd tc cap d t :
  table_ok tfd -> tag_to_use_of parsed tc = Ok t ->
  exists tfd' d',
    save_post_using_tag parsed tfd tc cap d = (Ok (tfd', t), d') /\
    files d' =
      <[shard_name t :=
          (if tfd !! t is Some _ then default [] (files d !! shard_name t) else [])
            ++ [parsed]]> (files d) /\
    tfd' = (if Z.of_nat (size (<[t := shard_name t]> tfd)) >=? cap then ∅
            else <[t := shard_name t]> tfd).
Proof.
  intros Hok Ht. unfold save_post_using_tag, io_bind, io_lift. rewrite Ht.
  unfold open_and_write, io_bind, io_do, io_ret, io_lift.
  destruct (tfd !! t) as [h|] eqn:Hl.
  - rewrite Hl. simpl. pose proof (Hok _ _ Hl) as ->.
    assert (Hins : <[t := shard_name t]> tfd = tfd) by (by apply insert_id).
    rewrite Hins. unfold close_if_full, io_bind, io_do, io_ret.
    destruct (Z.of_nat (size tfd) >=? cap); simpl; eauto.
  - rewrite lookup_insert_eq. simpl. unfold close_if_full, io_bind, io_do, io_ret.
    assert (Hf : <[shard_name t := default [] (<[shard_name t := []]> (files d) !! shard_name t)
                      ++ [parsed]]> (<[shard_name t := []]> (files d))
                 = <[shard_name t := [] ++ [parsed]]> (files d)).
    { rewrite lookup_insert_eq. simpl. apply insert_insert_eq. }
    destruct (Z.of_nat (size (<[t := shard_name t]> tfd)) >=? cap); simpl;
      eexists _, _; (split; [reflexivity|]); simpl; rewrite Hf; done.
Qed.

Lemma max_from_first c l : forall best,
  exists t, max_from (tag_counts_get (TCCounter c)) best (CInt (counter_get c best)) l = Ok t /\
    ((t = best /\ forall u, u ∈ l -> counter_get c u <= counter_get c best) \/
     (exists pre post, l = pre ++ t :: post /\ counter_get c best < counter_get c t /\
        (forall u, u ∈ pre -> counter_get c u < counter_get c t) /\
        (forall u, u ∈ post -> counter_get c u <= counter_get c t))).
Proof.
  induction l as [|x l IH]; intros best; simpl.
  - exists best. split; [done|]. left. split; [done|]. by intros u ?%elem_of_nil.
  - fold (counter_get c x). destruct (counter_get c best <? counter_get c x) eqn:Hlt.
    + apply Z.ltb_lt in Hlt. destruct (IH x) as (t & Ht & Hcase). exists t. split; [done|].
      right. destruct Hcase as [[-> Hle]|(pre & post & -> & Hgt & Hpre & Hpost)].
      * exists [], l. repeat split; [done| |done]. by intros u ?%elem_of_nil.
      * exists (x :: pre), post. repeat split; [lia| |done].
        intros u [->|Hu]%elem_of_cons; [done|by apply Hpre].
    + apply Z.ltb_ge in Hlt. destruct (IH best) as (t & Ht & Hcase). exists t. split; [done|].
      destruct Hcase as [[-> Hle]|(pre & post & -> & Hgt & Hpre & Hpost)].
      * left. split; [done|]. intros u [->|Hu]%elem_of_cons; [done|by apply Hle].
      * right. exists (x :: pre), post. repeat split; [done| |done].
        intros u [->|Hu]%elem_of_cons; [lia|by apply Hpre].
Qed.


Definition three_counts : gmap string Z := <["a" := 2]> (<["b" := 5]> (<["c" := 5]> ∅)).


Lemma max_from_missing (dct : gmap string string) l : forall best kbest t,
  t ∈ l -> dct !! t = None ->
  max_from (tag_counts_get (TCDict dct)) best (CStr kbest) l = Raise KeyError.
Proof.
  induction l as [|x l IH]; intros best kbest t Hin Hnone; [by apply elem_of_nil in Hin|].
  simpl. destruct (dct !! x) as [cx|] eqn:Hx; simpl; [|done].
  apply elem_of_cons in Hin as [->|Hin]; [congruence|].
  destruct (str_gt cx kbest); by eapply IH.
Qed.

(** X2.  With the counts of Tags.xml as [tag_counts], a post one of whose
    tags has no row in Tags.xml is not binned: [save_post_using_tag] raises
    [KeyError], and no file is opened or written. *)
Theorem tag_missing_from_tags_xml_raises parsed tags (dct : gmap string string) tfd cap d t :
  p_tags parsed = Some tags -> t ∈ tags -> dct !! t = None ->
  save_post_using_tag parsed tfd (TCDict dct) cap d = (Raise KeyError, d).
Proof.
  intros Hp Hin Hnone. unfold save_post_using_tag, io_bind, io_lift.
  assert (tag_to_use_of parsed (TCDict dct) = Raise KeyError) as ->; [|done].
  unfold tag_to_use_of. rewrite Hp. simpl. destruct tags as [|x l]; [by apply elem_of_nil in Hin|].
  simpl. destruct (dct !! x) as [cx|] eqn:Hx; simpl; [|done].
  apply elem_of_cons in Hin as [->|Hin]; [congruence|]. by eapply max_from_missing.
Qed.

Lemma tag_missing_from_tags_xml_raises_witness :
  save_post_using_tag (question "1" ["a"; "rocq"]) ∅ (TCDict (<["a" := "9"]> ∅)) 1000
    empty_dir = (Raise KeyError, empty_dir).
Proof.
  apply (tag_missing_from_tags_xml_raises (question "1" ["a"; "rocq"]) ["a"; "rocq"]
           (<["a" := "9"]> ∅) ∅ 1000 empty_dir "rocq").
  - reflexivity.
  - apply elem_of_cons. right. apply elem_of_cons. by left.
  - vm_compute. reflexivity.
Defined.

(** X3.  When [second_parse_dump] returns, no descriptor of a shard is
    left open. *)
Theorem second_parse_dump_closes_descriptors questions answers qod tc debug s d :
  run_second_parse_dump questions answers qod tc debug = (Ok s, d) ->
  open_fds d = ∅.
Proof.
  unfold run_second_parse_dump, second_parse_dump.
  set (cap := max_files_open_of debug).
  assert (Hcap : 1 <= cap) by apply max_files_open_pos.
  assert (H0 : pass_inv cap (mkPass2 ∅ ∅ 0 qod) empty_dir).
  { repeat split; simpl; [done | rewrite map_size_empty; lia | lia]. }
  assert (HIP : forall s d, pass_inv cap s d -> Z.of_nat (peak d) <= cap).
  { by intros ? ? (_ & _ & ?). }
  unfold io_bind at 1.
  destruct (io_fold (question_step tc cap) questions _ empty_dir) as [r1 d1] eqn:H1.
  destruct (io_fold_inv (question_step tc cap) (pass_inv cap) _ HIP
              (fun s x d r d' => question_step_inv tc cap s x d r d' Hcap)
              _ _ _ _ _ H0 H1) as [Hp1 Hi1].
  destruct r1 as [s1|e]; [|done].
  specialize (Hi1 _ eq_refl).
  unfold io_bind at 1.
  destruct (io_fold (answer_step tc cap) answers s1 d1) as [r2 d2] eqn:H2.
  destruct (io_fold_inv (answer_step tc cap) (pass_inv cap) _ HIP
              (fun s x d r d' => answer_step_inv tc cap s x d r d' Hcap)
              _ _ _ _ _ Hi1 H2) as [Hp2 Hi2].
  destruct r2 as [s2|e]; [|done].
  specialize (Hi2 _ eq_refl). destruct Hi2 as (Hsub & _ & _).
  simpl. intros [= <- <-]. simpl. set_solver.
Qed.

(** The state a run ends in, when it returns. *)
Definition returned (r : res pass2 * shard_dir) : pass2 :=
  match fst r with
  | Ok s => s
  | Raise _ => mkPass2 ∅ ∅ 0 ∅
  end.

Lemma second_parse_dump_closes_descriptors_witness :
  open_fds (snd (run_second_parse_dump cap_questions [] cap_overview (TCCounter ∅) true)) = ∅.
Proof.
  apply (second_parse_dump_closes_descriptors cap_questions [] cap_overview (TCCounter ∅)
           true
           (returned (run_second_parse_dump cap_questions [] cap_overview (TCCounter ∅) true))).
  vm_compute. reflexivity.
Defined.

(** *** The records of the second pass, below the cap *)

Lemma length_append (a b : string) :
  String.length (a ++ b) = (String.length a + String.length b)%nat.
Proof. induction a as [|c a IH]; simpl; [done|by rewrite IH]. Qed.

Lemma shard_name_inj t t' : shard_name t = shard_name t' -> t = t'.
Proof.
  unfold shard_name. revert t'. induction t as [|c t IH]; intros [|c' t'] H; simpl in H.
  - done.
  - apply (f_equal String.length) in H. simpl in H. rewrite length_append in H. simpl in H. lia.
  - apply (f_equal String.length) in H. simpl in H. rewrite length_append in H. simpl in H. lia.
  - injection H as -> H. f_equal. by apply IH.
Qed.

(** The questions the first loop bins, and an answer as the second loop
    bins it: with the tags of its parent. *)
Definition question_kept (p : post) : bool :=
  String.eqb (p_result p) "PASS" &&
  match p_type p with
  | Some t => (t =? 1) || (t =? 2)
  | None => false
  end.

Definition answer_kept (qod : gmap string overview) (p : post) : option post :=
  match default None (p_parent_id p) ≫= (fun k => qod !! k) with
  | Some o => Some (set_tags (o_tags o) p)
  | None => None
  end.

Definition binned (qod : gmap string overview) (questions answers : list post)
    : list post :=
  filter (fun p => question_kept p) questions ++ omap (answer_kept qod) answers.

Definition tag_of (tc : tag_counts_t) (p : post) : option string :=
  match tag_to_use_of p tc with
  | Ok t => Some t
  | Raise _ => None
  end.

Definition tags_of (tc : tag_counts_t) (l : list post) : gset string :=
  list_to_set (omap (tag_of tc) l).

Section below_cap.
Variable tc : tag_counts_t.
Variable cap : Z.
Variable qod0 : gmap string overview.

(** After the records [pre]: the table holds the tags met so far, and the
    shard of every tag holds the records binned to it, in order. *)
Definition bin_inv (pre : list post) (s : pass2) (d : shard_dir) : Prop :=
  table_ok (tag_file_descriptors s) /\
  dom (tag_file_descriptors s) = tags_of tc pre /\
  (forall t, files d !! shard_name t =
     if decide (t ∈ tags_of tc pre)
     then Some (filter (fun p => tag_of tc p = Some t) pre) else None) /\
  (forall n, is_Some (files d !! n) -> exists t, n = shard_name t) /\
  (forall k, o_tags <$> question_overview_data s !! k = o_tags <$> qod0 !! k).

Lemma tags_of_snoc pre p t :
  tag_of tc p = Some t -> tags_of tc (pre ++ [p]) = tags_of tc pre ∪ {[t]}.
Proof.
  intros Ht. unfold tags_of. rewrite omap_app. simpl. rewrite Ht. simpl.
  by rewrite list_to_set_snoc_L.
Qed.

Lemma tags_of_mono l1 l2 l3 : tags_of tc l1 ⊆ tags_of tc (l1 ++ l2 ++ l3).
Proof. unfold tags_of. rewrite !omap_app, !list_to_set_app_L. set_solver. Qed.

Lemma tags_of_mono2 l1 l2 l3 : tags_of tc (l1 ++ l2) ⊆ tags_of tc (l1 ++ l2 ++ l3).
Proof. unfold tags_of. rewrite !omap_app, !list_to_set_app_L. set_solver. Qed.

Lemma filter_tag_none pre t :
  t ∉ tags_of tc pre -> filter (fun p => tag_of tc p = Some t) pre = [].
Proof.
  intros Hn. apply filter_none. intros p Hp Ht. apply Hn. unfold tags_of.
  apply elem_of_list_to_set, list_elem_of_omap. eauto.
Qed.

(** One record more, binned to [t], while the table is below the cap. *)
Lemma bin_step pre s d p t tfd' d' :
  bin_inv pre s d ->
  Z.of_nat (size (tags_of tc (pre ++ [p]))) < cap ->
  save_post_using_tag p (tag_file_descriptors s) tc cap d = (Ok (tfd', t), d') ->
  forall s', tag_file_descriptors s' = tfd' ->
    (forall k, o_tags <$> question_overview_data s' !! k = o_tags <$> qod0 !! k) ->
    bin_inv (pre ++ [p]) s' d'.
Proof.
  intros (Hok & Hdom & Hfiles & Hnames & Hq) Hsize Hrun s' Htfd Hq'.
  assert (Ht : tag_to_use_of p tc = Ok t).
  { unfold save_post_using_tag, io_bind, io_lift in Hrun.
    destruct (tag_to_use_of p tc) as [t0|e]; [|done].
    destruct (open_and_write p t0 _ d) as [[tfd1|e] d1]; [|done].
    destruct (close_if_full cap tfd1 d1) as [[tfd2|e] d2]; [|done].
    unfold io_ret in Hrun. congruence. }
  assert (Htag : tag_of tc p = Some t) by (unfold tag_of; by rewrite Ht).
  destruct (save_post_using_tag_writes p (tag_file_descriptors s) tc cap d t Hok Ht)
    as (tfd1 & d1 & Hrun' & Hf & Htfd1).
  rewrite Hrun in Hrun'. injection Hrun' as <- <-.
  pose proof (tags_of_snoc pre p t Htag) as Hsnoc.
  assert (Hnew : dom (<[t := shard_name t]> (tag_file_descriptors s)) = tags_of tc (pre ++ [p])).
  { rewrite dom_insert_L, Hdom, Hsnoc. set_solver. }
  assert (Hbelow : (Z.of_nat (size (<[t := shard_name t]> (tag_file_descriptors s))) >=? cap)
                   = false).
  { rewrite Z.geb_leb. apply Z.leb_gt. rewrite <- Hnew, size_dom in Hsize. done. }
  rewrite Hbelow in Htfd1. rewrite Htfd1 in Htfd. clear Htfd1.
  split; [rewrite Htfd; by apply table_ok_insert|].
  split; [by rewrite Htfd|].
  split; [|split; [|done]].
  - intros u. rewrite Hf. destruct (decide (u = t)) as [->|Hne].
    + rewrite lookup_insert_eq. rewrite decide_True by (rewrite Hsnoc; set_solver).
      f_equal. rewrite filter_app. simpl. rewrite filter_cons_True by done. f_equal.
      destruct (tag_file_descriptors s !! t) as [h|] eqn:Hl.
      * rewrite Hfiles. rewrite decide_True; [done|].
        rewrite <- Hdom. apply elem_of_dom. eauto.
      * symmetry. apply filter_tag_none. rewrite <- Hdom. by apply not_elem_of_dom.
    + rewrite lookup_insert_ne by (intros E; by apply shard_name_inj in E).
      rewrite Hfiles, Hsnoc. rewrite filter_app. simpl.
      rewrite filter_cons_False by congruence. rewrite app_nil_r.
      destruct (decide (u ∈ tags_of tc pre)) as [Hin|Hnin].
      * rewrite decide_True by set_solver. done.
      * rewrite decide_False by set_solver. done.
  - intros n. rewrite Hf. destruct (decide (n = shard_name t)) as [->|Hne]; [eauto|].
    rewrite lookup_insert_ne by done. apply Hnames.
Qed.

Lemma question_step_Ok s p d s' d' :
  question_step tc cap s p d = (Ok s', d') ->
  if question_kept p then
    exists t id o,
      save_post_using_tag p (tag_file_descriptors s) tc cap d
        = (Ok (tag_file_descriptors s', t), d') /\
      p_id p = Some id /\ question_overview_data s !! id = Some o /\
      question_overview_data s' = <[id := set_tag_to_use t o]> (question_overview_data s) /\
      posts_per_tag s' = incr t (posts_per_tag s)
  else s' = s /\ d' = d.
Proof.
  unfold question_step, question_kept, io_bind, io_lift, io_ret.
  destruct (String.eqb (p_result p) "PASS"); simpl; [|by intros [= <- <-]].
  destruct (p_type p) as [t|]; simpl; [|done].
  destruct ((t =? 1) || (t =? 2)); simpl; [|by intros [= <- <-]].
  destruct (save_post_using_tag p (tag_file_descriptors s) tc cap d)
    as [[[tfd tg]|e] d1]; [|done].
  destruct (p_id p) as [id|]; simpl; [|done].
  destruct (question_overview_data s !! id) as [o|] eqn:Ho; simpl; [|done].
  intros [= <- <-]. simpl. exists tg, id, o. done.
Qed.

Lemma answer_step_Ok s p d s' d' :
  answer_step tc cap s p d = (Ok s', d') ->
  match answer_kept (question_overview_data s) p with
  | Some p' =>
      exists t,
        save_post_using_tag p' (tag_file_descriptors s) tc cap d
          = (Ok (tag_file_descriptors s', t), d') /\
        question_overview_data s' = question_overview_data s /\
        posts_per_tag s' = posts_per_tag s
  | None => s' = s /\ d' = d
  end.
Proof.
  unfold answer_step, answer_kept, io_bind, io_lift, io_ret.
  destruct (p_parent_id p) as [parent|]; simpl; [|done].
  destruct (parent ≫= _) as [o|].
  - destruct (save_post_using_tag _ (tag_file_descriptors s) tc cap d)
      as [[[tfd tg]|e] d1]; [|done].
    intros [= <- <-]. simpl. by exists tg.
  - destruct (p_id p); simpl; [|done]. by intros [= <- <-].
Qed.

Lemma answer_kept_tags (q q' : gmap string overview) p :
  (forall k, o_tags <$> q !! k = o_tags <$> q' !! k) ->
  answer_kept q p = answer_kept q' p.
Proof.
  intros Hq. unfold answer_kept. destruct (default None (p_parent_id p)) as [k|]; simpl; [|done].
  specialize (Hq k). destruct (q !! k), (q' !! k); simpl in *; congruence.
Qed.

Lemma save_tag_of p tfd d tfd' t d' :
  save_post_using_tag p tfd tc cap d = (Ok (tfd', t), d') -> tag_of tc p = Some t.
Proof.
  unfold save_post_using_tag, io_bind, io_lift, tag_of.
  destruct (tag_to_use_of p tc) as [t0|e]; [|done].
  destruct (open_and_write p t0 _ d) as [[tfd1|e] d1]; [|done].
  destruct (close_if_full cap tfd1 d1) as [[tfd2|e] d2]; [|done].
  unfold io_ret. congruence.
Qed.

Lemma bin_questions questions : forall pre s d s' d' rest,
  bin_inv pre s d ->
  Z.of_nat (size (tags_of tc (pre ++ filter (fun p => question_kept p) questions ++ rest)))
    < cap ->
  io_fold (question_step tc cap) questions s d = (Ok s', d') ->
  bin_inv (pre ++ filter (fun p => question_kept p) questions) s' d'.
Proof.
  induction questions as [|p qs IH]; intros pre s d s' d' rest Hinv Hsize Hrun; simpl in Hrun.
  - unfold io_ret in Hrun. injection Hrun as <- <-. by rewrite app_nil_r.
  - unfold io_bind in Hrun.
    destruct (question_step tc cap s p d) as [[s1|e] d1] eqn:Hstep; [|done].
    apply question_step_Ok in Hstep. rewrite filter_cons in *.
    destruct (question_kept p) eqn:Hk.
    + rewrite decide_True in * by done.
      destruct Hstep as (t & id & o & Hsave & Hid & Ho & Hq1 & _).
      replace (pre ++ p :: filter (fun p => question_kept p) qs)
        with ((pre ++ [p]) ++ filter (fun p => question_kept p) qs)
        by (by rewrite <- app_assoc).
      eapply (IH _ s1 d1 _ _ rest); [| |exact Hrun].
      * eapply bin_step; [exact Hinv| |exact Hsave|done|].
        -- eapply Z.le_lt_trans; [|exact Hsize]. apply Nat2Z.inj_le, subseteq_size.
           exact (tags_of_mono2 pre [p] (filter (fun p => question_kept p) qs ++ rest)).
        -- intros k. rewrite Hq1. destruct Hinv as (_ & _ & _ & _ & Hq).
           destruct (decide (id = k)) as [<-|Hne].
           ++ rewrite lookup_insert_eq. rewrite <- Hq, Ho. done.
           ++ rewrite lookup_insert_ne by done. apply Hq.
      * rewrite <- app_assoc. exact Hsize.
    + rewrite decide_False in * by (by intros ?). destruct Hstep as [-> ->].
      eapply IH; eauto.
Qed.

Lemma bin_answers answers : forall pre s d s' d',
  bin_inv pre s d ->
  Z.of_nat (size (tags_of tc (pre ++ omap (answer_kept qod0) answers))) < cap ->
  io_fold (answer_step tc cap) answers s d = (Ok s', d') ->
  bin_inv (pre ++ omap (answer_kept qod0) answers) s' d'.
Proof.
  induction answers as [|p l IH]; intros pre s d s' d' Hinv Hsize Hrun.
  - simpl in Hrun. unfold io_ret in Hrun. injection Hrun as <- <-. simpl.
    by rewrite app_nil_r.
  - simpl in Hrun. unfold io_bind in Hrun.
    destruct (answer_step tc cap s p d) as [[s1|e] d1] eqn:Hstep; [|done].
    apply answer_step_Ok in Hstep.
    assert (Hq : forall k, o_tags <$> question_overview_data s !! k = o_tags <$> qod0 !! k)
      by apply Hinv.
    rewrite (answer_kept_tags _ qod0 p Hq) in Hstep.
    assert (Hcons : omap (answer_kept qod0) (p :: l) =
              match answer_kept qod0 p with
              | Some p' => [p']
              | None => []
              end ++ omap (answer_kept qod0) l).
    { simpl. by destruct (answer_kept qod0 p). }
    rewrite Hcons in *. clear Hcons.
    destruct (answer_kept qod0 p) as [p'|] eqn:Hk.
    + destruct Hstep as (t & Hsave & Hq1 & _). rewrite app_assoc in *.
      eapply (IH _ s1 d1); [|exact Hsize|exact Hrun].
      eapply bin_step; [exact Hinv| |exact Hsave|done|by rewrite Hq1].
      eapply Z.le_lt_trans; [|exact Hsize]. apply Nat2Z.inj_le, subseteq_size.
      unfold tags_of. rewrite !omap_app, !list_to_set_app_L. set_solver.
    + destruct Hstep as [-> ->]. eapply IH; eauto.
Qed.
End below_cap.

(** X4.  No record is lost while the table stays below the cap.  When the
    posts that [second_parse_dump] bins (the questions with result ['PASS']
    and type 1 or 2, then the answers whose parent is in
    [question_overview_data], with the tags of the parent) use fewer tags
    than [max_files_open], the shard of every tag holds exactly the posts
    binned to the tag, in the order of the pass, and the directory holds no
    other file. *)
Theorem no_record_lost_below_the_cap questions answers qod tc debug s d :
  run_second_parse_dump questions answers qod tc debug = (Ok s, d) ->
  Z.of_nat (size (tags_of tc (binned qod questions answers))) < max_files_open_of debug ->
  (forall t, files d !! shard_name t =
     if decide (t ∈ tags_of tc (binned qod questions answers))
     then Some (filter (fun p => tag_of tc p = Some t) (binned qod questions answers))
     else None) /\
  (forall n, is_Some (files d !! n) -> exists t, n = shard_name t).
Proof.
  unfold run_second_parse_dump, second_parse_dump, binned. intros Hrun Hsize.
  set (cap := max_files_open_of debug) in *.
  unfold io_bind at 1 in Hrun.
  destruct (io_fold (question_step tc cap) questions _ empty_dir) as [[s1|e] d1] eqn:H1;
    [|done].
  unfold io_bind at 1 in Hrun.
  destruct (io_fold (answer_step tc cap) answers s1 d1) as [[s2|e] d2] eqn:H2; [|done].
  unfold io_bind, io_do, io_ret in Hrun. injection Hrun as <- <-.
  assert (H0 : bin_inv tc qod [] (mkPass2 ∅ ∅ 0 qod) empty_dir).
  { split; [apply table_ok_empty|]. split; [simpl; by rewrite dom_empty_L|].
    split; [|split; [|done]].
    - intros t. simpl. rewrite lookup_empty. by rewrite decide_False by set_solver.
    - intros n [x Hx]. simpl in Hx. by rewrite lookup_empty in Hx. }
  pose proof (bin_questions tc cap qod questions [] _ _ _ _
                (omap (answer_kept qod) answers) H0 Hsize H1) as Hi1.
  pose proof (bin_answers tc cap qod answers _ _ _ _ _ Hi1 Hsize H2)
    as (_ & _ & Hfiles & Hnames & _).
  simpl in *. split; [exact Hfiles|exact Hnames].
Qed.

Definition two_questions : list post := [question "q1" ["a"]; question "q2" ["b"]].

Definition two_overview : gmap string overview :=
  list_to_map (map (fun p => (default "" (p_id p), overview_of p)) two_questions).

Lemma no_record_lost_below_the_cap_witness :
  (forall t,
     files (snd (run_second_parse_dump two_questions [answer "a1" "q1"] two_overview
                   (TCCounter ∅) true)) !! shard_name t =
     if decide (t ∈ tags_of (TCCounter ∅)
                      (binned two_overview two_questions [answer "a1" "q1"]))
     then Some (filter (fun p => tag_of (TCCounter ∅) p = Some t)
                  (binned two_overview two_questions [answer "a1" "q1"]))
     else None) /\
  (forall n,
     is_Some (files (snd (run_second_parse_dump two_questions [answer "a1" "q1"]
                            two_overview (TCCounter ∅) true)) !! n) ->
     exists t, n = shard_name t).
Proof.
  apply (no_record_lost_below_the_cap two_questions [answer "a1" "q1"] two_overview
           (TCCounter ∅) true
           (returned (run_second_parse_dump two_questions [answer "a1" "q1"] two_overview
                        (TCCounter ∅) true))).
  - vm_compute. reflexivity.
  - vm_compute. reflexivity.
Defined.

Lemma counter_get_incr k c r :
  counter_get (incr k c) r = counter_get c r + (if decide (r = k) then 1 else 0).
Proof.
  unfold counter_get, incr. destruct (decide (r = k)) as [->|Hne].
  - by rewrite lookup_insert_eq.
  - rewrite lookup_insert_ne by done. lia.
Qed.

(** *** [posts_per_tag] *)

Lemma posts_per_tag_questions tc cap questions : forall s d s' d',
  io_fold (question_step tc cap) questions s d = (Ok s', d') ->
  forall t, counter_get (posts_per_tag s') t =
    counter_get (posts_per_tag s) t +
    Z.of_nat (length (filter (fun p => tag_of tc p = Some t)
                        (filter (fun p => question_kept p) questions))).
Proof.
  induction questions as [|p qs IH]; intros s d s' d' Hrun t; simpl in Hrun.
  - unfold io_ret in Hrun. injection Hrun as <- <-. simpl. lia.
  - unfold io_bind in Hrun.
    destruct (question_step tc cap s p d) as [[s1|e] d1] eqn:Hstep; [|done].
    apply question_step_Ok in Hstep. rewrite (IH _ _ _ _ Hrun). rewrite (filter_cons _ p).
    destruct (question_kept p) eqn:Hk.
    + rewrite decide_True by done. destruct Hstep as (u & id & o & Hsave & _ & _ & _ & Hppt).
      apply save_tag_of in Hsave. rewrite Hppt, counter_get_incr, filter_cons.
      destruct (decide (t = u)) as [->|Hne].
      * rewrite decide_True by done. simpl. lia.
      * rewrite decide_False by congruence. lia.
    + rewrite decide_False by (by intros ?). destruct Hstep as [-> _]. done.
Qed.

Lemma posts_per_tag_answers tc cap answers : forall s d s' d',
  io_fold (answer_step tc cap) answers s d = (Ok s', d') ->
  posts_per_tag s' = posts_per_tag s.
Proof.
  induction answers as [|p l IH]; intros s d s' d' Hrun; simpl in Hrun.
  - unfold io_ret in Hrun. by injection Hrun as <- <-.
  - unfold io_bind in Hrun.
    destruct (answer_step tc cap s p d) as [[s1|e] d1] eqn:Hstep; [|done].
    apply answer_step_Ok in Hstep. rewrite (IH _ _ _ _ Hrun).
    destruct (answer_kept _ p); [by destruct Hstep as (_ & _ & _ & ->)|by destruct Hstep as [-> _]].
Qed.

(** X5.  [posts_per_tag], which [second_parse_dump] returns and from which
    [parse_so_dump] takes the shards to align, counts for every tag the
    questions binned to it; the answers are not counted. *)
Theorem posts_per_tag_counts_the_questions questions answers qod tc debug s d :
  run_second_parse_dump questions answers qod tc debug = (Ok s, d) ->
  forall t, counter_get (posts_per_tag s) t =
    Z.of_nat (length (filter (fun p => tag_of tc p = Some t)
                        (filter (fun p => question_kept p) questions))).
Proof.
  unfold run_second_parse_dump, second_parse_dump. intros Hrun t.
  set (cap := max_files_open_of debug) in *.
  unfold io_bind at 1 in Hrun.
  destruct (io_fold (question_step tc cap) questions _ empty_dir) as [[s1|e] d1] eqn:H1;
    [|done].
  unfold io_bind at 1 in Hrun.
  destruct (io_fold (answer_step tc cap) answers s1 d1) as [[s2|e] d2] eqn:H2; [|done].
  unfold io_bind, io_do, io_ret in Hrun. injection Hrun as <- <-.
  rewrite (posts_per_tag_answers _ _ _ _ _ _ _ H2).
  rewrite (posts_per_tag_questions _ _ _ _ _ _ _ H1). simpl.
  unfold counter_get. rewrite lookup_empty. simpl. lia.
Qed.

Lemma posts_per_tag_counts_the_questions_witness :
  run_second_parse_dump two_questions [answer "a1" "q1"] two_overview (TCCounter ∅) true =
    (Ok (returned (run_second_parse_dump two_questions [answer "a1" "q1"] two_overview
                     (TCCounter ∅) true)),
     snd (run_second_parse_dump two_questions [answer "a1" "q1"] two_overview
            (TCCounter ∅) true)) /\
  forall t,
    counter_get (posts_per_tag (returned (run_second_parse_dump two_questions
                                            [answer "a1" "q1"] two_overview
                                            (TCCounter ∅) true))) t =
    Z.of_nat (length (filter (fun p => tag_of (TCCounter ∅) p = Some t)
                        (filter (fun p => question_kept p) two_questions))).
Proof.
  split; [vm_compute; reflexivity|].
  apply (posts_per_tag_counts_the_questions two_questions [answer "a1" "q1"] two_overview
           (TCCounter ∅) true _
           (snd (run_second_parse_dump two_questions [answer "a1" "q1"] two_overview
                   (TCCounter ∅) true))).
  vm_compute. reflexivity.
Defined.

(** *** What the first pass counts and writes *)

Lemma counter_get_incr_all (tags : list string) : forall c t,
  counter_get (fold_left (fun c t => incr t c) tags c) t =
    counter_get c t + Z.of_nat (length (filter (fun u => u = t) tags)).
Proof.
  induction tags as [|u tags IH]; intros c t; simpl; [lia|].
  rewrite IH, counter_get_incr, filter_cons.
  destruct (decide (t = u)) as [->|Hne].
  - rewrite decide_True by done. simpl. lia.
  - rewrite decide_False by done. lia.
Qed.

Lemma rfold_rmap {A B S} (f : A -> res B) (g : S -> B -> res S) (l : list A) :
  forall s0 s, rfold (fun s x => y <~ f x ;; g s y) l s0 = Ok s ->
    exists ys, rmap f l = Ok ys /\ rfold g ys s0 = Ok s.
Proof.
  induction l as [|x l IH]; intros s0 s; simpl.
  - intros [= <-]. by exists [].
  - destruct (f x) as [y|]; simpl; [|done].
    destruct (g s0 y) as [s1|] eqn:Hg; simpl; [|done].
    intros (ys & -> & Hys)%IH. exists (y :: ys). simpl. by rewrite Hg.
Qed.

Lemma rmap_length {A B} (f : A -> res B) (l : list A) :
  forall ys, rmap f l = Ok ys -> length ys = length l.
Proof.
  induction l as [|x l IH]; intros ys; simpl; [by intros [= <-]|].
  destruct (f x); simpl; [|done]. destruct (rmap f l); simpl; [|done].
  intros [= <-]. simpl. f_equal. by apply IH.
Qed.

Lemma rmap_lookup {A B} (f : A -> res B) (l : list A) :
  forall ys i y, rmap f l = Ok ys -> ys !! i = Some y ->
    exists x, l !! i = Some x /\ f x = Ok y.
Proof.
  induction l as [|x l IH]; intros ys i y; simpl; [by intros [= <-]|].
  destruct (f x) as [y0|] eqn:Hf; simpl; [|done].
  destruct (rmap f l) as [ys0|]; simpl; [|done].
  intros [= <-]. destruct i as [|i]; simpl.
  - intros [= <-]. eauto.
  - by apply IH.
Qed.

Section first_pass_output.
Variable etree_XML : string -> option (list (string * string)).
Variable py_int : string -> option Z.
Variable unidecode : string -> string.
Variable POST_TYPE_TO_STR : list (Z * string).

Let parse := parse_line etree_XML py_int unidecode.
Let step := initial_step POST_TYPE_TO_STR.

(** The records [read_dump] yields, when [parse_line] returns on every
    line read. *)
Definition parsed_lines (lines : list string) (debug : bool) : res (list post) :=
  rmap (fun nl => parse (fst nl) (snd nl)) (read_lines lines debug).

Definition passed (p : post) : Prop := p_result p = "PASS".

(** The name under which [post_type_counter] counts a record. *)
Definition type_name (p : post) : option string :=
  p_type p ≫= fun t => dict_get t POST_TYPE_TO_STR.

Definition tags_in (l : list post) : list string :=
  concat (map (fun p => default [] (p_tags p)) (filter (fun p => passed p /\ p_type p = Some 1) l)).

(** The state of the loop of [initial_parse_dump] after the records
    [pre]. *)
Definition first_inv (pre : list post) (s : pass1) : Prop :=
  (forall r, counter_get (failures_counts s) r =
     Z.of_nat (length (filter (fun p => ~ passed p /\ p_result p = r) pre))) /\
  (forall n, counter_get (post_type_counter s) n =
     Z.of_nat (length (filter (fun p => passed p /\ type_name p = Some n) pre))) /\
  (forall t, counter_get (first_tag_counts s) t =
     Z.of_nat (length (filter (fun u => u = t) (tags_in pre)))) /\
  (forall k, dict_get k (post_files s) =
     if decide (k ∈ dict_keys POST_TYPE_TO_STR)
     then Some (filter (fun p => passed p /\ p_type p = Some k) pre) else None) /\
  (forall id, is_Some (overview_data s !! id) <->
     exists q, q ∈ pre /\ passed q /\ p_type q = Some 1 /\ p_id q = Some id) /\
  (forall id o, overview_data s !! id = Some o ->
     exists q, q ∈ pre /\ passed q /\ p_type q = Some 1 /\ p_id q = Some id /\
               p_tags q = Some (o_tags o)).

Lemma first_inv_init : first_inv [] (pass1_init POST_TYPE_TO_STR).
Proof.
  unfold first_inv, pass1_init. simpl.
  split; [done|]. split; [done|]. split; [done|]. split; [|split].
  - intros k. induction POST_TYPE_TO_STR as [|[k0 v0] l IH]; simpl.
    + first [done|case_decide as Hk; [by apply elem_of_nil in Hk|done]].
    + destruct (decide (k = k0)) as [->|Hne].
      * by rewrite decide_True by (apply elem_of_cons; by left).
      * rewrite IH. destruct (decide (k ∈ dict_keys l)) as [Hin|Hnin].
        -- by rewrite decide_True by (apply elem_of_cons; by right).
        -- rewrite decide_False; [done|]. intros [?|?]%elem_of_cons; done.
  - intros id. split.
    + intros [o Ho]. by rewrite lookup_empty in Ho.
    + intros (q & Hq & _). by apply elem_of_nil in Hq.
  - intros id o Ho. by rewrite lookup_empty in Ho.
Qed.

Lemma filter_snoc_length {A} (P : A -> Prop) `{forall x, Decision (P x)} (l : list A) x :
  Z.of_nat (length (filter P (l ++ [x]))) =
    Z.of_nat (length (filter P l)) + (if decide (P x) then 1 else 0).
Proof.
  rewrite filter_app, length_app. simpl. rewrite filter_cons.
  destruct (decide (P x)); simpl; lia.
Qed.

Lemma first_inv_step pre s p s' :
  first_inv pre s -> step s p = Ok s' -> first_inv (pre ++ [p]) s'.
Proof.
  intros (Hfail & Htypes & Htags & Hfiles & Hdom & Hov). unfold step, initial_step.
  destruct (String.eqb_spec (p_result p) "PASS") as [Hpass|Hfailp]; simpl.
  - destruct (p_type p) as [ty|] eqn:Hty; simpl; [|done].
    destruct (dict_get ty POST_TYPE_TO_STR) as [name|] eqn:Hname; simpl; [|done].
    destruct (dict_get ty (post_files s)) as [file|] eqn:Hfile; simpl; [|done].
    assert (Hcommon : forall s0,
              failures_counts s0 = failures_counts s ->
              post_type_counter s0 = incr name (post_type_counter s) ->
              post_files s0 = dict_set ty (file ++ [p]) (post_files s) ->
              (forall r, counter_get (failures_counts s0) r =
                 Z.of_nat (length (filter (fun p => ~ passed p /\ p_result p = r) (pre ++ [p])))) /\
              (forall n, counter_get (post_type_counter s0) n =
                 Z.of_nat (length (filter (fun p => passed p /\ type_name p = Some n)
                                     (pre ++ [p])))) /\
              (forall k, dict_get k (post_files s0) =
                 if decide (k ∈ dict_keys POST_TYPE_TO_STR)
                 then Some (filter (fun p => passed p /\ p_type p = Some k) (pre ++ [p]))
                 else None)).
    { intros s0 -> -> ->. split; [|split].
      - intros r. rewrite filter_snoc_length, Hfail.
        rewrite decide_False by (intros [Hn _]; by apply Hn). lia.
      - intros n. rewrite filter_snoc_length, counter_get_incr, Htypes.
        assert (Htn : type_name p = Some name) by (unfold type_name; by rewrite Hty).
        rewrite Htn. destruct (decide (n = name)) as [->|Hne].
        + by rewrite decide_True.
        + rewrite decide_False; [done|]. intros [_ [= E]]. done.
      - intros k. rewrite filter_app. simpl. rewrite filter_cons.
        destruct (decide (ty = k)) as [<-|Hne].
        + rewrite dict_get_set_eq. rewrite Hfiles in Hfile.
          destruct (decide (ty ∈ dict_keys POST_TYPE_TO_STR)); [|done].
          injection Hfile as <-. by rewrite decide_True.
        + rewrite dict_get_set_ne by done. rewrite Hfiles.
          rewrite (decide_False (P := passed p /\ p_type p = Some k))
            by (intros [_ E]; congruence).
          by rewrite app_nil_r. }
    destruct (Z.eqb_spec ty 1) as [->|Hne1].
    + destruct (p_id p) as [id|] eqn:Hid; simpl; [|done].
      destruct (p_tags p) as [tags|] eqn:Hptags; simpl; [|done].
      destruct (p_score p) as [score|]; simpl; [|done].
      destruct (p_views p) as [views|]; simpl; [|done].
      destruct (p_answer_count p) as [ac|]; simpl; [|done].
      destruct (p_accepted_answer p) as [acc|]; simpl; [|done].
      intros [= <-]. match goal with |- first_inv _ ?s0 =>
        destruct (Hcommon s0 eq_refl eq_refl eq_refl) as (H1 & H2 & H3) end.
      split; [exact H1|]. split; [exact H2|]. split; [|split; [exact H3|split]].
      * intros t. simpl. rewrite counter_get_incr_all, Htags. unfold tags_in.
        rewrite filter_app, map_app, concat_app, filter_app, length_app. simpl.
        rewrite filter_cons_True by done. simpl. rewrite Hptags. simpl.
        rewrite app_nil_r. lia.
      * intros id'. simpl. destruct (decide (id = id')) as [<-|Hne].
        -- rewrite lookup_insert_eq. split; [|eauto]. intros _. exists p.
           split; [apply elem_of_app; right; apply elem_of_cons; by left|done].
        -- rewrite lookup_insert_ne by done. rewrite Hdom. split.
           ++ intros (q & Hq & Hrest). exists q. split; [apply elem_of_app; by left|done].
           ++ intros (q & [Hq|Hq]%elem_of_app & Hrest); [by exists q|].
              apply list_elem_of_singleton in Hq. subst q.
              destruct Hrest as (_ & _ & E). congruence.
      * intros id' o. simpl. destruct (decide (id = id')) as [<-|Hne].
        -- rewrite lookup_insert_eq. intros [= <-]. exists p. simpl.
           split; [apply elem_of_app; right; apply elem_of_cons; by left|done].
        -- rewrite lookup_insert_ne by done. intros (q & Hq & Hrest)%Hov.
           exists q. split; [apply elem_of_app; by left|done].
    + intros [= <-]. match goal with |- first_inv _ ?s0 =>
        destruct (Hcommon s0 eq_refl eq_refl eq_refl) as (H1 & H2 & H3) end.
      split; [exact H1|]. split; [exact H2|]. split; [|split; [exact H3|split]].
      * intros t. simpl. rewrite Htags. unfold tags_in.
        rewrite filter_app. simpl.
        rewrite filter_cons_False by (intros [_ E]; congruence). by rewrite app_nil_r.
      * intros id'. simpl. rewrite Hdom. split.
        -- intros (q & Hq & Hrest). exists q. split; [apply elem_of_app; by left|done].
        -- intros (q & [Hq|Hq]%elem_of_app & Hrest); [by exists q|].
           apply list_elem_of_singleton in Hq. subst q.
           destruct Hrest as (_ & E & _). congruence.
      * intros id' o. simpl. intros (q & Hq & Hrest)%Hov.
        exists q. split; [apply elem_of_app; by left|done].
  - intros [= <-]. unfold first_inv.
    cbn [overview_data failures_counts post_type_counter first_tag_counts post_files].
    split; [|split; [|split; [|split; [|split]]]].
    + intros r. rewrite filter_snoc_length, counter_get_incr, Hfail.
      destruct (decide (r = p_result p)) as [->|Hne].
      * by rewrite decide_True.
      * rewrite decide_False; [done|]. intros [_ E]. done.
    + intros n. rewrite filter_snoc_length, Htypes.
      rewrite decide_False by (intros [E _]; done). lia.
    + intros t. rewrite Htags. unfold tags_in. rewrite filter_app. simpl.
      rewrite filter_cons_False by (intros [E _]; done). by rewrite app_nil_r.
    + intros k. rewrite Hfiles, filter_app. simpl.
      rewrite filter_cons_False by (intros [E _]; done). by rewrite app_nil_r.
    + intros id'. rewrite Hdom. split.
      * intros (q & Hq & Hrest). exists q. split; [apply elem_of_app; by left|done].
      * intros (q & [Hq|Hq]%elem_of_app & Hrest); [by exists q|].
        apply list_elem_of_singleton in Hq. subst q. by destruct Hrest as (E & _).
    + intros id' o (q & Hq & Hrest)%Hov.
      exists q. split; [apply elem_of_app; by left|done].
Qed.

Lemma first_inv_loop posts : forall pre s s',
  first_inv pre s -> rfold step posts s = Ok s' -> first_inv (pre ++ posts) s'.
Proof.
  induction posts as [|p posts IH]; intros pre s s' Hinv; simpl.
  - intros [= <-]. by rewrite app_nil_r.
  - destruct (step s p) as [s1|] eqn:Hs; simpl; [|done]. intros Hrest.
    replace (pre ++ p :: posts) with ((pre ++ [p]) ++ posts) by (by rewrite <- app_assoc).
    eapply IH; [|exact Hrest]. by eapply first_inv_step.
Qed.

Lemma initial_parse_dump_inv lines debug s :
  initial_parse_dump etree_XML py_int unidecode POST_TYPE_TO_STR lines debug = Ok s ->
  exists posts, parsed_lines lines debug = Ok posts /\ first_inv posts s.
Proof.
  unfold initial_parse_dump. intros (posts & Hposts & Hfold)%rfold_rmap.
  exists posts. split; [exact Hposts|].
  exact (first_inv_loop posts [] _ _ first_inv_init Hfold).
Qed.

Lemma length_read_lines lines debug :
  length (read_lines lines debug) =
    if debug then Nat.min 2500 (length lines) else length lines.
Proof.
  unfold read_lines. destruct debug.
  - by rewrite length_take, length_imap.
  - by rewrite length_imap.
Qed.

Lemma parse_line_number n line r : parse n line = Ok r -> p_line r = n.
Proof.
  unfold parse, parse_line. destruct (etree_XML line) as [d|]; [|by intros [= <-]].
  destruct (dict_get "PostTypeId" d) as [s|]; [|done]. simpl.
  destruct (py_int s) as [t|]; [|by intros [= <-]].
  destruct (valid_type t) eqn:Hv; simpl; [|by intros [= <-]].
  destruct (dict_get "Body" d) as [body|]; [|done]. simpl.
  destruct (str_empty body); [by intros [= <-]|].
  destruct (dict_get "Id" d) as [id|]; [|done]. simpl.
  destruct (dict_get "CreationDate" d) as [date|]; [|done]. simpl.
  destruct (dict_get "Score" d) as [score|]; [|done]. simpl.
  destruct (int_of py_int score) as [sc|]; [|done]. simpl.
  destruct (int_get py_int "CommentCount" d) as [cc|]; [|done]. simpl.
  destruct (t =? 1) eqn:Ht.
  - destruct (dict_get "Tags" d) as [tags|]; [|done]. simpl.
    destruct (dict_get "Title" d) as [[|a ti]|]; try by intros [= <-].
    destruct (int_get py_int "AnswerCount" d) as [ac|]; [|done]. simpl.
    destruct (int_get py_int "ViewCount" d) as [vc|]; [|done]. simpl.
    by intros [= <-].
  - by intros [= <-].
Qed.

(** X6.  When [initial_parse_dump] returns, [parse_line] returned a record
    for every line read (all the lines of the dump, or its first 2500 in
    debug mode), the record of line [i] carries the line number [i], and the
    counters count these records: [failures_counts] the records that did not
    pass, by result; [post_type_counter] the records that passed, by the
    name of their type; [tag_counts] the occurrences of each tag in the
    questions that passed. *)
Theorem dump_stats_count_the_lines_read lines debug s :
  initial_parse_dump etree_XML py_int unidecode POST_TYPE_TO_STR lines debug = Ok s ->
  exists posts,
    parsed_lines lines debug = Ok posts /\
    length posts = (if debug then Nat.min 2500 (length lines) else length lines) /\
    (forall i p, posts !! i = Some p -> p_line p = Z.of_nat i) /\
    (forall r, counter_get (failures_counts s) r =
       Z.of_nat (length (filter (fun p => ~ passed p /\ p_result p = r) posts))) /\
    (forall n, counter_get (post_type_counter s) n =
       Z.of_nat (length (filter (fun p => passed p /\ type_name p = Some n) posts))) /\
    (forall t, counter_get (first_tag_counts s) t =
       Z.of_nat (length (filter (fun u => u = t) (tags_in posts)))).
Proof.
  intros (posts & Hposts & Hfail & Htypes & Htags & _)%initial_parse_dump_inv.
  exists posts. split; [done|]. split; [|split; [|done]].
  - rewrite (rmap_length _ _ _ Hposts). apply length_read_lines.
  - intros i p Hp. destruct (rmap_lookup _ _ _ _ _ Hposts Hp) as ([n line] & Hnl & Hpl).
    simpl in Hpl. apply parse_line_number in Hpl. rewrite Hpl.
    unfold read_lines in Hnl.
    assert (Himap : imap (fun (i : nat) (l : string) => (Z.of_nat i, l)) lines !! i
                    = Some (n, line)).
    { destruct debug; [|done]. rewrite lookup_take_Some in Hnl. by destruct Hnl. }
    rewrite list_lookup_imap in Himap. destruct (lines !! i); simpl in Himap; congruence.
Qed.

(** X7.  When [initial_parse_dump] returns, the file of every post type
    holds the records of that type that passed, in the order of the dump,
    and [question_overview_data] has an entry exactly for the ids of the
    questions that passed, each with the tags of such a question. *)
Theorem first_pass_writes_every_passed_post lines debug s :
  initial_parse_dump etree_XML py_int unidecode POST_TYPE_TO_STR lines debug = Ok s ->
  exists posts,
    parsed_lines lines debug = Ok posts /\
    (forall k, dict_get k (post_files s) =
       if decide (k ∈ dict_keys POST_TYPE_TO_STR)
       then Some (filter (fun p => passed p /\ p_type p = Some k) posts) else None) /\
    (forall id, is_Some (overview_data s !! id) <->
       exists q, q ∈ posts /\ passed q /\ p_type q = Some 1 /\ p_id q = Some id) /\
    (forall id o, overview_data s !! id = Some o ->
       exists q, q ∈ posts /\ passed q /\ p_type q = Some 1 /\ p_id q = Some id /\
                 p_tags q = Some (o_tags o)).
Proof.
  intros (posts & Hposts & _ & _ & _ & Hfiles & Hdom & Hov)%initial_parse_dump_inv.
  by exists posts.
Qed.

(** *** The second pass on the output of the first *)

Lemma rmap_elem {A B} (f : A -> res B) (l : list A) :
  forall ys y, rmap f l = Ok ys -> y ∈ ys -> exists x, x ∈ l /\ f x = Ok y.
Proof.
  intros ys y Hys (i & Hi)%list_elem_of_lookup.
  destruct (rmap_lookup f l ys i y Hys Hi) as (x & Hx & Hfx).
  exists x. split; [|done]. apply list_elem_of_lookup. eauto.
Qed.

(** The keys of a record with result ['PASS']: its id, and for a post that
    is no question, its ['parent_id']. *)
Lemma parse_line_pass_keys n line r :
  parse n line = Ok r -> passed r ->
  is_Some (p_id r) /\ (p_type r <> Some 1 -> is_Some (p_parent_id r)).
Proof.
  unfold parse, parse_line, passed.
  destruct (etree_XML line) as [d|]; [|by intros [= <-]].
  destruct (dict_get "PostTypeId" d) as [s|]; [|done]. simpl.
  destruct (py_int s) as [t|]; [|by intros [= <-]].
  destruct (valid_type t) eqn:Hv; simpl; [|by intros [= <-]].
  destruct (dict_get "Body" d) as [body|]; [|done]. simpl.
  destruct (str_empty body); [by intros [= <-]|].
  destruct (dict_get "Id" d) as [id|]; [|done]. simpl.
  destruct (dict_get "CreationDate" d) as [date|]; [|done]. simpl.
  destruct (dict_get "Score" d) as [score|]; [|done]. simpl.
  destruct (int_of py_int score) as [sc|]; [|done]. simpl.
  destruct (int_get py_int "CommentCount" d) as [cc|]; [|done]. simpl.
  destruct (Z.eqb_spec t 1) as [->|Hne].
  - destruct (dict_get "Tags" d) as [tags|]; [|done]. simpl.
    destruct (dict_get "Title" d) as [[|a ti]|]; try by intros [= <-].
    destruct (int_get py_int "AnswerCount" d) as [ac|]; [|done]. simpl.
    destruct (int_get py_int "ViewCount" d) as [vc|]; [|done]. simpl.
    intros [= <-] _. simpl. split; [eauto|done].
  - intros [= <-] _. simpl. split; eauto.
Qed.

Lemma tag_to_use_counter_returns p c : exists t, tag_to_use_of p (TCCounter c) = Ok t.
Proof.
  destruct (default [] (p_tags p)) as [|x l] eqn:Htags.
  - exists "NO_TAG". by apply tag_to_use_no_tags.
  - destruct (p_tags p) as [tags|] eqn:Hp; [|done]. simpl in Htags. subst tags.
    destruct (tag_to_use_counter p c (x :: l) Hp) as (t & Ht & _); [done|eauto].
Qed.

Lemma save_post_counter_returns p tfd c cap d :
  exists tfd' t d', save_post_using_tag p tfd (TCCounter c) cap d = (Ok (tfd', t), d').
Proof.
  destruct (tag_to_use_counter_returns p c) as [t Ht].
  unfold save_post_using_tag, io_bind, io_lift. rewrite Ht.
  destruct (open_and_write_spec p t tfd d) as (tfd1 & d1 & -> & _).
  unfold close_if_full, io_bind, io_do, io_ret.
  destruct (Z.of_nat (size tfd1) >=? cap); simpl; eauto.
Qed.

Lemma questions_return c cap qs : forall s0 d0,
  (forall q, q ∈ qs -> passed q /\ p_type q = Some 1 /\
     exists id, p_id q = Some id /\ is_Some (question_overview_data s0 !! id)) ->
  exists s1 d1,
    io_fold (question_step (TCCounter c) cap) qs s0 d0 = (Ok s1, d1) /\
    forall id, is_Some (question_overview_data s0 !! id) ->
               is_Some (question_overview_data s1 !! id).
Proof.
  induction qs as [|q qs IH]; intros s0 d0 Hall; simpl.
  - exists s0, d0. done.
  - destruct (Hall q) as (Hpass & Hty & id & Hid & [o Ho]); [apply elem_of_cons; by left|].
    destruct (save_post_counter_returns q (tag_file_descriptors s0) c cap d0)
      as (tfd' & t & d' & Hsave).
    unfold io_bind at 1. unfold question_step, io_bind, io_lift, io_ret.
    unfold passed in Hpass. rewrite Hpass, Hty. simpl. rewrite Hsave, Hid. simpl.
    rewrite Ho. simpl.
    edestruct IH as (s1 & d1 & Hrun & Hdom); [|exists s1, d1; split; [exact Hrun|]].
    + intros q' Hq'. destruct (Hall q') as (? & ? & id' & ? & Hsome);
        [apply elem_of_cons; by right|].
      do 2 (split; [done|]). exists id'. split; [done|]. simpl.
      destruct (decide (id = id')) as [->|Hne].
      * rewrite lookup_insert_eq. eauto.
      * by rewrite lookup_insert_ne.
    + intros id' Hsome. apply Hdom. simpl. destruct (decide (id = id')) as [->|Hne].
      * rewrite lookup_insert_eq. eauto.
      * by rewrite lookup_insert_ne.
Qed.

Lemma answers_return c cap l : forall s0 d0,
  (forall a, a ∈ l -> is_Some (p_parent_id a) /\ is_Some (p_id a)) ->
  exists s1 d1, io_fold (answer_step (TCCounter c) cap) l s0 d0 = (Ok s1, d1).
Proof.
  induction l as [|a l IH]; intros s0 d0 Hall; simpl.
  - by exists s0, d0.
  - destruct (Hall a) as ([parent Hp] & [id Hid]); [apply elem_of_cons; by left|].
    unfold io_bind at 1. unfold answer_step, io_bind, io_lift, io_ret.
    rewrite Hp. simpl.
    destruct (parent ≫= _) as [o|].
    + destruct (save_post_counter_returns (set_tags (o_tags o) a)
                  (tag_file_descriptors s0) c cap d0) as (tfd' & t & d' & ->).
      apply IH. intros a' Ha'. apply Hall, elem_of_cons. by right.
    + rewrite Hid. simpl. apply IH. intros a' Ha'. apply Hall, elem_of_cons. by right.
Qed.

Lemma file_of_type_passed name s posts :
  (forall k, dict_get k (post_files s) =
     if decide (k ∈ dict_keys POST_TYPE_TO_STR)
     then Some (filter (fun p => passed p /\ p_type p = Some k) posts) else None) ->
  name ∈ map snd POST_TYPE_TO_STR ->
  exists k, (k, name) ∈ POST_TYPE_TO_STR /\
    file_of_type POST_TYPE_TO_STR name s =
      Ok (filter (fun p => passed p /\ p_type p = Some k) posts).
Proof.
  intros Hfiles Hin. unfold file_of_type.
  destruct (filter _ POST_TYPE_TO_STR) as [|[k n] rest] eqn:Hf.
  - exfalso. apply list_elem_of_fmap in Hin as ([k n] & -> & Hkn).
    eapply (filter_nil_not_elem_of _ _ _ Hf); [|exact Hkn]. simpl.
    apply Is_true_true, String.eqb_refl.
  - assert (Hkn : (k, n) ∈ filter (fun kv : Z * string => String.eqb (snd kv) name)
                              POST_TYPE_TO_STR)
      by (rewrite Hf; apply elem_of_cons; by left).
    apply list_elem_of_filter in Hkn as [Hn Hkn]. simpl in Hn.
    apply Is_true_true, String.eqb_eq in Hn. subst n.
    exists k. split; [done|]. rewrite Hfiles. rewrite decide_True; [done|].
    unfold dict_keys. apply list_elem_of_fmap. by exists (k, name).
Qed.

Lemma io_bind_Ok {A B} (m : io A) (f : A -> io B) d a d' :
  m d = (Ok a, d') -> io_bind m f d = f a d'.
Proof. intros H. unfold io_bind. by rewrite H. Qed.

Lemma dict_pair_unique {V} (l : list (Z * V)) k a b :
  NoDup (dict_keys l) -> (k, a) ∈ l -> (k, b) ∈ l -> a = b.
Proof.
  intros Hnd Ha Hb. apply (dict_get_in_NoDup _ _ _ Hnd) in Ha.
  apply (dict_get_in_NoDup _ _ _ Hnd) in Hb. congruence.
Qed.

End first_pass_output.

(** What lxml returns for a dump of a question, an answer to it and a row
    of a type that is not kept. *)
Definition row_question : string :=
  "<row Id='10' PostTypeId='1' Body='how' Tags='<python><rocq>' Title='T' />".
Definition row_answer : string := "<row Id='11' PostTypeId='2' Body='so' ParentId='10' />".
Definition row_other : string := "<row Id='12' PostTypeId='3' />".

Definition dump_xml (line : string) : option (list (string * string)) :=
  if String.eqb line row_question then
    Some [("Id", "10"); ("PostTypeId", "1"); ("Body", "how"); ("CreationDate", "2020");
          ("Score", "3"); ("CommentCount", "0"); ("Tags", "<python><rocq>");
          ("Title", "T"); ("AnswerCount", "1"); ("ViewCount", "7")]
  else if String.eqb line row_answer then
    Some [("Id", "11"); ("PostTypeId", "2"); ("Body", "so"); ("CreationDate", "2020");
          ("Score", "1"); ("CommentCount", "0"); ("ParentId", "10")]
  else if String.eqb line row_other then Some [("Id", "12"); ("PostTypeId", "3")]
  else None.

Definition dump_lines : list string := ["<posts>"; row_question; row_answer; row_other].

Definition first_pass (r : res pass1) : pass1 :=
  match r with
  | Ok s => s
  | Raise _ => pass1_init []
  end.

Definition dump_state : pass1 :=
  first_pass (initial_parse_dump dump_xml decimal id post_types dump_lines false).

Lemma dump_stats_count_the_lines_read_witness :
  exists posts,
    parsed_lines dump_xml decimal id dump_lines false = Ok posts /\
    length posts = length dump_lines /\
    (forall i p, posts !! i = Some p -> p_line p = Z.of_nat i) /\
    (forall r, counter_get (failures_counts dump_state) r =
       Z.of_nat (length (filter (fun p => ~ passed p /\ p_result p = r) posts))) /\
    (forall n, counter_get (post_type_counter dump_state) n =
       Z.of_nat (length (filter (fun p => passed p /\ type_name post_types p = Some n)
                           posts))) /\
    (forall t, counter_get (first_tag_counts dump_state) t =
       Z.of_nat (length (filter (fun u => u = t) (tags_in posts)))).
Proof.
  apply (dump_stats_count_the_lines_read dump_xml decimal id post_types dump_lines false
           dump_state).
  vm_compute. reflexivity.
Defined.

Lemma first_pass_writes_every_passed_post_witness :
  exists posts,
    parsed_lines dump_xml decimal id dump_lines false = Ok posts /\
    (forall k, dict_get k (post_files dump_state) =
       if decide (k ∈ dict_keys post_types)
       then Some (filter (fun p => passed p /\ p_type p = Some k) posts) else None) /\
    (forall id, is_Some (overview_data dump_state !! id) <->
       exists q, q ∈ posts /\ passed q /\ p_type q = Some 1 /\ p_id q = Some id) /\
    (forall id o, overview_data dump_state !! id = Some o ->
       exists q, q ∈ posts /\ passed q /\ p_type q = Some 1 /\ p_id q = Some id /\
                 p_tags q = Some (o_tags o)).
Proof.
  apply (first_pass_writes_every_passed_post dump_xml decimal id post_types dump_lines
           false dump_state).
  vm_compute. reflexivity.
Defined.


(** *** Every answer is kept or counted *)

Lemma align_tag_file_expected lines :
  shard_ok lines ->
  align_tag_file lines = Ok (expected_lines lines, expected_orphans lines).
Proof.
  intros Hok. unfold align_tag_file.
  destruct (align_loop_inv lines [] (mkAlign [] []) Hok align_inv_init) as (s & -> & Hinv).
  simpl in Hinv. simpl.
  rewrite (orphan_loop lines s _ 0 Hok Hinv).
  2:{ intros k Hk. destruct (dict_get k (orphaned_children s)) eqn:E; [eauto|].
      by apply dict_get_None in E. }
  simpl. rewrite (rmap_dump lines s Hinv). simpl.
  f_equal. f_equal. unfold expected_orphans. f_equal.
  destruct Hinv as (_ & Hnd & _ & _ & Ha).
  rewrite orphans_at_count by done. rewrite Z.add_0_l. do 2 f_equal.
  apply filter_same. intros a Hin. split; [tauto|]. intros Hn. split; [|done].
  apply Ha, dict_has_get in Hin as [v Hv].
  destruct (decide (the_parent a ∈ dict_keys (orphaned_children s))) as [|Hnin]; [done|].
  apply dict_get_None in Hnin. congruence.
Qed.

Lemma filter_by_keys (answers : list post) (ks : list (option string)) :
  NoDup ks ->
  length (concat (map (fun k => filter (fun a => the_parent a = k) answers) ks)) =
    length (filter (fun a => the_parent a ∈ ks) answers).
Proof.
  induction 1 as [|k ks Hk Hnd IH]; simpl.
  - symmetry. rewrite filter_none; [done|]. intros a _ Hin. by apply elem_of_nil in Hin.
  - rewrite length_app, IH. symmetry. apply filter_length_split.
    + intros a. rewrite elem_of_cons. tauto.
    + intros a -> Hin. done.
Qed.

Lemma filter_or_not {A} (P : A -> Prop) `{forall x, Decision (P x)} (l : list A) :
  (length (filter P l) + length (filter (fun x => ~ P x) l) = length l)%nat.
Proof.
  induction l as [|x l IH]; [done|]. rewrite !filter_cons.
  destruct (decide (P x)) as [Hp|Hp].
  - rewrite decide_False by tauto. simpl. lia.
  - rewrite decide_True by done. simpl. lia.
Qed.



(** *** The counts of Tags.xml *)

Section tags_xml.
Variable etree_XML : string -> option (list (string * string)).

Definition tag_row_ok (d : list (string * string)) : Prop :=
  is_Some (dict_get "TagName" d) /\ is_Some (dict_get "Count" d).

(** The [Count] of a row for the tag [name]. *)
Definition count_for (name : string) (d : list (string * string)) : option string :=
  if decide (dict_get "TagName" d = Some name) then dict_get "Count" d else None.

Lemma last_cons_some {A} (x : A) l :
  last (x :: l) = Some (default x (last l)).
Proof. rewrite last_cons. by destruct (last l). Qed.

Lemma load_tag_counts_loop (l : list string) : forall tc0 : gmap string string,
  match rfold (fun (tc : gmap string string) (line : string) =>
                 match etree_XML line with
                 | None => Ok tc
                 | Some post_dict =>
                     name <~ subscript (dict_get "TagName" post_dict) ;;
                     c <~ subscript (dict_get "Count" post_dict) ;;
                     Ok (<[name := c]> tc)
                 end) l tc0 with
  | Ok tc =>
      Forall tag_row_ok (omap etree_XML l) /\
      forall name, tc !! name =
        match last (omap (count_for name) (omap etree_XML l)) with
        | Some c => Some c
        | None => tc0 !! name
        end
  | Raise e => e = KeyError /\ ~ Forall tag_row_ok (omap etree_XML l)
  end.
Proof.
  induction l as [|line l IH]; intros tc0; simpl; [by split|].
  destruct (etree_XML line) as [d|] eqn:Hd; simpl; [|apply IH].
  destruct (dict_get "TagName" d) as [name0|] eqn:Hn; simpl.
  2:{ split; [done|]. intros [[[? ?] _] _]%Forall_cons. congruence. }
  destruct (dict_get "Count" d) as [c0|] eqn:Hc; simpl.
  2:{ split; [done|]. intros [[_ [? ?]] _]%Forall_cons. congruence. }
  specialize (IH (<[name0 := c0]> tc0)). destruct (rfold _ l _) as [tc|e].
  - destruct IH as [Hall Hget]. split.
    + constructor; [|done]. split; eauto.
    + intros name. rewrite Hget. unfold count_for at 2. rewrite Hn.
      destruct (decide (Some name0 = Some name)) as [[= ->]|Hne].
      * rewrite Hc. rewrite last_cons_some, lookup_insert_eq.
        by destruct (last _).
      * rewrite lookup_insert_ne by congruence. done.
  - destruct IH as [-> Hn']. split; [done|]. intros [_ ?]%Forall_cons. done.
Qed.

(** X9.  [tag_counts] as [parse_so_dump] reads it from Tags.xml: when every
    row that parses has [TagName] and [Count], each tag name is mapped to the
    [Count] of the last row with that name, and names without a row are
    absent; otherwise the loop raises [KeyError].  Lines that do not parse
    are skipped. *)
Theorem tags_xml_last_row_wins (tags_xml : list string) :
  match load_tag_counts etree_XML tags_xml with
  | Ok tc =>
      Forall tag_row_ok (omap etree_XML tags_xml) /\
      forall name, tc !! name = last (omap (count_for name) (omap etree_XML tags_xml))
  | Raise e => e = KeyError /\ ~ Forall tag_row_ok (omap etree_XML tags_xml)
  end.
Proof.
  unfold load_tag_counts. pose proof (load_tag_counts_loop tags_xml ∅) as H.
  destruct (rfold _ tags_xml ∅) as [tc|e]; [|done].
  destruct H as [Hall Hget]. split; [done|]. intros name. rewrite Hget.
  rewrite lookup_empty. by destruct (last _).
Qed.
End tags_xml.

(** *** The two passes and the alignment together *)

Lemma sublist_filter_impl {A} (P Q : A -> Prop) `{forall x, Decision (P x)}
    `{forall x, Decision (Q x)} (l : list A) :
  (forall x, P x -> Q x) -> filter P l `sublist_of` filter Q l.
Proof.
  intros Hpq. induction l as [|x l IH]; [done|].
  rewrite !filter_cons. destruct (decide (P x)) as [Hp|Hp].
  - rewrite decide_True by auto. by constructor.
  - destruct (decide (Q x)); [by constructor|done].
Qed.

Lemma filter_all {A} (P : A -> Prop) `{forall x, Decision (P x)} (l : list A) :
  (forall x, x ∈ l -> P x) -> filter P l = l.
Proof.
  induction l as [|x l IH]; intros Hall; [done|].
  rewrite filter_cons_True by (apply Hall, elem_of_cons; by left).
  f_equal. apply IH. intros y Hy. apply Hall, elem_of_cons. by right.
Qed.

Lemma tag_of_tags tc p q : p_tags p = p_tags q -> tag_of tc p = tag_of tc q.
Proof. unfold tag_of, tag_to_use_of. by intros ->. Qed.

Lemma answer_kept_Some qod a a' :
  answer_kept qod a = Some a' ->
  exists k o, the_parent a = Some k /\ qod !! k = Some o /\ a' = set_tags (o_tags o) a.
Proof.
  unfold answer_kept, the_parent. destruct (default None (p_parent_id a)) as [k|]; [|done].
  simpl. destruct (qod !! k) as [o|] eqn:Ho; [|done]. intros [= <-]. by exists k, o.
Qed.

Lemma answer_kept_ids qod l :
  map the_id (omap (answer_kept qod) l) `sublist_of` map the_id l.
Proof.
  induction l as [|a l IH]; [done|].
  change (omap (answer_kept qod) (a :: l)) with
    (match answer_kept qod a with
     | Some a' => a' :: omap (answer_kept qod) l
     | None => omap (answer_kept qod) l
     end).
  destruct (answer_kept qod a) as [a'|] eqn:Ha.
  - apply answer_kept_Some in Ha as (k & o & _ & _ & ->). simpl. by constructor.
  - simpl. by constructor.
Qed.

Section pipeline.
Variable etree_XML : string -> option (list (string * string)).
Variable py_int : string -> option Z.
Variable unidecode : string -> string.
Variable POST_TYPE_TO_STR : list (Z * string).

End pipeline.

Definition dump_posts : list post :=
  Eval vm_compute in
    match parsed_lines dump_xml decimal id dump_lines false with
    | Ok posts => posts
    | Raise _ => []
    end.

Definition dump_shard : list post :=
  Eval vm_compute in
    default [] (files (snd (parse_so_dump_passes dump_xml decimal id post_types
                              dump_lines None false)) !! shard_name "python").


End DumpParsing.

(** ** The experiment composer *)

Module Experiments.

Section values.
(** What a config holds besides dicts: strings, numbers, booleans, [None],
    lists. *)
Variable atom : Type.

Inductive value :=
| VAtom (a : atom)
| VDict (d : list (string * value)).

(** Python's [==] between two values that are not both dicts. *)
Variable py_eq : value -> value -> bool.

(** One iteration of the loop of [merge] per item of [b]; [mv] is what
    [a[key]] becomes when the key is in [a]. *)
Fixpoint merge_items (mv : value -> value -> value)
    (a b : list (string * value)) : list (string * value) :=
  match b with
  | [] => a
  | (key, bv) :: b' =>
      merge_items mv
        (match dict_get key a with
         | Some av => dict_set key (mv av bv) a
         | None => dict_set key bv a
         end) b'
  end.

(** [a[key]] after the iteration for [key], from [a[key]] and [b[key]]:
    merged in place when both are dicts, kept when they are equal, and
    replaced by [b[key]] otherwise. *)
Fixpoint merge_value (av bv : value) {struct bv} : value :=
  match bv with
  | VDict db =>
      match av with
      | VDict da => VDict (merge_items merge_value da db)
      | VAtom _ => if py_eq av bv then av else bv
      end
  | VAtom _ => if py_eq av bv then av else bv
  end.

(** [merge(a, b)]: the dict [a] after the call, which is also what it
    returns.  [a] and [b] are distinct objects, as at both calls in
    [get_experiment_card_cfg_from_dict], where [a] is a fresh deep copy. *)
Definition merge (a b : list (string * value)) : list (string * value) :=
  merge_items merge_value a b.

(** Lines 302-308: the overrides of a card. *)
Definition card_overrides_of (experiment_overrides ablation_overrides
    step_overrides : list (string * value)) : list (string * value) :=
  merge (merge experiment_overrides ablation_overrides) step_overrides.

(** The value at a path of keys. *)
Fixpoint lookup_path (path : list string) (v : value) : option value :=
  match path with
  | [] => Some v
  | k :: path' =>
      match v with
      | VDict d => dict_get k d ≫= lookup_path path'
      | VAtom _ => None
      end
  end.

Definition is_dict (v : value) : bool :=
  match v with
  | VDict _ => true
  | VAtom _ => false
  end.
End values.

Arguments VAtom {atom} a.
Arguments VDict {atom} d.
Arguments merge_items {atom} mv a b.
Arguments merge_value {atom} py_eq av bv.
Arguments merge {atom} py_eq a b.
Arguments card_overrides_of {atom} py_eq _ _ _.
Arguments lookup_path {atom} path v.
Arguments is_dict {atom} v.

(** *** [get_all_ablation_combinations], on a heap of dict objects

    The function receives dicts that its caller goes on using, copies some
    of them and fills new ones: dict objects live in a heap, and a value is
    an atom or the address of a dict.  Objects are never freed, and a new
    one takes the next address. *)

Section heap.
Variable atom : Type.

Inductive hval :=
| HAtom (a : atom)
| HRef (l : nat).

(** Code that reads and writes the heap and may raise. *)
Definition hp (A : Type) : Type := list (list (string * hval)) -> res A * list (list (string * hval)).

Definition hp_ret {A} (a : A) : hp A := fun h => (Ok a, h).

Definition hp_bind {A B} (m : hp A) (f : A -> hp B) : hp B :=
  fun h =>
    match m h with
    | (Ok a, h') => f a h'
    | (Raise e, h') => (Raise e, h')
    end.

Definition hp_lift {A} (r : res A) : hp A := fun h => (r, h).

Notation "x <-- m ;; k" := (hp_bind m (fun x => k))
  (at level 100, m at next level, right associativity).

Fixpoint hp_map {A B} (f : A -> hp B) (l : list A) : hp (list B) :=
  match l with
  | [] => hp_ret []
  | x :: l' => y <-- f x ;; ys <-- hp_map f l' ;; hp_ret (y :: ys)
  end.

(** A new dict object. *)
Definition alloc (o : list (string * hval)) : hp nat :=
  fun h => (Ok (length h), h ++ [o]).

Definition load (l : nat) : hp (list (string * hval)) :=
  fun h => (subscript (h !! l), h).

Definition store (l : nat) (o : list (string * hval)) : hp unit :=
  fun h => (Ok tt, <[l := o]> h).

(** The dict a value is, where the code needs one. *)
Definition deref (v : hval) : hp (list (string * hval)) :=
  match v with
  | HRef l => load l
  | HAtom _ => hp_lift (Raise TypeError)
  end.

(** [copy.deepcopy]: an atom is returned as it is and a dict is copied,
    values first, into a new object.  [fuel] is the depth of recursion the
    interpreter allows. *)
Fixpoint deepcopy (fuel : nat) (v : hval) {struct fuel} : hp hval :=
  match v with
  | HAtom a => hp_ret (HAtom a)
  | HRef l =>
      match fuel with
      | O => hp_lift (Raise RecursionError)
      | S fuel' =>
          o <-- load l ;;
          o' <-- hp_map (fun kv => x <-- deepcopy fuel' (snd kv) ;; hp_ret (fst kv, x)) o ;;
          l' <-- alloc o' ;;
          hp_ret (HRef l')
      end
  end.

(** [itertools.product] of the lists: the first list varies slowest. *)
Fixpoint product {A} (lists : list (list A)) : list (list A) :=
  match lists with
  | [] => [[]]
  | l :: lists' => flat_map (fun x => map (cons x) (product lists')) l
  end.

(** Lines 147-152: the name of an ablation and the names of its values. *)
Definition read_ablation (ablation : hval) : hp (string * list string) :=
  o <-- deref ablation ;;
  match o with
  | [] => hp_lift (Raise IndexError)
  | (name, _) :: _ =>
      x <-- hp_lift (subscript (dict_get name o)) ;;
      ablations <-- deref x ;;
      hp_ret (name, dict_keys ablations)
  end.

(** Lines 159-161, for the value [ablation] chosen at index [i]: the dict
    [combo_dict] is the object at [combo_dict]. *)
Definition apply_ablation (fuel : nat) (ablation_list : list hval)
    (ablation_names : list string) (combo_dict : nat) (i : nat) (ablation : string)
    : hp unit :=
  entry <-- hp_lift (match ablation_list !! i with
                     | Some e => Ok e
                     | None => Raise IndexError
                     end) ;;
  o <-- deref entry ;;
  name <-- hp_lift (match ablation_names !! i with
                    | Some n => Ok n
                    | None => Raise IndexError
                    end) ;;
  x <-- hp_lift (subscript (dict_get name o)) ;;
  ablations <-- deref x ;;
  ablation_override_dict <-- hp_lift (subscript (dict_get ablation ablations)) ;;
  copy <-- deepcopy fuel ablation_override_dict ;;
  items <-- deref copy ;;
  current <-- load combo_dict ;;
  store combo_dict (dict_update current items).

Fixpoint apply_ablations (fuel : nat) (ablation_list : list hval)
    (ablation_names : list string) (combo_dict : nat) (i : nat)
    (ablation_combo : list string) : hp unit :=
  match ablation_combo with
  | [] => hp_ret tt
  | ablation :: rest =>
      _ <-- apply_ablation fuel ablation_list ablation_names combo_dict i ablation ;;
      apply_ablations fuel ablation_list ablation_names combo_dict (S i) rest
  end.

(** Lines 156-162: one entry of [out]. *)
Definition make_combo (fuel : nat) (ablation_list : list hval)
    (ablation_names : list string) (ablation_combo : list string)
    : hp (string * hval) :=
  combo_dict <-- alloc [] ;;
  _ <-- apply_ablations fuel ablation_list ablation_names combo_dict 0 ablation_combo ;;
  hp_ret (String.concat "." ablation_combo, HRef combo_dict).

Definition get_all_ablation_combinations (fuel : nat) (ablation_list : list hval)
    : hp (list (string * hval)) :=
  read <-- hp_map read_ablation ablation_list ;;
  let ablation_names := map fst read in
  let all_keys := map snd read in
  hp_map (make_combo fuel ablation_list ablation_names) (product all_keys).

(** What the claim says of the result: the ablations as data, every one a
    name and its values, every value a name and its overrides. *)
Definition combinations_spec
    (ablations : list (string * list (string * list (string * value atom))))
    : list (string * list (string * value atom)) :=
  map (fun combo => (String.concat "." (map fst combo),
                     fold_left dict_update (map snd combo) []))
      (product (map snd ablations)).
End heap.

Arguments HAtom {atom} a.
Arguments HRef {atom} l.
Arguments hp_ret {atom A} a.
Arguments hp_bind {atom A B} m f.
Arguments hp_lift {atom A} r.
Arguments hp_map {atom A B} f l.
Arguments alloc {atom} o.
Arguments load {atom} l.
Arguments store {atom} l o.
Arguments deref {atom} v.
Arguments deepcopy {atom} fuel v.
Arguments read_ablation {atom} ablation.
Arguments apply_ablation {atom} fuel ablation_list ablation_names combo_dict i ablation.
Arguments apply_ablations {atom} fuel ablation_list ablation_names combo_dict i ablation_combo.
Arguments make_combo {atom} fuel ablation_list ablation_names ablation_combo.
Arguments get_all_ablation_combinations {atom} fuel ablation_list.
Arguments combinations_spec {atom} ablations.

(** *** Experiment cards and [load_composed_experiments_from_file] *)

Section cards.
Variable atom : Type.

Record ExperimentCard := mkCard {
  name : string;
  base : string;
  group : string;
  overrides : list (string * value atom);
  depends_on : option string
}.

(** The property [save_name]: [f"{self.group}.{self.name}"]. *)
Definition save_name (c : ExperimentCard) : string :=
  (group c ++ "." ++ name c)%string.

Record ComposedExperiments := mkComposed {
  composed_name : string;
  step_cards : list (string * ExperimentCard);
  command_template : option string;
  command_kwargs : list (string * value atom)
}.

(** [ComposedExperiments.values] *)
Definition values (c : ComposedExperiments) : list ExperimentCard :=
  map snd (step_cards c).

(** [collections.Counter(iterable)]: the count of every element, in the
    order of first occurrence. *)
Definition Counter (l : list string) : list (string * Z) :=
  fold_left (fun c k => dict_set k (default 0 (dict_get k c) + 1) c) l [].

Definition all_save_names (composed : list ComposedExperiments) : list string :=
  flat_map (fun ablation => map save_name (values ablation)) composed.

(** Lines 373-377. *)
Definition duplicated_names (composed : list ComposedExperiments) : list string :=
  map fst (filter (fun kv => 1 <? snd kv) (Counter (all_save_names composed))).

(** [get_experiment_card_cfg_from_dict(name, experiment_dict)], consumed
    into a list: it runs Hydra, OmegaConf and Jinja2, and the duplicate
    check below holds for whatever cards it yields. *)
Variable get_experiment_card_cfg_from_dict :
  string -> value atom -> res (list ComposedExperiments).
(** ["experiments" not in x] and [len(x)] for a loaded document that is
    not a mapping: [None] when Python raises [TypeError]. *)
Variable atom_contains : atom -> string -> option bool.
Variable atom_has_len : atom -> bool.

(** Lines 362-369. *)
Definition compose_all (experiments : list (string * value atom))
    : res (list ComposedExperiments) :=
  rfold (fun composed ne =>
           cards <~ get_experiment_card_cfg_from_dict (fst ne) (snd ne) ;;
           Ok (composed ++ cards))
        experiments [].

(** [load_composed_experiments_from_file]: [exists] is
    [experiment_card_path.exists()] and [experiment_card_dict] what
    [yaml.load] returns for the file. *)
Definition load_composed_experiments_from_file (exists_ : bool)
    (experiment_card_dict : value atom)
    : res (list ComposedExperiments * option (value atom)) :=
  if negb exists_ then Raise FileExistsError else
  has <~ match experiment_card_dict with
         | VDict d => Ok (dict_has "experiments" d)
         | VAtom a => match atom_contains a "experiments" with
                      | Some b => Ok b
                      | None => Raise TypeError
                      end
         end ;;
  if negb has then Raise KeyError else
  match experiment_card_dict with
  | VAtom _ => Raise AttributeError
  | VDict d =>
      match dict_get "experiments" d with
      | Some (VDict experiments) =>
          composed_experiments <~ compose_all experiments ;;
          match duplicated_names composed_experiments with
          | [] => Ok (composed_experiments, dict_get "starting_commands" d)
          | _ :: _ => Raise ValueError
          end
      | Some (VAtom a) =>
          if atom_has_len a then Raise AttributeError else Raise TypeError
      | None => Raise TypeError
      end
  end.
End cards.

Arguments mkCard {atom} _ _ _ _ _.
Arguments name {atom} _.
Arguments base {atom} _.
Arguments group {atom} _.
Arguments overrides {atom} _.
Arguments depends_on {atom} _.
Arguments save_name {atom} c.
Arguments mkComposed {atom} _ _ _ _.
Arguments composed_name {atom} _.
Arguments step_cards {atom} _.
Arguments values {atom} c.
Arguments all_save_names {atom} composed.
Arguments duplicated_names {atom} composed.
Arguments compose_all {atom} _ experiments.
Arguments load_composed_experiments_from_file {atom} _ _ _ exists_ experiment_card_dict.

(** *** What [get_all_ablation_combinations] returns and leaves alone *)

Section heap_facts.
Variable atom : Type.

Local Open Scope nat_scope.

Local Abbreviation heap := (list (list (string * hval atom))).

(** Two lists of the same length whose elements are related in pairs. *)
Fixpoint all2 {A B} (R : A -> B -> Prop) (l1 : list A) (l2 : list B) : Prop :=
  match l1, l2 with
  | [], [] => True
  | x :: l1', y :: l2' => R x y /\ all2 R l1' l2'
  | _, _ => False
  end.

(** The entries of a dict object against those of a dict of values. *)
Definition rel_dict {A B} (P : A -> B -> Prop) (d : list (string * A))
    (o : list (string * B)) : Prop :=
  all2 (fun kt kv => fst kt = fst kv /\ P (snd kt) (snd kv)) d o.

(** [v] is the value [t] in the heap [h], in objects at addresses from [n]
    on. *)
Fixpoint repr (n : nat) (h : heap) (t : value atom) (v : hval atom) {struct t} : Prop :=
  match t with
  | VAtom a => v = HAtom a
  | VDict d =>
      exists l o, v = HRef l /\ n <= l /\ h !! l = Some o /\
                  rel_dict (fun t' v' => repr n h t' v') d o
  end.

Fixpoint height (t : value atom) : nat :=
  match t with
  | VAtom _ => 0
  | VDict d => S (fold_right (fun kv acc => Nat.max (height (snd kv)) acc) 0 d)
  end.

Fixpoint value_rect' (P : value atom -> Type)
    (Ha : forall a, P (VAtom a))
    (Hd : forall d,
        (fix all (d : list (string * value atom)) : Type :=
           match d with
           | [] => unit
           | kv :: d' => (P (snd kv) * all d')%type
           end) d -> P (VDict d))
    (t : value atom) : P t :=
  match t with
  | VAtom a => Ha a
  | VDict d =>
      Hd d ((fix go (d : list (string * value atom)) :=
               match d return
                 (fix all (d : list (string * value atom)) : Type :=
                    match d with
                    | [] => unit
                    | kv :: d' => (P (snd kv) * all d')%type
                    end) d
               with
               | [] => tt
               | kv :: d' => (value_rect' P Ha Hd (snd kv), go d')
               end) d)
  end.

Lemma value_ind' (P : value atom -> Prop) :
  (forall a, P (VAtom a)) ->
  (forall d, Forall (fun kv => P (snd kv)) d -> P (VDict d)) ->
  forall t, P t.
Proof.
  intros Ha Hd. apply value_rect'; [exact Ha|].
  intros d Hall. apply Hd. induction d as [|kv d IH]; [constructor|].
  destruct Hall as [Hkv Hall]. constructor; [exact Hkv|exact (IH Hall)].
Qed.

Lemma rel_dict_impl {A B} (P Q : A -> B -> Prop) (d : list (string * A)) :
  forall o, Forall (fun kt => forall v, P (snd kt) v -> Q (snd kt) v) d ->
            rel_dict P d o -> rel_dict Q d o.
Proof.
  unfold rel_dict. induction d as [|kt d IH]; intros [|kv o] Hall; simpl; try done.
  apply Forall_cons in Hall as [Hkt Hall]. intros [[Hk Hp] Hrest].
  split; [split; [done|by apply Hkt]|by apply IH].
Qed.

Lemma rel_dict_keys {A B} (P : A -> B -> Prop) (d : list (string * A)) :
  forall o, rel_dict P d o -> dict_keys o = dict_keys d.
Proof.
  unfold rel_dict. induction d as [|kt d IH]; intros [|kv o]; simpl; try done.
  intros [[Hk _] Hrest]. rewrite Hk. f_equal. by apply IH.
Qed.

Lemma rel_dict_get {A B} (P : A -> B -> Prop) (d : list (string * A)) k :
  forall o, rel_dict P d o ->
    match dict_get k d, dict_get k o with
    | Some t, Some v => P t v
    | None, None => True
    | _, _ => False
    end.
Proof.
  unfold rel_dict. induction d as [|[k1 t] d IH]; intros [|[k2 v] o]; simpl; try done.
  intros [[Hk Hp] Hrest]. simpl in Hk. subst k2.
  destruct (decide (k = k1)); [done|by apply IH].
Qed.

Lemma rel_dict_set {A B} (P : A -> B -> Prop) k t v (d : list (string * A)) :
  forall o, rel_dict P d o -> P t v -> rel_dict P (dict_set k t d) (dict_set k v o).
Proof.
  unfold rel_dict. induction d as [|[k1 t1] d IH]; intros [|[k2 v2] o]; simpl; try done.
  intros [[Hk Hp] Hrest] Hnew. simpl in Hk. subst k2.
  destruct (decide (k = k1)); simpl; [done|]. split; [done|by apply IH].
Qed.

Lemma rel_dict_update {A B} (P : A -> B -> Prop) (d2 : list (string * A)) :
  forall o2 d1 o1, rel_dict P d1 o1 -> rel_dict P d2 o2 ->
    rel_dict P (dict_update d1 d2) (dict_update o1 o2).
Proof.
  unfold dict_update.
  induction d2 as [|[k t] d2 IH]; intros [|[k' v] o2] d1 o1 H1 H2; simpl; try done.
  destruct H2 as [[Hk Hp] H2]. simpl in Hk. subst k'.
  apply IH; [|done]. by apply rel_dict_set.
Qed.

(** Heaps that agree from [n] on represent the same values there. *)
Lemma repr_agree n (h h' : heap) t : forall v,
  (forall l o, n <= l -> h !! l = Some o -> h' !! l = Some o) ->
  repr n h t v -> repr n h' t v.
Proof.
  induction t as [a|d IH] using value_ind'; intros v Hag; simpl; [done|].
  intros (l & o & -> & Hn & Hl & Hrel). exists l, o. repeat split; [done|by apply Hag|].
  revert Hrel. apply rel_dict_impl.
  eapply Forall_impl; [exact IH|]. simpl. intros kt Hkt v Hv. by apply Hkt.
Qed.

Lemma repr_app n (h k : heap) t v : repr n h t v -> repr n (h ++ k) t v.
Proof. apply repr_agree. intros l o _ Hl. by apply lookup_app_l_Some. Qed.

Lemma repr_weaken n n' (h : heap) t : forall v, n' <= n -> repr n h t v -> repr n' h t v.
Proof.
  induction t as [a|d IH] using value_ind'; intros v Hle; simpl; [done|].
  intros (l & o & -> & Hn & Hl & Hrel). exists l, o. repeat split; [lia|done|].
  revert Hrel. apply rel_dict_impl.
  eapply Forall_impl; [exact IH|]. simpl. intros kt Hkt v Hv. by apply Hkt.
Qed.

Lemma height_entries (d : list (string * value atom)) f :
  fold_right (fun kv acc => Nat.max (height (snd kv)) acc) 0 d <= f ->
  Forall (fun kv => height (snd kv) <= f) d.
Proof.
  induction d as [|kv d IH]; simpl; intros Hle; constructor; [lia|apply IH; lia].
Qed.

Definition copy_entry (fuel : nat) (kv : string * hval atom) : hp atom (string * hval atom) :=
  hp_bind (deepcopy fuel (snd kv)) (fun x => hp_ret (fst kv, x)).

Lemma copy_entries_spec n f (d : list (string * value atom)) :
  Forall (fun kt => forall v (h : heap),
            repr 0 h (snd kt) v -> height (snd kt) <= f -> n <= length h ->
            exists v' k, deepcopy f v h = (Ok v', h ++ k) /\ repr n (h ++ k) (snd kt) v') d ->
  Forall (fun kt => height (snd kt) <= f) d ->
  forall o (h : heap),
    rel_dict (repr 0 h) d o -> n <= length h ->
    exists o' k, hp_map (copy_entry f) o h = (Ok o', h ++ k) /\
                 rel_dict (repr n (h ++ k)) d o'.
Proof.
  induction 1 as [|kt d Hkt _ IH]; intros Hh [|kv o] h Hrel Hn; try done.
  - exists [], []. by rewrite app_nil_r.
  - apply Forall_cons in Hh as [Hh1 Hh]. destruct Hrel as [[Hk Hr] Hrel].
    destruct (Hkt (snd kv) h Hr Hh1 Hn) as (x' & k1 & Hcopy & Hx').
    destruct (IH Hh o (h ++ k1)) as (o' & k2 & Hrest & Ho').
    { revert Hrel. apply rel_dict_impl, Forall_forall. intros ? _ ?. apply repr_app. }
    { rewrite length_app. lia. }
    exists ((fst kv, x') :: o'), (k1 ++ k2). split.
    + simpl. unfold hp_bind at 1. unfold copy_entry at 1. unfold hp_bind at 1.
      rewrite Hcopy. unfold hp_ret at 1. unfold hp_bind at 1. rewrite Hrest.
      unfold hp_ret. by rewrite app_assoc.
    + rewrite app_assoc. split; [split; [done|by apply repr_app]|done].
Qed.

(** [deepcopy] returns a copy made of new objects, and changes no object. *)
Lemma deepcopy_spec n t : forall v (h : heap) fuel,
  repr 0 h t v -> height t <= fuel -> n <= length h ->
  exists v' k, deepcopy fuel v h = (Ok v', h ++ k) /\ repr n (h ++ k) t v'.
Proof.
  induction t as [a|d IH] using value_ind'; intros v h fuel Hr Hh Hn.
  - simpl in Hr. subst v. exists (HAtom a), []. rewrite app_nil_r.
    split; [by destruct fuel|done].
  - destruct Hr as (l & o & -> & _ & Hl & Hrel). simpl in Hh.
    destruct fuel as [|f]; [lia|]. apply le_S_n, height_entries in Hh.
    destruct (copy_entries_spec n f d) with (o := o) (h := h) as (o' & k & Hcopy & Ho');
      try done.
    { eapply Forall_impl; [exact IH|]. simpl. intros kt Hkt v h' Hv Hle Hn'.
      by apply Hkt. }
    exists (HRef (length (h ++ k))), (k ++ [o']). split.
    + simpl. unfold hp_bind at 1. unfold load. rewrite Hl. simpl.
      unfold hp_bind at 1. fold (copy_entry f). rewrite Hcopy.
      unfold hp_bind, alloc, hp_ret. by rewrite app_assoc.
    + exists (length (h ++ k)), o'. rewrite app_assoc. repeat split.
      * rewrite length_app. lia.
      * apply list_lookup_middle. done.
      * revert Ho'. apply rel_dict_impl, Forall_forall. intros ? _ ?. apply repr_app.
Qed.

(** Every object of [h] is in [h'], unchanged. *)
Definition sub (h h' : heap) : Prop :=
  forall l o, h !! l = Some o -> h' !! l = Some o.

Lemma sub_refl (h : heap) : sub h h.
Proof. by intros l o. Qed.

Lemma sub_trans (h1 h2 h3 : heap) : sub h1 h2 -> sub h2 h3 -> sub h1 h3.
Proof. intros H12 H23 l o Hl. by apply H23, H12. Qed.

Lemma sub_app (h k : heap) : sub h (h ++ k).
Proof. intros l o. apply lookup_app_l_Some. Qed.

Lemma sub_prefix (h : heap) : forall h', sub h h' -> exists k, h' = h ++ k.
Proof.
  induction h as [|o h IH]; intros h' Hsub; [by exists h'|].
  destruct h' as [|o' h']; [by specialize (Hsub 0 o eq_refl)|].
  pose proof (Hsub 0 o eq_refl) as [= ->].
  destruct (IH h') as [k ->]; [|by exists k].
  intros l x Hl. by apply (Hsub (S l)).
Qed.

Lemma repr_sub n (h h' : heap) t v : sub h h' -> repr n h t v -> repr n h' t v.
Proof. intros Hsub. apply repr_agree. intros l o _. apply Hsub. Qed.

(** An ablation of the list, as data: its name, and its values with their
    overrides.  The dict of the ablation may hold more keys after the
    first, which the code does not read. *)
Definition repr_ablation (h : heap) (ablation : hval atom)
    (a : string * list (string * list (string * value atom))) : Prop :=
  exists l rest m vals,
    ablation = HRef l /\ h !! l = Some ((fst a, HRef m) :: rest) /\
    h !! m = Some vals /\
    rel_dict (fun d v => repr 0 h (VDict d) v) (snd a) vals.

Lemma read_ablation_spec (hb h : heap) ablation a :
  sub hb h -> repr_ablation hb ablation a ->
  read_ablation ablation h = (Ok (fst a, map fst (snd a)), h).
Proof.
  intros Hsub (l & rest & m & vals & -> & Hl & Hm & Hrel).
  unfold read_ablation. simpl. unfold hp_bind at 1. unfold load at 1.
  rewrite (Hsub _ _ Hl). simpl. rewrite decide_True by done.
  unfold hp_bind at 1. unfold hp_lift at 1. simpl.
  unfold hp_bind at 1. unfold load. rewrite (Hsub _ _ Hm). simpl.
  unfold hp_ret. by rewrite (rel_dict_keys _ _ _ Hrel).
Qed.

Lemma read_ablations_spec (h : heap) ablation_list :
  forall ablations, Forall2 (repr_ablation h) ablation_list ablations ->
  hp_map read_ablation ablation_list h =
    (Ok (map (fun a => (fst a, map fst (snd a))) ablations), h).
Proof.
  induction ablation_list as [|x l IH]; intros ablations Hall.
  - apply Forall2_nil_inv_l in Hall. by subst.
  - apply Forall2_cons_inv_l in Hall as (a & ablations' & Ha & Hall & ->). simpl.
    unfold hp_bind at 1. rewrite (read_ablation_spec h h x a (sub_refl h) Ha).
    unfold hp_bind at 1. rewrite (IH _ Hall). done.
Qed.

(** The value chosen at one position of a combination: its name, its
    overrides, and the ablation it is a value of. *)
Definition chosen (xd : string * list (string * value atom))
    (a : string * list (string * list (string * value atom))) : Prop :=
  xd ∈ snd a.

Lemma apply_ablation_spec fuel (hb hk : heap) ablation_list ablations c i a x d dcur cur :
  Forall2 (repr_ablation hb) ablation_list ablations ->
  ablations !! i = Some a -> (x, d) ∈ snd a -> NoDup (map fst (snd a)) ->
  height (VDict d) <= fuel ->
  sub hb hk -> length hb <= c -> hk !! c = Some cur ->
  rel_dict (repr (S c) hk) dcur cur ->
  exists hk' cur',
    apply_ablation fuel ablation_list (map fst ablations) c i x hk = (Ok tt, hk') /\
    (forall l o, l <> c -> hk !! l = Some o -> hk' !! l = Some o) /\
    hk' !! c = Some cur' /\
    rel_dict (repr (S c) hk') (dict_update dcur d) cur'.
Proof.
  intros Hall Hi Hin Hnd Hfuel Hsub Hc Hcur Hrel.
  destruct (Forall2_lookup_r _ _ _ _ _ Hall Hi) as (entry & Hentry & Ha).
  destruct Ha as (l & rest & m & vals & -> & Hl & Hm & Hvals).
  pose proof (rel_dict_get _ _ x _ Hvals) as Hget.
  rewrite (dict_get_in_NoDup x d (snd a) Hnd Hin) in Hget.
  destruct (dict_get x vals) as [v|] eqn:Hv; [|done].
  assert (Hclt : c < length hk) by (by eapply lookup_lt_Some).
  destruct (deepcopy_spec (S c) (VDict d) v hk fuel) as (v' & k & Hcopy & Hv');
    [by eapply repr_sub|done|lia|].
  pose proof Hv' as (l' & items & -> & Hl' & Hitems & Hrel').
  exists (<[c := dict_update cur items]> (hk ++ k)), (dict_update cur items).
  assert (Hag : forall l0 o, S c <= l0 -> (hk ++ k) !! l0 = Some o ->
                  <[c := dict_update cur items]> (hk ++ k) !! l0 = Some o).
  { intros l0 o Hle Hl0. rewrite list_lookup_insert_ne by lia. done. }
  split; [|split; [|split]].
  - unfold apply_ablation, hp_bind, hp_lift, deref, load, store, hp_ret.
    rewrite Hentry, list_lookup_fmap, Hi. simpl.
    rewrite (Hsub _ _ Hl). simpl. rewrite decide_True by done. simpl.
    rewrite (Hsub _ _ Hm). simpl. rewrite Hv. simpl.
    unfold hp_bind, hp_lift, load, hp_ret in Hcopy. simpl in Hcopy. rewrite Hcopy.
    rewrite Hitems. simpl. rewrite (lookup_app_l_Some _ _ _ _ Hcur). simpl. done.
  - intros l0 o Hne Hl0. rewrite list_lookup_insert_ne by done.
    by apply lookup_app_l_Some.
  - apply list_lookup_insert_eq. rewrite length_app. lia.
  - apply rel_dict_update.
    + revert Hrel. apply rel_dict_impl, Forall_forall. intros kt _ w Hw.
      apply repr_agree with (h := hk ++ k); [done|by apply repr_app].
    + revert Hrel'. apply rel_dict_impl, Forall_forall. intros kt _ w Hw.
      by apply repr_agree with (h := hk ++ k).
Qed.

(** The overrides of an ablation list are no deeper than [fuel]. *)
Definition depth_ok (fuel : nat)
    (ablations : list (string * list (string * list (string * value atom)))) : Prop :=
  Forall (fun a => Forall (fun xd => height (VDict (snd xd)) <= fuel) (snd a)) ablations.

(** The value names of an ablation are distinct, as the keys of a dict. *)
Definition names_ok
    (ablations : list (string * list (string * list (string * value atom)))) : Prop :=
  Forall (fun a => NoDup (map fst (snd a))) ablations.

Lemma apply_ablations_spec fuel (hb : heap) ablation_list ablations c :
  Forall2 (repr_ablation hb) ablation_list ablations ->
  depth_ok fuel ablations -> names_ok ablations -> length hb <= c ->
  forall sel i (hk : heap) dcur cur,
    Forall2 chosen sel (drop i ablations) ->
    sub hb hk -> hk !! c = Some cur -> rel_dict (repr (S c) hk) dcur cur ->
    exists hk' cur',
      apply_ablations fuel ablation_list (map fst ablations) c i (map fst sel) hk
        = (Ok tt, hk') /\
      (forall l o, l <> c -> hk !! l = Some o -> hk' !! l = Some o) /\
      hk' !! c = Some cur' /\
      rel_dict (repr (S c) hk') (fold_left dict_update (map snd sel) dcur) cur'.
Proof.
  intros Hall Hdepth Hnames Hc sel.
  induction sel as [|[x d] sel IH]; intros i hk dcur cur Hsel Hsub Hcur Hrel; simpl.
  - exists hk, cur. by repeat split.
  - apply Forall2_cons_inv_l in Hsel as (a & rest & Hxd & Hsel & Hdrop).
    assert (Hi : ablations !! i = Some a).
    { pose proof (lookup_drop ablations i 0) as Hl. rewrite Hdrop in Hl.
      simpl in Hl. by rewrite Nat.add_0_r in Hl. }
    assert (Hrest : rest = drop (S i) ablations).
    { pose proof (drop_S _ _ _ Hi) as Hd. rewrite Hdrop in Hd. by injection Hd. }
    destruct (apply_ablation_spec fuel hb hk ablation_list ablations c i a x d dcur cur)
      as (hk1 & cur1 & Hstep & Hkeep1 & Hcur1 & Hrel1); try done.
    { apply (proj1 (Forall_lookup _ _) Hnames i a Hi). }
    { pose proof (proj1 (Forall_lookup _ _) Hdepth i a Hi) as Hd.
      apply (proj1 (Forall_forall _ _) Hd (x, d) Hxd). }
    assert (Hsub1 : sub hb hk1).
    { intros l o Hl. apply Hkeep1; [|by apply Hsub].
      apply lookup_lt_Some in Hl. lia. }
    destruct (IH (S i) hk1 (dict_update dcur d) cur1) as (hk' & cur' & Hloop & Hkeep & Hcur' & Hrel');
      [by rewrite <- Hrest|done..|].
    exists hk', cur'. split; [|split; [|done]].
    + unfold hp_bind. rewrite Hstep. done.
    + intros l o Hne Hl. by apply Hkeep, Hkeep1.
Qed.

Definition combo_dict_of (sel : list (string * list (string * value atom)))
    : list (string * value atom) :=
  fold_left dict_update (map snd sel) [].

Lemma make_combo_spec fuel (hb hc : heap) ablation_list ablations sel :
  Forall2 (repr_ablation hb) ablation_list ablations ->
  depth_ok fuel ablations -> names_ok ablations ->
  Forall2 chosen sel ablations -> sub hb hc ->
  exists v hf,
    make_combo fuel ablation_list (map fst ablations) (map fst sel) hc
      = (Ok (String.concat "." (map fst sel), v), hf) /\
    sub hc hf /\ repr (length hb) hf (VDict (combo_dict_of sel)) v.
Proof.
  intros Hall Hdepth Hnames Hsel Hsub.
  assert (Hlen : length hb <= length hc).
  { destruct (sub_prefix hb hc Hsub) as [k ->]. rewrite length_app. lia. }
  destruct (apply_ablations_spec fuel hb ablation_list ablations (length hc) Hall Hdepth
              Hnames Hlen sel 0 (hc ++ [[]]) [] [])
    as (hf & cur & Hloop & Hkeep & Hcur & Hrel); try done.
  { eapply sub_trans; [exact Hsub|apply sub_app]. }
  { by apply list_lookup_middle. }
  exists (HRef (length hc)), hf. split; [|split].
  - unfold make_combo, hp_bind, alloc. rewrite Hloop. done.
  - intros l o Hl. apply Hkeep; [apply lookup_lt_Some in Hl; lia|].
    by apply lookup_app_l_Some.
  - exists (length hc), cur. repeat split; [done|done|].
    revert Hrel. apply rel_dict_impl, Forall_forall. intros kt _ w.
    apply repr_weaken. lia.
Qed.

Lemma make_combos_spec fuel (hb : heap) ablation_list ablations :
  Forall2 (repr_ablation hb) ablation_list ablations ->
  depth_ok fuel ablations -> names_ok ablations ->
  forall sels (hc : heap),
    Forall (fun sel => Forall2 chosen sel ablations) sels -> sub hb hc ->
    exists out hf,
      hp_map (make_combo fuel ablation_list (map fst ablations))
             (map (map fst) sels) hc = (Ok out, hf) /\
      sub hc hf /\
      Forall2 (fun o sel => fst o = String.concat "." (map fst sel) /\
                            repr (length hb) hf (VDict (combo_dict_of sel)) (snd o))
              out sels.
Proof.
  intros Hall Hdepth Hnames sels.
  induction sels as [|sel sels IH]; intros hc Hsels Hsub; simpl.
  - exists [], hc. repeat split; [apply sub_refl|constructor].
  - apply Forall_cons in Hsels as [Hsel Hsels].
    destruct (make_combo_spec fuel hb hc ablation_list ablations sel)
      as (v & h1 & Hcombo & Hsub1 & Hv); try done.
    destruct (IH h1) as (out & hf & Hrest & Hsubf & Hout);
      [done|by eapply sub_trans|].
    exists ((String.concat "." (map fst sel), v) :: out), hf. split; [|split].
    + unfold hp_bind. rewrite Hcombo. simpl. rewrite Hrest. done.
    + by eapply sub_trans.
    + constructor; [|done]. split; [done|].
      exact (repr_sub _ _ _ _ _ Hsubf Hv).
Qed.

Lemma product_map {A B} (f : A -> B) (lists : list (list A)) :
  product (map (map f) lists) = map (map f) (product lists).
Proof.
  induction lists as [|l lists IH]; simpl; [done|]. rewrite IH.
  induction l as [|x l IHl]; simpl; [done|].
  rewrite map_app, IHl. f_equal. rewrite !map_map. done.
Qed.

Lemma product_chosen {A} (lists : list (list A)) :
  Forall (fun sel => Forall2 (fun x l => x ∈ l) sel lists) (product lists).
Proof.
  induction lists as [|l lists IH]; simpl; [repeat constructor|].
  apply Forall_forall. intros sel Hin. apply list_elem_of_In, in_flat_map in Hin.
  destruct Hin as (x & Hx & Hin). apply in_map_iff in Hin as (sel' & <- & Hsel').
  constructor; [by apply list_elem_of_In|].
  apply (proj1 (Forall_forall _ _) IH). by apply list_elem_of_In.
Qed.

Lemma length_product {A} (lists : list (list A)) :
  length (product lists) = fold_right Nat.mul 1 (map length lists).
Proof.
  induction lists as [|l lists IH]; simpl; [done|]. rewrite <- IH.
  induction l as [|x l IHl]; simpl; [done|]. by rewrite length_app, length_map, IHl.
Qed.

Lemma Forall2_map_r {A B C} (P : A -> C -> Prop) (f : B -> C) (l : list A) :
  forall k, Forall2 P l (map f k) <-> Forall2 (fun x y => P x (f y)) l k.
Proof.
  induction l as [|x l IH]; intros [|y k]; simpl; split; intros H;
    try (inversion H; fail); try constructor.
  - inversion H; subst. done.
  - inversion H; subst. by apply IH.
  - inversion H; subst. done.
  - inversion H; subst. by apply IH.
Qed.

(** C7.  For an ablation list given in the heap [h]: a list of dicts whose
    first key names the ablation and maps to the dict of its values, every
    value a dict of overrides, with enough depth of recursion for
    [deepcopy].  [get_all_ablation_combinations] returns one entry per
    element of the product of the value lists, in the order of
    [itertools.product]; the name of an entry is the chosen value names
    joined by ['.'] and its dict is the [update] of an empty dict with the
    overrides of the chosen values, in the order of the list, so that a later
    ablation wins a key; the number of entries is the product of the
    numbers of values.  The heap after the call is [h] followed by new
    objects: no dict that was there is changed, and the dicts of the entries
    are made of new objects only ([repr (length h)]). *)
Theorem ablation_combinations (h : heap) ablation_list ablations fuel :
  Forall2 (repr_ablation h) ablation_list ablations ->
  names_ok ablations -> depth_ok fuel ablations ->
  exists out k,
    get_all_ablation_combinations fuel ablation_list h = (Ok out, h ++ k) /\
    Forall2 (fun o s => fst o = fst s /\
                        repr (length h) (h ++ k) (VDict (snd s)) (snd o))
            out (combinations_spec ablations) /\
    length out = fold_right Nat.mul 1 (map (fun a => length (snd a)) ablations).
Proof.
  intros Hall Hnames Hdepth.
  destruct (make_combos_spec fuel h ablation_list ablations Hall Hdepth Hnames
              (product (map snd ablations)) h) as (out & hf & Hrun & Hsub & Hout).
  { eapply Forall_impl; [apply product_chosen|]. simpl. intros sel Hsel.
    exact (proj1 (Forall2_map_r (fun x l => x ∈ l) snd sel ablations) Hsel). }
  { apply sub_refl. }
  destruct (sub_prefix h hf Hsub) as [k ->].
  exists out, k. split; [|split].
  - unfold get_all_ablation_combinations, hp_bind.
    rewrite (read_ablations_spec h ablation_list ablations Hall).
    rewrite !map_map. simpl.
    replace (map (fun x => map fst (snd x)) ablations)
      with (map (map fst) (map snd ablations)) by (by rewrite map_map).
    rewrite product_map. exact Hrun.
  - unfold combinations_spec.
    apply Forall2_map_r. exact Hout.
  - rewrite (Forall2_length _ _ _ Hout), length_product, map_map. done.
Qed.
End heap_facts.

(** Two ablations with two values each, in a heap of eight dicts. *)
Definition ablation_heap : list (list (string * hval Z)) :=
  [ [("layers", HAtom 2%Z)]; [("layers", HAtom 8%Z)];
    [("small", HRef 0); ("large", HRef 1)]; [("size", HRef 2)];
    [("lr", HAtom 1%Z)]; [("lr", HAtom 2%Z); ("layers", HAtom 9%Z)];
    [("lo", HRef 4); ("hi", HRef 5)]; [("lr", HRef 6)] ].

Definition two_ablations : list (string * list (string * list (string * value Z))) :=
  [("size", [("small", [("layers", VAtom 2%Z)]); ("large", [("layers", VAtom 8%Z)])]);
   ("lr", [("lo", [("lr", VAtom 1%Z)]);
           ("hi", [("lr", VAtom 2%Z); ("layers", VAtom 9%Z)])])].

Lemma ablation_combinations_witness :
  exists out k,
    get_all_ablation_combinations 1 [HRef 3; HRef 7] ablation_heap
      = (Ok out, ablation_heap ++ k) /\
    Forall2 (fun o s => fst o = fst s /\
                        repr Z 8 (ablation_heap ++ k) (VDict (snd s)) (snd o))
            out
            [("small.lo", [("layers", VAtom 2%Z); ("lr", VAtom 1%Z)]);
             ("small.hi", [("layers", VAtom 9%Z); ("lr", VAtom 2%Z)]);
             ("large.lo", [("layers", VAtom 8%Z); ("lr", VAtom 1%Z)]);
             ("large.hi", [("layers", VAtom 9%Z); ("lr", VAtom 2%Z)])] /\
    length out = 4%nat.
Proof.
  apply (ablation_combinations Z ablation_heap [HRef 3; HRef 7] two_ablations 1).
  - repeat constructor.
    + exists 3%nat, [], 2%nat, [("small", HRef 0); ("large", HRef 1)].
      unfold rel_dict; simpl; repeat (split || eexists); simpl;
        try reflexivity; lia.
    + exists 7%nat, [], 6%nat, [("lo", HRef 4); ("hi", HRef 5)].
      unfold rel_dict; simpl; repeat (split || eexists); simpl;
        try reflexivity; lia.
  - unfold names_ok.
    repeat (apply Forall_cons; split;
              [apply (@bool_decide_unpack _ (NoDup_dec _)); vm_compute; exact I|]).
    apply Forall_nil_2.
  - unfold depth_ok. repeat (apply Forall_cons; split); try apply Forall_nil_2; simpl; lia.
Defined.

(** *** What [merge] computes *)

Section merge_facts.
Variable atom : Type.
Variable py_eq : value atom -> value atom -> bool.

Implicit Types (a b d : list (string * value atom)) (k : string) (v : value atom).

(** A dict has no key twice, and neither have the dicts inside it. *)
Fixpoint wf_value (v : value atom) : Prop :=
  match v with
  | VAtom _ => True
  | VDict d =>
      NoDup (dict_keys d) /\
      (fix all (d : list (string * value atom)) : Prop :=
         match d with
         | [] => True
         | kv :: d' => wf_value (snd kv) /\ all d'
         end) d
  end.

Definition wf_dict d : Prop := wf_value (VDict d).

(** What [merge] leaves at a key, from what [a] and [b] hold there. *)
Definition merged_entry (oa ob : option (value atom)) : option (value atom) :=
  match oa, ob with
  | Some (VDict da), Some (VDict db) => Some (VDict (merge py_eq da db))
  | Some av, Some bv => Some (if py_eq av bv then av else bv)
  | Some av, None => Some av
  | None, Some bv => Some bv
  | None, None => None
  end.

Lemma merge_value_entry av bv :
  Some (merge_value py_eq av bv) = merged_entry (Some av) (Some bv).
Proof. destruct av, bv; reflexivity. Qed.

Lemma merge_items_get mv b : forall a k,
  NoDup (dict_keys b) ->
  dict_get k (merge_items mv a b) =
    match dict_get k b with
    | Some bv => Some (match dict_get k a with
                       | Some av => mv av bv
                       | None => bv
                       end)
    | None => dict_get k a
    end.
Proof.
  induction b as [|[key bv] b IH]; intros a k Hnd; simpl; [done|].
  apply NoDup_cons in Hnd as [Hkey Hnd]. simpl in Hkey. rewrite IH by done.
  destruct (decide (k = key)) as [->|Hne].
  - apply dict_get_None in Hkey. rewrite Hkey.
    destruct (dict_get key a); by rewrite dict_get_set_eq.
  - destruct (dict_get key a); by rewrite dict_get_set_ne.
Qed.

Lemma merge_get a b k :
  NoDup (dict_keys b) ->
  dict_get k (merge py_eq a b) = merged_entry (dict_get k a) (dict_get k b).
Proof.
  intros Hnd. unfold merge. rewrite merge_items_get by done.
  destruct (dict_get k b) as [bv|], (dict_get k a) as [av|]; try done.
  - apply merge_value_entry.
  - by destruct av.
Qed.

Lemma merge_items_keys mv b : forall a,
  NoDup (dict_keys b) ->
  dict_keys (merge_items mv a b) =
    dict_keys a ++ filter (fun k => k ∉ dict_keys a) (dict_keys b).
Proof.
  induction b as [|[key bv] b IH]; intros a Hnd; simpl.
  - by rewrite app_nil_r.
  - apply NoDup_cons in Hnd as [Hkey Hnd]. simpl in Hkey. rewrite IH by done.
    destruct (dict_get key a) as [av|] eqn:Hg.
    + rewrite dict_keys_set. unfold dict_has. rewrite Hg.
      rewrite filter_cons_False; [done|].
      intros Hn. apply dict_get_None in Hn. congruence.
    + rewrite dict_keys_set. unfold dict_has. rewrite Hg.
      rewrite filter_cons_True by (by apply dict_get_None).
      rewrite <- app_assoc. simpl. do 2 f_equal.
      apply filter_same. intros x Hx. rewrite not_elem_of_app.
      split; [tauto|]. intros Hn. split; [done|].
      intros Heq%list_elem_of_singleton. by subst.
Qed.

Lemma merge_keys a b k :
  NoDup (dict_keys b) ->
  k ∈ dict_keys (merge py_eq a b) <-> k ∈ dict_keys a \/ k ∈ dict_keys b.
Proof.
  intros Hnd. unfold merge. rewrite merge_items_keys by done.
  rewrite elem_of_app, list_elem_of_filter.
  destruct (decide (k ∈ dict_keys a)); tauto.
Qed.

Lemma wf_dict_get d k v : wf_dict d -> dict_get k d = Some v -> wf_value v.
Proof.
  intros [_ Hall]. induction d as [|[k' v'] d IH]; simpl in *; [done|].
  destruct Hall as [Hv Hall]. destruct (decide (k = k')); [by intros [= <-]|].
  by apply IH.
Qed.

Lemma lookup_path_snoc path k v :
  lookup_path (path ++ [k]) v =
    lookup_path path v ≫= fun w => if w is VDict d then dict_get k d else None.
Proof.
  revert v. induction path as [|k' path IH]; intros v; simpl.
  - destruct v; simpl; [done|]. by destruct (dict_get k d).
  - destruct v; simpl; [done|]. destruct (dict_get k' d); simpl; [apply IH|done].
Qed.

Lemma merge_path path : forall a b da db,
  wf_dict b ->
  lookup_path path (VDict a) = Some (VDict da) ->
  lookup_path path (VDict b) = Some (VDict db) ->
  wf_dict db /\
  lookup_path path (VDict (merge py_eq a b)) = Some (VDict (merge py_eq da db)).
Proof.
  induction path as [|k path IH]; intros a b da db Hwf Ha Hb; simpl in *.
  - injection Ha as <-. injection Hb as <-. done.
  - destruct (dict_get k a) as [va|] eqn:Hka; [|done].
    destruct (dict_get k b) as [vb|] eqn:Hkb; [|done]. simpl in *.
    rewrite merge_get by apply Hwf. rewrite Hka, Hkb.
    assert (exists a1, va = VDict a1) as [a1 ->].
    { destruct va; [|eauto]. by destruct path. }
    assert (exists b1, vb = VDict b1) as [b1 ->].
    { destruct vb; [|eauto]. by destruct path. }
    simpl. apply IH; [|done..]. by apply (wf_dict_get b k).
Qed.

End merge_facts.

(** *** Duplicate names *)

(** The number of occurrences of [k] in [l]. *)
Definition occurrences (k : string) (l : list string) : nat :=
  length (filter (fun x => x = k) l).

Lemma occurrences_app k l1 l2 :
  occurrences k (l1 ++ l2) = (occurrences k l1 + occurrences k l2)%nat.
Proof. unfold occurrences. by rewrite filter_app, length_app. Qed.

Lemma occurrences_pos k l : k ∈ l <-> (0 < occurrences k l)%nat.
Proof.
  unfold occurrences. induction l as [|x l IH]; simpl.
  - split; [by intros ?%elem_of_nil|lia].
  - rewrite elem_of_cons, filter_cons. destruct (decide (x = k)) as [->|Hne]; simpl.
    + split; [lia|auto].
    + rewrite IH. split; [|auto]. intros [?|?]; [congruence|done].
Qed.

Lemma NoDup_occurrences l : NoDup l <-> forall k, (occurrences k l <= 1)%nat.
Proof.
  induction l as [|x l IH].
  - split; [intros _ k; unfold occurrences; simpl; lia|intros _; apply NoDup_nil_2].
  - rewrite NoDup_cons, IH. unfold occurrences. split.
    + intros [Hx Hl] k. rewrite filter_cons. destruct (decide (x = k)) as [->|]; simpl.
      * assert (occurrences k l = 0%nat) as Hz; [|unfold occurrences in Hz; lia].
        destruct (occurrences k l) eqn:E; [done|]. exfalso. apply Hx, occurrences_pos. lia.
      * apply Hl.
    + intros Hall. split.
      * intros Hin. apply occurrences_pos in Hin. specialize (Hall x).
        rewrite filter_cons_True in Hall by done. simpl in Hall. unfold occurrences in Hin. lia.
      * intros k. specialize (Hall k). rewrite filter_cons in Hall.
        destruct (decide (x = k)); simpl in Hall; lia.
Qed.

(** The counter after the elements [l]: every element of [l] has its
    number of occurrences, and nothing else has an entry. *)
Lemma Counter_get l k :
  dict_get k (Counter l) =
    if decide (k ∈ l) then Some (Z.of_nat (occurrences k l)) else None.
Proof.
  unfold Counter.
  enough (forall c pre,
            (forall k, dict_get k c =
               if decide (k ∈ pre) then Some (Z.of_nat (occurrences k pre)) else None) ->
            forall k, dict_get k (fold_left
                        (fun c k => dict_set k (default 0 (dict_get k c) + 1) c) l c) =
               if decide (k ∈ pre ++ l) then Some (Z.of_nat (occurrences k (pre ++ l)))
               else None) as H.
  { apply (H [] []). intros k'. simpl.
    destruct (decide (k' ∈ [])) as [Hin|]; [by apply elem_of_nil in Hin|done]. }
  clear k. induction l as [|x l IH]; intros c pre Hc k; simpl.
  - rewrite app_nil_r. apply Hc.
  - replace (pre ++ x :: l) with ((pre ++ [x]) ++ l) by (by rewrite <- app_assoc).
    apply IH. clear k. intros k. rewrite occurrences_app.
    destruct (decide (x = k)) as [->|Hne].
    + rewrite dict_get_set_eq. rewrite decide_True by (apply elem_of_app; right; apply elem_of_cons; by left).
      rewrite Hc. f_equal. unfold occurrences at 3. rewrite filter_cons_True by done. simpl.
      destruct (decide (k ∈ pre)) as [Hin|Hnin]; simpl; [lia|].
      assert (occurrences k pre = 0%nat) as ->; [|lia].
      destruct (occurrences k pre) eqn:E; [done|]. exfalso. apply Hnin, occurrences_pos. lia.
    + rewrite dict_get_set_ne by done. rewrite Hc.
      unfold occurrences at 3. rewrite filter_cons_False by done. simpl. rewrite Nat.add_0_r.
      destruct (decide (k ∈ pre)) as [Hin|Hnin].
      * rewrite decide_True; [done|]. apply elem_of_app. by left.
      * rewrite decide_False; [done|]. rewrite elem_of_app, list_elem_of_singleton. intros [?|?]; congruence.
Qed.

Lemma Counter_keys_NoDup l : NoDup (dict_keys (Counter l)).
Proof.
  unfold Counter.
  enough (forall c : list (string * Z), NoDup (dict_keys c) ->
            NoDup (dict_keys (fold_left
                     (fun c k => dict_set k (default 0 (dict_get k c) + 1) c) l c))) as H
    by (apply H, NoDup_nil_2).
  induction l as [|x l IH]; intros c Hc; simpl; [done|].
  by apply IH, dict_keys_set_NoDup.
Qed.

Lemma no_duplicates_iff (l : list string) :
  filter (fun kv : string * Z => 1 <? kv.2) (Counter l) = [] <-> NoDup l.
Proof.
  rewrite NoDup_occurrences. split.
  - intros Hf k. destruct (decide (k ∈ l)) as [Hin|Hnin].
    + pose proof (Counter_get l k) as Hg. rewrite decide_True in Hg by done.
      apply dict_get_Some_in in Hg.
      destruct (decide (occurrences k l <= 1)%nat) as [|Hgt]; [done|]. exfalso.
      eapply (filter_nil_not_elem_of _ _ _ Hf); [|exact Hg]. simpl.
      apply Is_true_true, Z.ltb_lt. lia.
    + destruct (occurrences k l) eqn:E; [lia|]. exfalso. apply Hnin, occurrences_pos. lia.
  - intros Hall. apply filter_none. intros [k v] Hin Hgt. simpl in Hgt.
    apply Is_true_true, Z.ltb_lt in Hgt.
    apply (dict_get_in_NoDup _ _ _ (Counter_keys_NoDup l)) in Hin. rewrite Counter_get in Hin.
    destruct (decide (k ∈ l)); [|done]. injection Hin as <-. specialize (Hall k). lia.
Qed.

Section cards_facts.
Variable atom : Type.
Variable get_cards : string -> value atom -> res (list (ComposedExperiments atom)).
Variable atom_contains : atom -> string -> option bool.
Variable atom_has_len : atom -> bool.

Let load := load_composed_experiments_from_file get_cards atom_contains atom_has_len.

Lemma duplicated_names_nil (composed : list (ComposedExperiments atom)) :
  duplicated_names composed = [] <-> NoDup (all_save_names composed).
Proof.
  unfold duplicated_names. rewrite <- no_duplicates_iff.
  destruct (filter _ _); simpl; split; congruence.
Qed.

(** A loaded document without the key: a mapping that lacks it, or a
    value on which [in] answers no. *)
Definition lacks_experiments (doc : value atom) : Prop :=
  match doc with
  | VDict d => dict_get "experiments" d = None
  | VAtom a => atom_contains a "experiments" = Some false
  end.

(** C9.  [load_composed_experiments_from_file] raises [KeyError] on a
    document without the key ['experiments']; what it returns has pairwise
    distinct [save_name]s; and when the cards composed from the file have a
    [save_name] twice it raises [ValueError], and returns them otherwise. *)
Theorem duplicate_save_names_rejected :
  (forall doc, lacks_experiments doc -> load true doc = Raise KeyError) /\
  (forall exists_ doc composed starting_commands,
     load exists_ doc = Ok (composed, starting_commands) ->
     NoDup (all_save_names composed)) /\
  (forall d experiments composed,
     dict_get "experiments" d = Some (VDict experiments) ->
     compose_all get_cards experiments = Ok composed ->
     (~ NoDup (all_save_names composed) -> load true (VDict d) = Raise ValueError) /\
     (NoDup (all_save_names composed) ->
        load true (VDict d) = Ok (composed, dict_get "starting_commands" d))).
Proof.
  unfold load, load_composed_experiments_from_file. split; [|split].
  - intros [a|d] Hl; simpl in *.
    + by rewrite Hl.
    + unfold dict_has. by rewrite Hl.
  - intros exists_ doc composed sc. destruct exists_; simpl; [|done].
    destruct doc as [a|d]; simpl.
    + destruct (atom_contains a "experiments") as [[|]|]; simpl; done.
    + unfold dict_has. destruct (dict_get "experiments" d) as [[a|experiments]|]; simpl;
        [by destruct (atom_has_len a)| |done].
      destruct (compose_all get_cards experiments) as [c|]; simpl; [|done].
      destruct (duplicated_names c) eqn:Hd; [|done].
      intros [= <- _]. by apply duplicated_names_nil.
  - intros d experiments composed Hd Hc. simpl. unfold dict_has. rewrite Hd. simpl.
    rewrite Hc. simpl. split.
    + intros Hn. destruct (duplicated_names composed) eqn:E; [|done].
      exfalso. by apply Hn, duplicated_names_nil.
    + intros Hn. apply duplicated_names_nil in Hn. by rewrite Hn.
Qed.
End cards_facts.

(** *** Examples *)

(** Integers as the values, with their equality; a dict equals no integer. *)
Definition int_eq (x y : value Z) : bool :=
  match x, y with
  | VAtom n, VAtom m => n =? m
  | _, _ => false
  end.

Definition base_overrides : list (string * value Z) :=
  [("lr", VAtom 1); ("model", VDict [("layers", VAtom 2); ("heads", VAtom 4)])].

Definition step_overrides : list (string * value Z) :=
  [("model", VDict [("heads", VAtom 8); ("dropout", VAtom 0)]); ("seed", VAtom 7)].


(** A generator that yields one card per experiment, in the group named by
    the atom of the experiment. *)
Definition one_card (name : string) (experiment : value string)
    : res (list (ComposedExperiments string)) :=
  match experiment with
  | VAtom g => Ok [mkComposed name [("single", mkCard name "base" g [] None)] None []]
  | VDict _ => Raise ValueError
  end.

Definition two_experiments : list (string * value string) :=
  [("experiments", VDict [("small", VAtom "t5"); ("large", VAtom "t5")])].

Lemma duplicate_save_names_rejected_witness :
  NoDup ["t5.small"; "t5.large"] /\
  load_composed_experiments_from_file one_card (fun _ _ => None) (fun _ => false)
    true (VDict [("starting_commands", VAtom "x")]) = Raise KeyError.
Proof.
  pose proof (duplicate_save_names_rejected string one_card (fun _ _ => None)
                (fun _ => false)) as (Hkey & Hok & _).
  split.
  - apply (Hok true (VDict two_experiments)
             [mkComposed "small" [("single", mkCard "small" "base" "t5" [] None)] None [];
              mkComposed "large" [("single", mkCard "large" "base" "t5" [] None)] None []]
             None).
    reflexivity.
  - apply Hkey. reflexivity.
Defined.

(** *** [merge] on the heap: what the card shares with its sources *)

(** What [merge] raises that [exn] does not name: the [RuntimeError] of a
    dict iterator whose dict has changed size. *)
Inductive raised :=
| Builtin (e : exn)
| RuntimeError.

Inductive outcome (A : Type) :=
| Returns (a : A)
| Raises (r : raised).
Arguments Returns {A} a.
Arguments Raises {A} r.

Section merge_heap.
Variable atom : Type.
(** Python's [==] between two values that are not both dicts. *)
Variable py_eq : hval atom -> hval atom -> bool.

Local Open Scope nat_scope.

Local Abbreviation obj := (list (string * hval atom)).
Local Abbreviation heap := (list (list (string * hval atom))).

Definition hx (A : Type) : Type := heap -> outcome A * heap.

Definition hx_ret {A} (a : A) : hx A := fun h => (Returns a, h).

Definition hx_raise {A} (r : raised) : hx A := fun h => (Raises r, h).

Definition hx_bind {A B} (m : hx A) (f : A -> hx B) : hx B :=
  fun h =>
    match m h with
    | (Returns a, h') => f a h'
    | (Raises r, h') => (Raises r, h')
    end.

Definition hx_of {A} (m : hp atom A) : hx A :=
  fun h =>
    match m h with
    | (Ok a, h') => (Returns a, h')
    | (Raise e, h') => (Raises (Builtin e), h')
    end.

Notation "x <== m ;; k" := (hx_bind m (fun x => k))
  (at level 100, m at next level, right associativity).

(** The body of the loop of [merge] for [key] (lines 172-180); [rec] is
    the recursive call. *)
Definition merge_item (rec : nat -> nat -> hx unit) (a b : nat) (key : string)
    : hx unit :=
  oa <== hx_of (load a) ;;
  ob <== hx_of (load b) ;;
  bv <== hx_of (hp_lift (subscript (dict_get key ob))) ;;
  match dict_get key oa with
  | Some av =>
      match av, bv with
      | HRef la, HRef lb => rec la lb
      | _, _ => if py_eq av bv then hx_ret tt else hx_of (store a (dict_set key bv oa))
      end
  | None => hx_of (store a (dict_set key bv oa))
  end.

(** [for key in b]: the iterator was created when [b] had [n] keys, and
    raises when it is asked for the next key of a dict of another size. *)
Fixpoint merge_for (rec : nat -> nat -> hx unit) (a b : nat) (n : nat)
    (keys : list string) : hx unit :=
  ob <== hx_of (load b) ;;
  if negb (length ob =? n) then hx_raise RuntimeError else
  match keys with
  | [] => hx_ret tt
  | key :: keys' =>
      _ <== merge_item rec a b key ;;
      merge_for rec a b n keys'
  end.

(** [merge(a, b)] for the dicts at [a] and [b]; [fuel] is the depth of
    recursion the interpreter allows. *)
Fixpoint merge_h (fuel : nat) (a b : nat) {struct fuel} : hx unit :=
  match fuel with
  | O => hx_raise (Builtin RecursionError)
  | S fuel' =>
      ob <== hx_of (load b) ;;
      merge_for (merge_h fuel') a b (length ob) (dict_keys ob)
  end.

(** Lines 302-308 of [get_experiment_card_cfg_from_dict]: the overrides of
    one card. *)
Definition compose_card_overrides (fuel : nat)
    (experiment_overrides ablation_overrides step_overrides : nat) : hx nat :=
  copy <== hx_of (deepcopy fuel (HRef experiment_overrides)) ;;
  match copy with
  | HRef card_overrides =>
      _ <== merge_h fuel card_overrides ablation_overrides ;;
      _ <== merge_h fuel card_overrides step_overrides ;;
      hx_ret card_overrides
  | HAtom _ => hx_raise (Builtin TypeError)
  end.

(** Two consecutive steps of one ablation. *)
Definition compose_two_steps (fuel : nat)
    (experiment_overrides ablation_overrides step1_overrides step2_overrides : nat)
    : hx (nat * nat) :=
  c1 <== compose_card_overrides fuel experiment_overrides ablation_overrides
           step1_overrides ;;
  c2 <== compose_card_overrides fuel experiment_overrides ablation_overrides
           step2_overrides ;;
  hx_ret (c1, c2).

(** **** Facts *)

(** No dict loses a key. *)
Definition grows (h h' : heap) : Prop :=
  forall l o, h !! l = Some o -> exists o', h' !! l = Some o' /\ dict_keys o ⊆ dict_keys o'.

Lemma grows_refl h : grows h h.
Proof. intros l o Hl. exists o. split; [done|set_solver]. Qed.

Lemma grows_trans h1 h2 h3 : grows h1 h2 -> grows h2 h3 -> grows h1 h3.
Proof.
  intros H12 H23 l o Hl. destruct (H12 l o Hl) as (o2 & Hl2 & Hs2).
  destruct (H23 l o2 Hl2) as (o3 & Hl3 & Hs3). exists o3. split; [done|set_solver].
Qed.

Lemma dict_keys_set_sub (key : string) (v : hval atom) (o : obj) :
  dict_keys o ⊆ dict_keys (dict_set key v o) /\ key ∈ dict_keys (dict_set key v o).
Proof.
  rewrite dict_keys_set. unfold dict_has. destruct (dict_get key o) eqn:Hg.
  - split; [set_solver|]. destruct (decide (key ∈ dict_keys o)) as [|Hn]; [done|].
    apply dict_get_None in Hn. congruence.
  - split; set_solver.
Qed.

Lemma grows_store (h : heap) a oa key v :
  h !! a = Some oa -> grows h (<[a := dict_set key v oa]> h).
Proof.
  intros Ha l o Hl. destruct (decide (l = a)) as [->|Hne].
  - exists (dict_set key v oa). split.
    + apply list_lookup_insert_eq. by eapply lookup_lt_Some.
    + assert (o = oa) as -> by congruence. apply dict_keys_set_sub.
  - exists o. split; [by rewrite list_lookup_insert_ne|set_solver].
Qed.

Section region.
(** The dicts inside the overrides: a set of addresses that holds the
    dicts its dicts refer to. *)
Variable Q : nat -> Prop.

Definition refs_in (o : obj) : Prop :=
  forall key l, dict_get key o = Some (HRef l) -> Q l.

Definition edges_in (h : heap) : Prop :=
  forall l o, Q l -> h !! l = Some o -> refs_in o.

Lemma refs_in_set key v (o : obj) :
  refs_in o -> (forall l, v = HRef l -> Q l) -> refs_in (dict_set key v o).
Proof.
  intros Ho Hv key' l. destruct (decide (key = key')) as [<-|Hne].
  - rewrite dict_get_set_eq. intros [= ->]. by apply Hv.
  - rewrite dict_get_set_ne by done. apply Ho.
Qed.

(** What holds of every call of [merge], whatever it returns or raises. *)
Definition call_ok (rec : nat -> nat -> hx unit) : Prop :=
  forall a b h r h', rec a b h = (r, h') ->
    length h' = length h /\ grows h h' /\
    (edges_in h -> Q a -> Q b -> edges_in h' /\ forall l, ~ Q l -> h' !! l = h !! l) /\
    (r = Returns tt -> forall ob key, h !! b = Some ob -> key ∈ dict_keys ob ->
       exists oa', h' !! a = Some oa' /\ key ∈ dict_keys oa').

Lemma store_facts (h : heap) a oa key bv :
  h !! a = Some oa ->
  length (<[a := dict_set key bv oa]> h) = length h /\
  grows h (<[a := dict_set key bv oa]> h) /\
  (edges_in h -> Q a -> (forall l, bv = HRef l -> Q l) ->
     edges_in (<[a := dict_set key bv oa]> h) /\
     forall l, ~ Q l -> <[a := dict_set key bv oa]> h !! l = h !! l) /\
  <[a := dict_set key bv oa]> h !! a = Some (dict_set key bv oa).
Proof.
  intros Ha. split; [apply length_insert|]. split; [by apply grows_store|]. split.
  - intros He Hq Hbv. split.
    + intros l o Hl. destruct (decide (l = a)) as [->|Hne].
      * rewrite list_lookup_insert_eq by (by eapply lookup_lt_Some). intros [= <-].
        apply refs_in_set; [by eapply He|done].
      * rewrite list_lookup_insert_ne by done. by apply He.
    + intros l Hl. rewrite list_lookup_insert_ne; [done|]. by intros ->.
  - apply list_lookup_insert_eq. by eapply lookup_lt_Some.
Qed.

Lemma merge_item_facts rec a b key :
  call_ok rec -> forall h r h', merge_item rec a b key h = (r, h') ->
    length h' = length h /\ grows h h' /\
    (edges_in h -> Q a -> Q b -> edges_in h' /\ forall l, ~ Q l -> h' !! l = h !! l) /\
    (r = Returns tt -> exists oa', h' !! a = Some oa' /\ key ∈ dict_keys oa').
Proof.
  intros Hrec h r h'. unfold merge_item, hx_bind, hx_of, load, hp_lift, hx_ret, store.
  assert (Htriv : forall r0, (r0, h) = (r, h') -> (r = Returns tt -> False) ->
            length h' = length h /\ grows h h' /\
            (edges_in h -> Q a -> Q b -> edges_in h' /\ forall l, ~ Q l -> h' !! l = h !! l) /\
            (r = Returns tt -> exists oa', h' !! a = Some oa' /\ key ∈ dict_keys oa')).
  { intros r0 [= <- <-] Hr. split; [done|]. split; [apply grows_refl|]. split; [done|].
    intros E. by destruct (Hr E). }
  destruct (h !! a) as [oa|] eqn:Ha; simpl; [|intros E; apply (Htriv _ E); by intros ->].
  destruct (h !! b) as [ob|] eqn:Hb; simpl; [|intros E; apply (Htriv _ E); by intros ->].
  destruct (dict_get key ob) as [bv|] eqn:Hbv; simpl;
    [|intros E; apply (Htriv _ E); by intros ->].
  assert (Hstore : (Returns tt, <[a := dict_set key bv oa]> h) = (r, h') ->
            length h' = length h /\ grows h h' /\
            (edges_in h -> Q a -> Q b -> edges_in h' /\ forall l, ~ Q l -> h' !! l = h !! l) /\
            (r = Returns tt -> exists oa', h' !! a = Some oa' /\ key ∈ dict_keys oa')).
  { intros [= <- <-]. destruct (store_facts h a oa key bv Ha) as (Hlen & Hg & Hf & Hl).
    split; [done|]. split; [done|]. split.
    - intros He Hqa Hqb. apply Hf; [done..|]. intros l ->. by eapply (He b ob).
    - intros _. eexists. split; [exact Hl|]. apply dict_keys_set_sub. }
  assert (Hkeep : dict_get key oa <> None -> (Returns tt, h) = (r, h') ->
            length h' = length h /\ grows h h' /\
            (edges_in h -> Q a -> Q b -> edges_in h' /\ forall l, ~ Q l -> h' !! l = h !! l) /\
            (r = Returns tt -> exists oa', h' !! a = Some oa' /\ key ∈ dict_keys oa')).
  { intros Hin [= <- <-]. split; [done|]. split; [apply grows_refl|]. split; [done|].
    intros _. exists oa. split; [done|].
    destruct (decide (key ∈ dict_keys oa)) as [|Hn]; [done|].
    by apply dict_get_None in Hn. }
  destruct (dict_get key oa) as [av|] eqn:Hav; [|exact Hstore].
  destruct av as [x|la]; [destruct (py_eq _ _); [by apply Hkeep|exact Hstore]|].
  destruct bv as [y|lb]; [destruct (py_eq _ _); [by apply Hkeep|exact Hstore]|].
  intros Hcall. destruct (Hrec _ _ _ _ _ Hcall) as (Hlen & Hg & Hf & _).
  split; [done|]. split; [done|]. split.
  - intros He Hqa Hqb. apply Hf; [done| |].
    + by eapply (He a oa).
    + by eapply (He b ob).
  - intros _. destruct (Hg a oa Ha) as (oa' & Ha' & Hsub). exists oa'. split; [done|].
    apply Hsub. destruct (decide (key ∈ dict_keys oa)) as [|Hn]; [done|].
    apply dict_get_None in Hn. congruence.
Qed.

Lemma merge_for_facts rec a b n :
  call_ok rec -> forall keys h r h', merge_for rec a b n keys h = (r, h') ->
    length h' = length h /\ grows h h' /\
    (edges_in h -> Q a -> Q b -> edges_in h' /\ forall l, ~ Q l -> h' !! l = h !! l) /\
    (r = Returns tt -> forall key, key ∈ keys ->
       exists oa', h' !! a = Some oa' /\ key ∈ dict_keys oa').
Proof.
  intros Hrec keys. induction keys as [|key keys IH]; intros h r h';
    cbn [merge_for]; unfold hx_bind at 1, hx_of, load.
  - destruct (h !! b) as [ob|]; simpl.
    + destruct (negb (length ob =? n)); unfold hx_raise, hx_ret; intros [= <- <-];
        (split; [done|]); (split; [apply grows_refl|]); (split; [done|]);
        intros _ key Hk; by apply elem_of_nil in Hk.
    + intros [= <- <-]. split; [done|]. split; [apply grows_refl|]. split; [done|]. done.
  - destruct (h !! b) as [ob|]; simpl.
    2:{ intros [= <- <-]. split; [done|]. split; [apply grows_refl|]. split; [done|]. done. }
    destruct (negb (length ob =? n)); unfold hx_raise.
    { intros [= <- <-]. split; [done|]. split; [apply grows_refl|]. split; [done|]. done. }
    unfold hx_bind. destruct (merge_item rec a b key h) as [[[]|e] h1] eqn:Hitem.
    + destruct (merge_item_facts rec a b key Hrec _ _ _ Hitem) as (Hlen1 & Hg1 & Hf1 & Hk1).
      intros Hrest. destruct (IH _ _ _ Hrest) as (Hlen2 & Hg2 & Hf2 & Hk2).
      split; [lia|]. split; [by eapply grows_trans|]. split.
      * intros He Hqa Hqb. destruct (Hf1 He Hqa Hqb) as [He1 Hu1].
        destruct (Hf2 He1 Hqa Hqb) as [He2 Hu2]. split; [done|].
        intros l Hl. by rewrite Hu2, Hu1.
      * intros Hr key' [->|Hin]%elem_of_cons; [|by apply Hk2].
        destruct (Hk1 eq_refl) as (oa1 & Ha1 & Hin1).
        destruct (Hg2 a oa1 Ha1) as (oa' & Ha' & Hsub). exists oa'. split; [done|].
        by apply Hsub.
    + intros [= <- <-].
      destruct (merge_item_facts rec a b key Hrec _ _ _ Hitem) as (Hlen1 & Hg1 & Hf1 & _).
      split; [done|]. split; [done|]. split; [done|]. done.
Qed.

Lemma merge_h_facts fuel : call_ok (merge_h fuel).
Proof.
  induction fuel as [|fuel IH]; intros a b h r h'; cbn [merge_h].
  - unfold hx_raise. intros [= <- <-]. split; [done|]. split; [apply grows_refl|].
    split; [done|]. done.
  - unfold hx_bind, hx_of, load. destruct (h !! b) as [ob|] eqn:Hb; simpl.
    + intros Hrun. destruct (merge_for_facts _ a b _ IH _ _ _ _ Hrun) as (Hlen & Hg & Hf & Hk).
      split; [done|]. split; [done|]. split; [done|].
      intros Hr ob' key [= <-] Hin. by apply Hk.
    + intros [= <- <-]. split; [done|]. split; [apply grows_refl|]. split; [done|]. done.
Qed.

(** **** A card that nothing refers to

    The dict [c] of the card and the dict [b] merged into it are outside
    the region, and the dicts they hold are inside. *)

(** [c] after the keys [keys] of [b]: a key outside [keys] is as before,
    a key that [c] lacked holds the value of [b] itself, and a key that
    held a dict in both still holds the dict of [c], into which the dict of
    [b] has been merged. *)
Definition top_merged (keys : list string) (h h' : heap) (c : nat)
    (oc ob oc' : obj) : Prop :=
  h' !! c = Some oc' /\ refs_in oc' /\ edges_in h' /\ length h' = length h /\
  grows h h' /\
  (forall l, ~ Q l -> l <> c -> h' !! l = h !! l) /\
  (forall key, key ∉ keys -> dict_get key oc' = dict_get key oc) /\
  (forall key bv, key ∈ keys -> dict_get key oc = None -> dict_get key ob = Some bv ->
     dict_get key oc' = Some bv) /\
  (forall key la lb, key ∈ keys -> dict_get key oc = Some (HRef la) ->
     dict_get key ob = Some (HRef lb) ->
     dict_get key oc' = Some (HRef la) /\
     forall olb j, h !! lb = Some olb -> j ∈ dict_keys olb ->
       exists ola', h' !! la = Some ola' /\ j ∈ dict_keys ola').

Lemma top_merged_nil (h : heap) c oc ob :
  h !! c = Some oc -> refs_in oc -> edges_in h -> top_merged [] h h c oc ob oc.
Proof.
  intros Hc Hr He. split; [done|]. split; [done|]. split; [done|]. split; [done|].
  split; [apply grows_refl|]. split; [done|]. split; [done|].
  split; [intros key bv Hin|intros key la lb Hin]; by apply elem_of_nil in Hin.
Qed.

Lemma top_merged_cons key keys (h h1 h' : heap) c oc oc1 oc' ob :
  key ∉ keys ->
  top_merged [key] h h1 c oc ob oc1 -> top_merged keys h1 h' c oc1 ob oc' ->
  top_merged (key :: keys) h h' c oc ob oc'.
Proof.
  intros Hfresh (Hc1 & Hr1 & He1 & Hlen1 & Hg1 & Hu1 & Hk1 & Hn1 & Hd1)
         (Hc2 & Hr2 & He2 & Hlen2 & Hg2 & Hu2 & Hk2 & Hn2 & Hd2).
  split; [done|]. split; [done|]. split; [done|]. split; [lia|].
  split; [by eapply grows_trans|]. split; [intros l Hl Hne; by rewrite Hu2, Hu1|].
  assert (Hother : forall key', key' ∈ keys -> dict_get key' oc1 = dict_get key' oc).
  { intros key' Hin. apply Hk1. intros ->%list_elem_of_singleton. done. }
  split; [|split].
  - intros key' Hn. apply not_elem_of_cons in Hn as [Hne Hn].
    rewrite (Hk2 _ Hn). apply Hk1. by intros ?%list_elem_of_singleton.
  - intros key' bv [->|Hin]%elem_of_cons Hnone Hbv.
    + rewrite (Hk2 _ Hfresh). apply Hn1; [apply list_elem_of_singleton|..]; done.
    + apply Hn2; [done| |done]. by rewrite Hother.
  - intros key' la lb [->|Hin]%elem_of_cons Hla Hlb.
    + destruct (Hd1 key la lb) as [Hget Hsub]; [by apply list_elem_of_singleton|done..|].
      split; [by rewrite (Hk2 _ Hfresh)|].
      intros olb j Holb Hj. destruct (Hsub olb j Holb Hj) as (ola1 & Hla1 & Hj1).
      destruct (Hg2 la ola1 Hla1) as (ola' & Hla' & Hs). exists ola'. split; [done|].
      by apply Hs.
    + destruct (Hd2 key' la lb) as [Hget Hsub]; [done|by rewrite Hother|done|].
      split; [done|]. intros olb j Holb Hj.
      destruct (Hg1 lb olb Holb) as (olb1 & Holb1 & Hs). apply (Hsub olb1 j Holb1).
      by apply Hs.
Qed.

Lemma merge_item_top fuel c b key (h h1 : heap) oc ob :
  ~ Q c -> c <> b -> refs_in ob ->
  edges_in h -> h !! c = Some oc -> h !! b = Some ob -> refs_in oc ->
  merge_item (merge_h fuel) c b key h = (Returns tt, h1) ->
  exists oc1, top_merged [key] h h1 c oc ob oc1.
Proof.
  intros Hqc Hcb Hrb He Hc Hb Hrc.
  unfold merge_item, hx_bind, hx_of, load, hp_lift, hx_ret, store. rewrite Hc. simpl.
  rewrite Hb. simpl.
  destruct (dict_get key ob) as [bv|] eqn:Hbv; simpl; [|done].
  assert (Hstore : (Returns tt, <[c := dict_set key bv oc]> h) = (Returns tt, h1) ->
            (forall la lb, dict_get key oc = Some (HRef la) -> bv = HRef lb -> False) ->
            exists oc1, top_merged [key] h h1 c oc ob oc1).
  { intros [= <-] Hnot. exists (dict_set key bv oc).
    destruct (store_facts h c oc key bv Hc) as (Hlen & Hg & _ & Hl).
    split; [done|]. split.
    { apply refs_in_set; [done|]. intros l ->. by eapply Hrb. }
    split.
    { intros l o Hl' Hlo. rewrite list_lookup_insert_ne in Hlo by (by intros ->).
      by eapply He. }
    split; [done|]. split; [done|]. split.
    { intros l _ Hne. by rewrite list_lookup_insert_ne. }
    split; [|split].
    - intros key' Hn. rewrite dict_get_set_ne; [done|].
      intros ->. apply Hn, list_elem_of_singleton. done.
    - intros key' bv' ->%list_elem_of_singleton _ Hbv'. rewrite dict_get_set_eq. congruence.
    - intros key' la lb ->%list_elem_of_singleton Hla Hlb. exfalso.
      apply (Hnot la lb); congruence. }
  assert (Hkeep : (Returns tt, h) = (Returns tt, h1) ->
            dict_get key oc <> None ->
            (forall la lb, dict_get key oc = Some (HRef la) -> bv = HRef lb -> False) ->
            exists oc1, top_merged [key] h h1 c oc ob oc1).
  { intros [= <-] Hsome Hnot. exists oc.
    split; [done|]. split; [done|]. split; [done|]. split; [done|].
    split; [apply grows_refl|]. split; [done|]. split; [done|]. split.
    - intros key' bv' ->%list_elem_of_singleton Hnone. done.
    - intros key' la lb ->%list_elem_of_singleton Hla Hlb. exfalso.
      apply (Hnot la lb); congruence. }
  destruct (dict_get key oc) as [av|] eqn:Hav; [|intros E; apply Hstore; [done|]; by intros].
  destruct av as [x|la].
  { destruct (py_eq _ _); intros E; [apply Hkeep|apply Hstore]; try done; by intros. }
  destruct bv as [y|lb].
  { destruct (py_eq _ _); intros E; [apply Hkeep|apply Hstore]; try done; by intros. }
  intros Hcall. destruct (merge_h_facts fuel _ _ _ _ _ Hcall) as (Hlen & Hg & Hf & Hk).
  destruct Hf as [He1 Hu1]; [done|by eapply Hrc|by eapply Hrb|].
  exists oc. split; [by rewrite Hu1|]. split; [done|]. split; [done|]. split; [done|].
  split; [done|]. split; [intros l Hl _; by apply Hu1|]. split; [done|]. split.
  - intros key' bv' ->%list_elem_of_singleton Hnone. congruence.
  - intros key' la' lb' ->%list_elem_of_singleton Hla' Hlb'.
    assert (la' = la) as -> by congruence.
    assert (lb' = lb) as -> by congruence. split; [done|].
    intros olb j Holb Hj. by apply (Hk eq_refl olb j).
Qed.

Lemma merge_for_top fuel c b ob :
  ~ Q c -> ~ Q b -> c <> b -> refs_in ob ->
  forall keys (h : heap) oc h', NoDup keys ->
    edges_in h -> h !! c = Some oc -> h !! b = Some ob -> refs_in oc ->
    merge_for (merge_h fuel) c b (length ob) keys h = (Returns tt, h') ->
    exists oc', top_merged keys h h' c oc ob oc'.
Proof.
  intros Hqc Hqb Hcb Hrb keys. induction keys as [|key keys IH];
    intros h oc h' Hnd He Hc Hb Hrc; cbn [merge_for]; unfold hx_bind at 1, hx_of, load;
    rewrite Hb; simpl; rewrite Nat.eqb_refl; simpl.
  - unfold hx_ret. intros [= <-]. exists oc. by apply top_merged_nil.
  - apply NoDup_cons in Hnd as [Hfresh Hnd]. unfold hx_bind.
    destruct (merge_item (merge_h fuel) c b key h) as [[[]|e] h1] eqn:Hitem; [|done].
    destruct (merge_item_top fuel c b key h h1 oc ob Hqc Hcb Hrb He Hc Hb Hrc Hitem)
      as (oc1 & Htop1).
    pose proof Htop1 as (Hc1 & Hr1 & He1 & _ & _ & Hu1 & _).
    intros Hrest. destruct (IH h1 oc1 h' Hnd He1 Hc1) as (oc' & Htop2); [|done..|].
    { rewrite Hu1; [done..|]. by intros ->. }
    exists oc'. eapply top_merged_cons; eauto.
Qed.

Lemma merge_h_top fuel c b (h : heap) oc ob h' :
  ~ Q c -> ~ Q b -> c <> b -> refs_in ob -> NoDup (dict_keys ob) ->
  edges_in h -> h !! c = Some oc -> h !! b = Some ob -> refs_in oc ->
  merge_h fuel c b h = (Returns tt, h') ->
  exists oc', top_merged (dict_keys ob) h h' c oc ob oc'.
Proof.
  intros Hqc Hqb Hcb Hrb Hnd He Hc Hb Hrc. destruct fuel as [|fuel]; [done|].
  cbn [merge_h]. unfold hx_bind, hx_of, load. rewrite Hb. simpl.
  by apply merge_for_top.
Qed.

(** A dict that holds no dict. *)
Definition flat (o : obj) : Prop := Forall (fun kv => exists x, snd kv = HAtom x) o.

Lemma deepcopy_flat fuel (h : heap) l o :
  h !! l = Some o -> flat o ->
  deepcopy (S fuel) (HRef l) h = (Ok (HRef (length h)), h ++ [o]).
Proof.
  intros Hl Hflat. cbn [deepcopy]. unfold hp_bind at 1. unfold load. rewrite Hl. simpl.
  assert (Hmap : hp_map (fun kv : string * hval atom =>
                           hp_bind (deepcopy fuel (snd kv)) (fun x => hp_ret (fst kv, x)))
                   o h = (Ok o, h)).
  { clear Hl. induction Hflat as [|[key v] o [x Hx] _ IH]; [done|]. simpl in Hx. subst v.
    assert (Hd : deepcopy fuel (HAtom x) h = (Ok (HAtom x), h)) by (by destruct fuel).
    cbn [hp_map fst snd]. unfold hp_bind at 1. unfold hp_bind at 1. rewrite Hd.
    unfold hp_ret at 1. unfold hp_bind at 1. rewrite IH. done. }
  unfold hp_bind at 1. rewrite Hmap. done.
Qed.

Lemma grows_app (h k : heap) : grows h (h ++ k).
Proof.
  intros l o Hl. exists o. split; [by apply lookup_app_l_Some|set_solver].
Qed.

(** One card: it is a new dict; a key that only the ablation has holds the
    value of the ablation itself, dict object included; and when the step
    has a dict at such a key, the dict of the ablation has its keys
    afterwards. *)
Lemma compose_card_overrides_spec fuel (h : heap) E A S oE oA oS c h' :
  edges_in h -> (forall l, Q l -> l < length h) ->
  ~ Q E -> ~ Q A -> ~ Q S ->
  h !! E = Some oE -> h !! A = Some oA -> h !! S = Some oS ->
  flat oE -> refs_in oA -> refs_in oS -> NoDup (dict_keys oA) -> NoDup (dict_keys oS) ->
  compose_card_overrides fuel E A S h = (Returns c, h') ->
  c = length h /\ length h' = Datatypes.S (length h) /\ edges_in h' /\ grows h h' /\
  (forall l, ~ Q l -> l < length h -> h' !! l = h !! l) /\
  exists oc, h' !! c = Some oc /\
    (forall key, dict_get key oE = None -> dict_get key oS = None ->
       dict_get key oc = dict_get key oA) /\
    (forall key la lb, dict_get key oE = None -> dict_get key oA = Some (HRef la) ->
       dict_get key oS = Some (HRef lb) ->
       dict_get key oc = Some (HRef la) /\
       forall olb j, h !! lb = Some olb -> j ∈ dict_keys olb ->
         exists ola', h' !! la = Some ola' /\ j ∈ dict_keys ola').
Proof.
  intros He Hlt HqE HqA HqS HE HA HS Hflat HrA HrS HndA HndS.
  destruct fuel as [|fuel]; [done|].
  unfold compose_card_overrides. unfold hx_bind at 1. unfold hx_of.
  rewrite (deepcopy_flat fuel h E oE HE Hflat).
  set (c0 := length h). set (h0 := h ++ [oE]).
  assert (Hc0 : h0 !! c0 = Some oE) by (apply list_lookup_middle; done).
  assert (Hqc : ~ Q c0) by (intros Hq; apply Hlt in Hq; unfold c0 in Hq; lia).
  assert (He0 : edges_in h0).
  { intros l o Hq Hl. pose proof (Hlt l Hq).
    unfold h0 in Hl. rewrite lookup_app_l in Hl by done. by eapply He. }
  assert (HrE : refs_in oE).
  { intros key l Hget. apply dict_get_Some_in in Hget.
    destruct (proj1 (Forall_forall _ _) Hflat (key, HRef l) Hget) as [x Hx]. done. }
  assert (Hold : forall l o, h !! l = Some o -> h0 !! l = Some o)
    by (intros l o; apply lookup_app_l_Some).
  assert (Hne : forall l o, h !! l = Some o -> c0 <> l).
  { intros l o Hl Heq. apply lookup_lt_Some in Hl. unfold c0 in Heq. lia. }
  unfold hx_bind at 1.
  destruct (merge_h (Datatypes.S fuel) c0 A h0) as [[[]|e] h1] eqn:H1; [|done].
  destruct (merge_h_top _ c0 A h0 oE oA h1 Hqc HqA (Hne _ _ HA) HrA HndA He0 Hc0
              (Hold _ _ HA) HrE H1)
    as (o1 & Hc1 & Hr1 & He1 & Hlen1 & Hg1 & Hu1 & Hk1 & Hn1 & Hd1).
  unfold hx_bind at 1.
  destruct (merge_h (Datatypes.S fuel) c0 S h1) as [[[]|e] h2] eqn:H2; [|done].
  assert (HS1 : h1 !! S = Some oS).
  { rewrite Hu1; [by apply Hold|done|]. intros Heq. by apply (Hne _ _ HS). }
  destruct (merge_h_top _ c0 S h1 o1 oS h2 Hqc HqS (Hne _ _ HS) HrS HndS He1 Hc1
              HS1 Hr1 H2)
    as (o2 & Hc2 & Hr2 & He2 & Hlen2 & Hg2 & Hu2 & Hk2 & Hn2 & Hd2).
  unfold hx_ret. intros [= <- <-].
  split; [done|]. split.
  { rewrite Hlen2, Hlen1. unfold h0. rewrite length_app. simpl. lia. }
  split; [done|]. split.
  { eapply grows_trans; [apply grows_app|]. eapply grows_trans; eauto. }
  split.
  { intros l Hq Hl. rewrite Hu2, Hu1; try done; try (unfold c0; lia).
    unfold h0. by rewrite lookup_app_l. }
  exists o2. split; [done|]. split.
  - intros key HkE HkS. rewrite Hk2 by (by apply dict_get_None).
    destruct (dict_get key oA) as [bv|] eqn:HkA.
    + apply Hn1; [|done..]. destruct (decide (key ∈ dict_keys oA)) as [|Hn]; [done|].
      apply dict_get_None in Hn. congruence.
    + rewrite Hk1 by (by apply dict_get_None). done.
  - intros key la lb HkE HkA HkS.
    assert (HinA : key ∈ dict_keys oA).
    { destruct (decide (key ∈ dict_keys oA)) as [|Hn]; [done|].
      apply dict_get_None in Hn. congruence. }
    assert (HinS : key ∈ dict_keys oS).
    { destruct (decide (key ∈ dict_keys oS)) as [|Hn]; [done|].
      apply dict_get_None in Hn. congruence. }
    pose proof (Hn1 key (HRef la) HinA HkE HkA) as Hk1'.
    destruct (Hd2 key la lb HinS Hk1' HkS) as [Hget Hsub]. split; [done|].
    intros olb j Holb Hj.
    destruct (Hg1 lb olb (Hold _ _ Holb)) as (olb1 & Holb1 & Hs1).
    apply (Hsub olb1 j Holb1). by apply Hs1.
Qed.

(** X11.  The overrides of a step leak through the ablation.  [merge]
    stores the dicts of [b] in [a] by reference, so when the ablation holds
    a dict at a key that the experiment's overrides (a dict of plain
    values) lack, the card shares that dict with the ablation, and merging
    the overrides of step 1 writes into it.  For two steps of one ablation,
    where step 1 overrides a dict at that key and step 2 has no such key:
    the card of step 2 holds the ablation's dict at the key, and that dict
    has every key of the overrides of step 1.  [Q] is the set of the dicts
    inside the overrides. *)
Theorem step_overrides_leak_through_the_ablation fuel (h : heap) E A S1 S2
    oE oA oS1 oS2 k lA lS oS c1 c2 h' :
  edges_in h -> (forall l, Q l -> l < length h) ->
  ~ Q E -> ~ Q A -> ~ Q S1 -> ~ Q S2 ->
  h !! E = Some oE -> h !! A = Some oA -> h !! S1 = Some oS1 -> h !! S2 = Some oS2 ->
  flat oE -> refs_in oA -> refs_in oS1 -> refs_in oS2 ->
  NoDup (dict_keys oA) -> NoDup (dict_keys oS1) -> NoDup (dict_keys oS2) ->
  dict_get k oE = None -> dict_get k oA = Some (HRef lA) ->
  dict_get k oS1 = Some (HRef lS) -> h !! lS = Some oS ->
  dict_get k oS2 = None ->
  compose_two_steps fuel E A S1 S2 h = (Returns (c1, c2), h') ->
  exists o2,
    h' !! c2 = Some o2 /\ dict_get k o2 = Some (HRef lA) /\
    forall j, j ∈ dict_keys oS ->
      exists oA', h' !! lA = Some oA' /\ j ∈ dict_keys oA'.
Proof.
  intros He Hlt HqE HqA HqS1 HqS2 HE HA HS1 HS2 Hflat HrA HrS1 HrS2 HndA HndS1 HndS2
         HkE HkA HkS1 HlS HkS2.
  unfold compose_two_steps. unfold hx_bind at 1.
  destruct (compose_card_overrides fuel E A S1 h) as [[c|e] h1] eqn:Hstep1; [|done].
  destruct (compose_card_overrides_spec fuel h E A S1 oE oA oS1 c h1 He Hlt HqE HqA HqS1
              HE HA HS1 Hflat HrA HrS1 HndA HndS1 Hstep1)
    as (-> & Hlen1 & He1 & Hg1 & Hu1 & o1 & Hc1 & _ & Hleak).
  destruct (Hleak k lA lS HkE HkA HkS1) as [_ Hkeys].
  unfold hx_bind at 1.
  destruct (compose_card_overrides fuel E A S2 h1) as [[c|e] h2] eqn:Hstep2; [|done].
  assert (Hlt1 : forall l, Q l -> l < length h1) by (intros l Hl%Hlt; lia).
  assert (Hsame : forall l o, ~ Q l -> h !! l = Some o -> h1 !! l = Some o).
  { intros l o Hq Hl. rewrite Hu1; [done..|]. by eapply lookup_lt_Some. }
  destruct (compose_card_overrides_spec fuel h1 E A S2 oE oA oS2 c h2 He1 Hlt1 HqE HqA HqS2
              (Hsame _ _ HqE HE) (Hsame _ _ HqA HA) (Hsame _ _ HqS2 HS2)
              Hflat HrA HrS2 HndA HndS2 Hstep2)
    as (-> & Hlen2 & He2 & Hg2 & Hu2 & o2 & Hc2 & Honly & _).
  unfold hx_ret. intros [= <- <- <-].
  exists o2. split; [done|]. split; [by rewrite (Honly k HkE HkS2)|].
  intros j Hj. destruct (Hkeys oS j HlS Hj) as (oA1 & HlA1 & Hj1).
  destruct (Hg2 lA oA1 HlA1) as (oA' & HlA' & Hs). exists oA'. split; [done|]. by apply Hs.
Qed.
End region.
End merge_heap.

(** An experiment without [model] overrides, an ablation that sets
    [model.size], and two steps, the first of which sets [model.dropout]. *)
Definition leak_heap : list (list (string * hval Z)) :=
  [ [("lr", HAtom 1)];
    [("size", HAtom 2)];
    [("model", HRef 1%nat)];
    [("dropout", HAtom 0)];
    [("model", HRef 3%nat)];
    [] ].

Definition hval_eq (x y : hval Z) : bool :=
  match x, y with
  | HAtom n, HAtom m => n =? m
  | _, _ => false
  end.

Definition inner (l : nat) : Prop := l = 1%nat \/ l = 3%nat.

Lemma step_overrides_leak_through_the_ablation_witness :
  exists o2,
    snd (compose_two_steps Z hval_eq 3 0 2 4 5 leak_heap) !! 7%nat = Some o2 /\
    dict_get "model" o2 = Some (HRef 1%nat) /\
    forall j, j ∈ dict_keys [("dropout", HAtom (0 : Z))] ->
      exists oA', snd (compose_two_steps Z hval_eq 3 0 2 4 5 leak_heap) !! 1%nat
                    = Some oA' /\ j ∈ dict_keys oA'.
Proof.
  apply (step_overrides_leak_through_the_ablation Z hval_eq inner 3 leak_heap
           0 2 4 5
           [("lr", HAtom 1)] [("model", HRef 1%nat)] [("model", HRef 3%nat)] []
           "model" 1%nat 3%nat [("dropout", HAtom 0)] 6%nat 7%nat).
  - intros l o [->| ->] Hl key l' Hget; vm_compute in Hl; injection Hl as <-;
      vm_compute in Hget; revert Hget; repeat case_match; discriminate.
  - intros l [->| ->]; simpl; lia.
  - intros [?|?]; lia.
  - intros [?|?]; lia.
  - intros [?|?]; lia.
  - intros [?|?]; lia.
  - reflexivity.
  - reflexivity.
  - reflexivity.
  - reflexivity.
  - repeat constructor. by eexists.
  - intros key l Hget. unfold dict_get in Hget. simpl in Hget.
    destruct (decide (key = "model")); [|discriminate]. injection Hget as <-. by left.
  - intros key l Hget. unfold dict_get in Hget. simpl in Hget.
    destruct (decide (key = "model")); [|discriminate]. injection Hget as <-. by right.
  - intros key l Hget. discriminate.
  - vm_compute. repeat constructor; set_solver.
  - vm_compute. repeat constructor; set_solver.
  - constructor.
  - reflexivity.
  - reflexivity.
  - reflexivity.
  - reflexivity.
  - reflexivity.
  - vm_compute. reflexivity.
Defined.

(** *** Merging the same overrides again *)

Section merge_again.
Variable atom : Type.
Variable py_eq : value atom -> value atom -> bool.

Implicit Types (a b d : list (string * value atom)) (k : string) (v : value atom).

(** Merging into [a] values that [a] already holds, merged, changes
    nothing. *)
Lemma merge_items_id (mv : value atom -> value atom -> value atom) b : forall a,
  (forall key bv, (key, bv) ∈ b ->
     exists v, dict_get key a = Some v /\ mv v bv = v) ->
  merge_items mv a b = a.
Proof.
  induction b as [|[key bv] b IH]; intros a Hall; simpl; [done|].
  destruct (Hall key bv) as (v & Hv & Hmv); [apply elem_of_cons; by left|].
  rewrite Hv, Hmv, (dict_set_same _ _ _ Hv). apply IH.
  intros key' bv' Hin. apply Hall, elem_of_cons. by right.
Qed.

Lemma wf_dict_entries d :
  wf_dict atom d <-> NoDup (dict_keys d) /\ Forall (fun kv => wf_value atom (snd kv)) d.
Proof.
  unfold wf_dict. simpl. split; intros [Hnd Hall]; (split; [done|]).
  - induction d as [|kv d IH]; [constructor|]. destruct Hall as [Hkv Hall].
    apply NoDup_cons in Hnd as [_ Hnd]. constructor; [done|by apply IH].
  - induction Hall as [|kv d Hkv Hall IH]; [done|].
    apply NoDup_cons in Hnd as [_ Hnd]. split; [done|by apply IH].
Qed.

Lemma merge_value_again bv :
  wf_value atom bv ->
  merge_value py_eq bv bv = bv /\
  forall av, merge_value py_eq (merge_value py_eq av bv) bv = merge_value py_eq av bv.
Proof.
  induction bv as [x|db IH] using value_ind'; intros Hwf.
  - split; [simpl; by destruct (py_eq _ _)|].
    intros av. simpl. destruct (py_eq av (VAtom x)) eqn:E.
    + destruct av; simpl; by rewrite E.
    + simpl. by destruct (py_eq (VAtom x) (VAtom x)).
  - apply wf_dict_entries in Hwf as [Hnd Hall].
    assert (Hself : merge_items (merge_value py_eq) db db = db).
    { apply merge_items_id. intros key bv Hin. exists bv. split.
      - by apply dict_get_in_NoDup.
      - rewrite Forall_forall in IH, Hall.
        apply (IH (key, bv)); [done|]. by apply (Hall (key, bv)). }
    split; [simpl; by rewrite Hself|].
    intros [x|da]; simpl.
    + destruct (py_eq (VAtom x) (VDict db)) eqn:E; simpl; [by rewrite E|by rewrite Hself].
    + f_equal. apply merge_items_id. intros key bv Hin.
      rewrite merge_items_get by done. rewrite (dict_get_in_NoDup _ _ _ Hnd Hin).
      rewrite Forall_forall in IH, Hall.
      destruct (IH (key, bv) Hin (Hall (key, bv) Hin)) as [Hs Ha].
      eexists. split; [reflexivity|]. destruct (dict_get key da); [apply Ha|apply Hs].
Qed.

End merge_again.


End Experiments.

(** ** Generation for evaluation *)

Module Evaluation.

(** A row of the dataset; [input_len] is the column [prep_col] adds. *)
Record sample := mkSample {
  input_sequence : string;
  target : string;
  idx : Z;
  input_len : option Z
}.

(** An element of a prediction: the dict the pipeline returns, or the
    string left of it when the prompt is removed. *)
Inductive generated :=
| GenDict (generated_text : string)
| GenText (text : string).

(** The entries of [generation_kwargs] that the function sets; [others]
    are the caller's. *)
Record generation_kwargs := mkKwargs {
  num_return_sequences : option Z;
  max_length : option Z;
  max_new_tokens : option Z;
  others : list (string * string)
}.

Record predictions_dict := mkPredictions {
  indices : list Z;
  labels : list string;
  predictions : list (list generated)
}.

(** [divmod(a, b)]: Python's floored division, as [Z.div] and [Z.modulo]
    are; a zero divisor raises. *)
Definition divmod (a b : Z) : res (Z * Z) :=
  if b =? 0 then Raise ZeroDivisionError else Ok (a / b, a mod b).

(** [s[n:]] for [n >= 0]. *)
Fixpoint drop_string (n : nat) (s : string) : string :=
  match n, s with
  | O, _ => s
  | S n', String _ s' => drop_string n' s'
  | S _, EmptyString => EmptyString
  end.

(** [s[n:]] *)
Definition slice_from (n : Z) (s : string) : string :=
  if n <? 0
  then drop_string (Z.to_nat (Z.of_nat (String.length s) + n)) s
  else drop_string (Z.to_nat n) s.

Section generation.
(** The text-generation pipeline: the generated texts for a prompt. *)
Variable pipe : string -> generation_kwargs -> list string.
(** The tokenizer: its special tokens and [len(tokenizer.encode(s))]. *)
Variable eos_token bos_token : string.
Variable encode_len : string -> Z.

Definition is_lm (objective : string) : bool := String.eqb objective "lm".

Definition prep_col (objective : string) (ex : sample) : sample :=
  let s := (if is_lm objective
            then eos_token ++ input_sequence ex
            else bos_token ++ input_sequence ex ++ eos_token)%string in
  mkSample s (target ex) (idx ex) (Some (encode_len s)).

(** Lines 73-85. *)
Definition set_kwargs (objective : string) (batch_size : Z)
    (kw : generation_kwargs) : generation_kwargs :=
  if is_lm objective
  then mkKwargs (Some batch_size) None
                (Some (default 256 (max_new_tokens kw))) (others kw)
  else mkKwargs (Some batch_size) (Some (default 256 (max_length kw)))
                None (others kw).

(** One pass of the inner loop (lines 112-122). *)
Definition generate_batch (remove_input_ids_from_output : bool)
    (kw : generation_kwargs) (ex : sample) : res (list generated) :=
  let generated_from_batch := pipe (input_sequence ex) kw in
  if remove_input_ids_from_output then
    n <~ subscript (input_len ex) ;;
    Ok (map (fun g => GenText (slice_from n g)) generated_from_batch)
  else Ok (map GenDict generated_from_batch).

(** [for i in range(steps)]: the batches of one sample, concatenated. *)
Fixpoint generate_steps (steps : nat) (remove_input_ids_from_output : bool)
    (kw : generation_kwargs) (ex : sample) : res (list generated) :=
  match steps with
  | O => Ok []
  | S steps' =>
      batch <~ generate_batch remove_input_ids_from_output kw ex ;;
      rest <~ generate_steps steps' remove_input_ids_from_output kw ex ;;
      Ok (batch ++ rest)
  end.

(** The body of the loop over the dataset (lines 107-129). *)
Definition generate_sample (steps seq_per_sample : Z)
    (remove_input_ids_from_output : bool) (kw : generation_kwargs)
    (acc : predictions_dict) (ex : sample) : res predictions_dict :=
  generated_for_current_sample <~
    generate_steps (Z.to_nat steps) remove_input_ids_from_output kw ex ;;
  if negb (Z.of_nat (length generated_for_current_sample) =? seq_per_sample)
  then Raise AssertionError else
  Ok (mkPredictions (indices acc ++ [idx ex]) (labels acc ++ [target ex])
                    (predictions acc ++ [generated_for_current_sample])).

Definition generate_code_predictions (objective : string)
    (dataset : list sample) (batch_size : Z) (kw : generation_kwargs)
    (seq_per_sample : Z) (remove_input_ids_from_output : bool)
    : res predictions_dict :=
  qr <~ divmod seq_per_sample batch_size ;;
  let '(generate_steps_per_sample, rem) := qr in
  if 0 <? rem then Raise ValueError else
  let kw' := set_kwargs objective batch_size kw in
  let dataset' := map (prep_col objective) dataset in
  rfold (generate_sample generate_steps_per_sample seq_per_sample
           remove_input_ids_from_output kw')
        dataset' (mkPredictions [] [] []).
End generation.

(** *** The shape of the predictions *)

Section generation_facts.
Variable pipe : string -> generation_kwargs -> list string.
Variable eos_token bos_token : string.
Variable encode_len : string -> Z.

Let generate := generate_code_predictions pipe eos_token bos_token encode_len.

Lemma generate_sample_Ok steps seq remove kw acc ex r :
  generate_sample pipe steps seq remove kw acc ex = Ok r ->
  exists p, Z.of_nat (length p) = seq /\
    indices r = indices acc ++ [idx ex] /\
    labels r = labels acc ++ [target ex] /\
    predictions r = predictions acc ++ [p].
Proof.
  unfold generate_sample.
  destruct (generate_steps pipe (Z.to_nat steps) remove kw ex) as [p|]; simpl; [|done].
  destruct (Z.of_nat (length p) =? seq) eqn:E; simpl; [|done].
  intros [= <-]. exists p. simpl. apply Z.eqb_eq in E. done.
Qed.

Lemma generate_steps_exn n remove kw ex e :
  generate_steps pipe n remove kw ex = Raise e -> e = KeyError.
Proof.
  induction n as [|n IH]; simpl; [done|].
  unfold generate_batch at 1. destruct remove.
  - destruct (input_len ex); simpl.
    + destruct (generate_steps pipe n true kw ex); simpl; [done|]. intros [= <-]. by apply IH.
    + by intros [= <-].
  - simpl. destruct (generate_steps pipe n false kw ex); simpl; [done|].
    intros [= <-]. by apply IH.
Qed.

Lemma generate_sample_exn steps seq remove kw acc ex e :
  generate_sample pipe steps seq remove kw acc ex = Raise e ->
  e = KeyError \/ e = AssertionError.
Proof.
  unfold generate_sample.
  destruct (generate_steps pipe (Z.to_nat steps) remove kw ex) as [p|e'] eqn:Hs; simpl.
  - destruct (Z.of_nat (length p) =? seq); simpl; [done|]. intros [= <-]. by right.
  - intros [= <-]. left. by eapply generate_steps_exn.
Qed.

Lemma generate_loop steps seq remove kw ds : forall acc,
  match rfold (generate_sample pipe steps seq remove kw) ds acc with
  | Ok r =>
      indices r = indices acc ++ map idx ds /\
      labels r = labels acc ++ map target ds /\
      exists ps, predictions r = predictions acc ++ ps /\
                 length ps = length ds /\
                 Forall (fun p => Z.of_nat (length p) = seq) ps
  | Raise e => e = KeyError \/ e = AssertionError
  end.
Proof.
  induction ds as [|ex ds IH]; intros acc; simpl.
  - rewrite !app_nil_r. repeat split. exists []. by rewrite app_nil_r.
  - destruct (generate_sample pipe steps seq remove kw acc ex) as [acc'|e] eqn:Hs; simpl.
    + apply generate_sample_Ok in Hs as (p & Hp & Hi & Hl & Hps).
      specialize (IH acc'). destruct (rfold _ ds acc') as [r|e]; [|done].
      destruct IH as (Hi' & Hl' & ps & Hps' & Hlen & Hall).
      rewrite Hi', Hl', Hps', Hi, Hl, Hps, <- !app_assoc. repeat split.
      exists (p :: ps). simpl. repeat split; [by rewrite Hlen|by constructor].
    + by eapply generate_sample_exn.
Qed.

End generation_facts.

(** A pipeline that returns [num_return_sequences] copies of the prompt. *)
Definition echo (prompt : string) (kw : generation_kwargs) : list string :=
  repeat prompt (Z.to_nat (default 1 (num_return_sequences kw))).

Definition two_samples : list sample :=
  [mkSample "def f():" "pass" 0 None; mkSample "def g():" "return 1" 1 None].


(** *** What the predictions hold *)

Section generation_content.
Variable pipe : string -> generation_kwargs -> list string.
Variable eos_token bos_token : string.
Variable encode_len : string -> Z.

Let generate := generate_code_predictions pipe eos_token bos_token encode_len.
Let prep := prep_col eos_token bos_token encode_len.

(** What one call of the pipeline adds to the prediction of a sample. *)
Definition batch_of (remove : bool) (kw : generation_kwargs) (ex : sample)
    : list generated :=
  if remove
  then map (fun g => GenText (slice_from (encode_len (input_sequence ex)) g))
           (pipe (input_sequence ex) kw)
  else map GenDict (pipe (input_sequence ex) kw).

Lemma generate_batch_prepared remove kw objective ex :
  generate_batch pipe remove kw (prep objective ex) = Ok (batch_of remove kw (prep objective ex)).
Proof. unfold generate_batch, batch_of. by destruct remove. Qed.

Lemma generate_steps_prepared n remove kw objective ex :
  generate_steps pipe n remove kw (prep objective ex) =
    Ok (concat (replicate n (batch_of remove kw (prep objective ex)))).
Proof.
  induction n as [|n IH]; [done|].
  cbn [generate_steps]. rewrite generate_batch_prepared. cbn [rbind]. rewrite IH. done.
Qed.

Lemma length_batch_of remove kw ex :
  length (batch_of remove kw ex) = length (pipe (input_sequence ex) kw).
Proof. unfold batch_of. destruct remove; by rewrite length_map. Qed.

Lemma length_concat_replicate {A} n (l : list A) :
  length (concat (replicate n l)) = (n * length l)%nat.
Proof. induction n as [|n IH]; simpl; [done|]. rewrite length_app, IH. lia. Qed.

Lemma generate_loop_content steps seq remove kw objective ds : forall acc,
  0 <= steps ->
  (forall ex, ex ∈ ds ->
     steps * Z.of_nat (length (pipe (input_sequence (prep objective ex)) kw)) = seq) ->
  rfold (generate_sample pipe steps seq remove kw) (map (prep objective) ds) acc =
    Ok (mkPredictions
          (indices acc ++ map idx ds) (labels acc ++ map target ds)
          (predictions acc ++
             map (fun ex => concat (replicate (Z.to_nat steps)
                                      (batch_of remove kw (prep objective ex)))) ds)).
Proof.
  induction ds as [|ex ds IH]; intros acc Hsteps Hlen.
  - simpl. rewrite !app_nil_r. by destruct acc.
  - change (map (prep objective) (ex :: ds))
      with (prep objective ex :: map (prep objective) ds).
    cbn [rfold]. unfold generate_sample at 1. rewrite generate_steps_prepared.
    cbn [rbind]. rewrite length_concat_replicate, length_batch_of.
    assert (Hex : steps * Z.of_nat (length (pipe (input_sequence (prep objective ex)) kw)) = seq)
      by (apply Hlen, elem_of_cons; by left).
    assert ((Z.of_nat (Z.to_nat steps * length (pipe (input_sequence (prep objective ex)) kw))
             =? seq) = true) as ->.
    { apply Z.eqb_eq. rewrite Nat2Z.inj_mul, Z2Nat.id by done. exact Hex. }
    cbn [negb rbind]. rewrite IH; [|done|].
    + cbn [indices labels predictions]. rewrite <- !app_assoc. done.
    + intros ex' Hin. apply Hlen, elem_of_cons. by right.
Qed.

End generation_content.


(** *** What is cut off a generated text *)

Lemma drop_string_app (s c : string) : forall n,
  (n <= String.length s)%nat -> drop_string n (s ++ c) = (drop_string n s ++ c)%string.
Proof.
  induction s as [|a s IH]; intros n Hn; simpl in *.
  - assert (n = 0%nat) as -> by lia. by destruct c.
  - destruct n as [|n]; [done|]. simpl. apply IH. lia.
Qed.

Section generation_prefix.
Variable pipe : string -> generation_kwargs -> list string.
Variable eos_token bos_token : string.
Variable encode_len : string -> Z.

Let prep := prep_col eos_token bos_token encode_len.

(** X18.  With [remove_input_ids_from_output], what is cut off a generated
    text is as many characters as the prompt has tokens: [input_len] is
    [len(tokenizer.encode(...))], and it indexes the text.  When the
    pipeline returns the prompt followed by a completion, and the prompt has
    no more tokens than characters, every prediction is the prompt without
    its first [input_len] characters, followed by the completion. *)
Theorem removed_prefix_is_counted_in_tokens objective kw ex completions :
  pipe (input_sequence (prep objective ex)) kw =
    map (fun c => (input_sequence (prep objective ex) ++ c)%string) completions ->
  0 <= encode_len (input_sequence (prep objective ex))
    <= Z.of_nat (String.length (input_sequence (prep objective ex))) ->
  generate_batch pipe true kw (prep objective ex) =
    Ok (map (fun c =>
               GenText (drop_string (Z.to_nat (encode_len (input_sequence (prep objective ex))))
                          (input_sequence (prep objective ex)) ++ c)%string)
            completions).
Proof.
  intros Hpipe Hlen. unfold generate_batch. rewrite Hpipe.
  assert (Hn : input_len (prep objective ex)
               = Some (encode_len (input_sequence (prep objective ex)))) by done.
  rewrite Hn. cbn [subscript rbind]. f_equal. rewrite map_map.
  apply map_ext. intros c. f_equal. unfold slice_from.
  destruct (Z.ltb_spec (encode_len (input_sequence (prep objective ex))) 0) as [|_]; [lia|].
  apply drop_string_app. lia.
Qed.
End generation_prefix.

Lemma removed_prefix_is_counted_in_tokens_witness :
  generate_batch (fun prompt _ => [(prompt ++ " pass")%string]) true
    (mkKwargs None None None [])
    (prep_col "</s>" "<s>" (fun _ => 3) "lm" (mkSample "def f():" "pass" 0 None)) =
  Ok [GenText ">def f(): pass"].
Proof.
  apply (removed_prefix_is_counted_in_tokens (fun prompt _ => [(prompt ++ " pass")%string])
           "</s>" "<s>" (fun _ => 3) "lm" (mkKwargs None None None [])
           (mkSample "def f():" "pass" 0 None) [" pass"]).
  - reflexivity.
  - vm_compute. split; discriminate.
Defined.

End Evaluation.

(** ** The tutorial HTML parsers *)

Module HtmlParsers.

(** The tree BeautifulSoup builds.  A [NavigableString] is a text node, or
    a comment when [comment] is set; [classes] is [attrs.get('class', [])]
    and [attrs] holds the other attributes. *)
Inductive node :=
| NavigableString (text : string) (comment : bool)
| Tag (name : string) (classes : list string) (attrs : list (string * string))
      (children : list node).

Inductive TagType := PARAGRAPH | CODE | SECTION | LIST | IGNORED | UNKNOWN.

Definition mem (x : string) (l : list string) : bool := existsb (String.eqb x) l.
Arguments mem : simpl never.

Definition tag_name (n : node) : string :=
  match n with
  | Tag nm _ _ _ => nm
  | NavigableString _ _ => ""
  end.

Definition tag_classes (n : node) : list string :=
  match n with
  | Tag _ cls _ _ => cls
  | NavigableString _ _ => []
  end.

Definition tag_children (n : node) : list node :=
  match n with
  | Tag _ _ _ cs => cs
  | NavigableString _ _ => []
  end.

(** [tag.get_text()] and [tag.text]: the text nodes below, in order. *)
Fixpoint get_text (n : node) : string :=
  match n with
  | NavigableString s c => if c then "" else s
  | Tag _ _ _ cs => fold_right (fun c acc => (get_text c ++ acc)%string) "" cs
  end.

(** The descendants of a node, in document order. *)
Fixpoint descendants (n : node) : list node :=
  match n with
  | NavigableString _ _ => []
  | Tag _ _ _ cs => flat_map (fun c => c :: descendants c) cs
  end.

Definition is_tag (n : node) : bool :=
  match n with
  | Tag _ _ _ _ => true
  | NavigableString _ _ => false
  end.

Definition named (nm : string) (n : node) : bool :=
  is_tag n && String.eqb (tag_name n) nm.

Definition has_class (cls : string) (n : node) : bool := mem cls (tag_classes n).

Definition has_attr (k v : string) (n : node) : bool :=
  match n with
  | Tag _ _ attrs _ =>
      match dict_get k attrs with
      | Some v' => String.eqb v v'
      | None => false
      end
  | NavigableString _ _ => false
  end.

(** [tag.find(...)]: the first descendant that matches. *)
Definition find (p : node -> bool) (n : node) : option node :=
  head (filter p (descendants n)).

(** [tag.find_all(..., recursive=False)] and [tag.find_all(...)] *)
Definition find_all_children (p : node -> bool) (n : node) : list node :=
  filter p (tag_children n).

Definition find_all (p : node -> bool) (n : node) : list node :=
  filter p (descendants n).

(** [tag.find(nm).extract()] seen from [tag]: the tree without its first
    descendant named [nm], or [None] when there is none. *)
Fixpoint extract_first (nm : string) (n : node) : option node :=
  match n with
  | NavigableString _ _ => None
  | Tag tn cls attrs cs =>
      option_map (Tag tn cls attrs)
        ((fix go (cs : list node) : option (list node) :=
            match cs with
            | [] => None
            | c :: cs' =>
                if named nm c then Some cs'
                else match extract_first nm c with
                     | Some c' => Some (c' :: cs')
                     | None => option_map (cons c) (go cs')
                     end
            end) cs)
  end.

(** [sub in s] on strings. *)
Fixpoint is_prefix (p s : string) : bool :=
  match p, s with
  | EmptyString, _ => true
  | String a p', String b s' => Ascii.eqb a b && is_prefix p' s'
  | String _ _, EmptyString => false
  end.

Fixpoint contains (sub s : string) : bool :=
  is_prefix sub s ||
  match s with
  | EmptyString => false
  | String _ s' => contains sub s'
  end.

Fixpoint replace_char (c by_ : ascii) (s : string) : string :=
  match s with
  | EmptyString => EmptyString
  | String a s' => String (if Ascii.eqb a c then by_ else a) (replace_char c by_ s')
  end.

(** A value of a section dictionary. *)
Inductive field :=
| FInt (n : Z)
| FStr (s : string).

Definition PARAGRAPH_CLASSES : list string :=
  ["math"; "admonition"; "topic"; "versionadded"; "versionchanged"; "note";
   "deprecated"].
Definition CODE_CLASSES : list string := ["doctest"; "syntax"].
Definition IGNORED_CLASSES : list string := ["toctree-wrapper"; "graphviz"].
Definition IGNORED_TAGS : list string := ["figure"].

(** [[f'h{j}' for j in range(15)]] *)
Definition header_tag : list string :=
  ["h0"; "h1"; "h2"; "h3"; "h4"; "h5"; "h6"; "h7"; "h8"; "h9"; "h10"; "h11";
   "h12"; "h13"; "h14"].

Section parsers.
Variable unidecode : string -> string.
(** [DOUBLE_WHITESPACE.sub(' ', s)] *)
Variable double_whitespace_sub : string -> string.
(** [BeautifulSoup(raw_html, 'lxml')] *)
Variable BeautifulSoup : string -> node.

Definition clean_text (text : string) : string := unidecode text.

Definition get_type_from_div_tag (tag : node) : TagType :=
  let tag_classes := tag_classes tag in
  if existsb (contains "highlight-") tag_classes then CODE
  else if existsb (fun c => mem c tag_classes) CODE_CLASSES then CODE
  else if existsb (fun c => mem c tag_classes) PARAGRAPH_CLASSES then PARAGRAPH
  else if existsb (fun c => mem c tag_classes) IGNORED_CLASSES then IGNORED
  else UNKNOWN.

(** The methods a subclass of [TutorialHTMLParser] defines or inherits. *)
Record parser := mkParser {
  NAME : string;
  get_type_of_tag : node -> TagType;
  parse_code : node -> res string;
  parse_list : node -> string;
  parse_paragraph : node -> string;
  parse_title : node -> string;
  get_header_and_sections : node -> res (list node)
}.

(** The methods of the base class. *)
Definition base_parse_code (tag : node) : res string :=
  Ok (clean_text (get_text tag)).

Definition base_parse_list (tag : node) : string :=
  clean_text
    (String.concat (String (ascii_of_nat 10) "")
       (map (fun line => ("* " ++ get_text line)%string)
            (find_all (named "li") tag))).

Definition base_parse_paragraph (tag : node) : string :=
  double_whitespace_sub
    (replace_char (ascii_of_nat 10) " "%char (clean_text (get_text tag))).

Definition base_parse_title (tag : node) : string := clean_text (get_text tag).

(** [parse_code] of [SympyParser], [PassLibParser] and [PyNaClParser]. *)
Definition pre_parse_code (tag : node) : res string :=
  match find (named "pre") tag with
  | None => Raise AssertionError
  | Some code_block => Ok (lstrip (clean_text (get_text code_block)))
  end.

(** [parse_title] of the same three: the first link of the header is
    taken out of the soup of this call, then the text is read. *)
Definition link_parse_title (tag : node) : string :=
  clean_text (get_text (default tag (extract_first "a" tag))).

Definition list_tags : list string := ["ul"; "ol"; "blockquote"].

Definition lxml_get_type_of_tag (tag : node) : TagType :=
  let tag_classes := tag_classes tag in
  let nm := tag_name tag in
  if String.eqb nm "div" then
    if mem "section" tag_classes then SECTION
    else if mem "syntax" tag_classes then CODE
    else if mem "note" tag_classes then PARAGRAPH
    else get_type_from_div_tag tag
  else if String.eqb nm "pre" then
    if mem "literal-block" tag_classes then CODE else UNKNOWN
  else if String.eqb nm "p" then PARAGRAPH
  else if mem nm list_tags then LIST
  else if mem nm ["table"; "img"; "dl"] then IGNORED
  else UNKNOWN.

Definition section_get_type_of_tag (tag : node) : TagType :=
  let nm := tag_name tag in
  if String.eqb nm "section" then SECTION
  else if String.eqb nm "div" then get_type_from_div_tag tag
  else if String.eqb nm "p" then PARAGRAPH
  else if mem nm list_tags then LIST
  else if mem nm ["table"; "img"; "dl"; "aside"] then IGNORED
  else UNKNOWN.

Definition passlib_get_type_of_tag (tag : node) : TagType :=
  let tag_classes := tag_classes tag in
  let nm := tag_name tag in
  if String.eqb nm "div" then
    if mem "section" tag_classes then SECTION else get_type_from_div_tag tag
  else if String.eqb nm "p" then PARAGRAPH
  else if mem nm list_tags then LIST
  else if mem nm ["table"; "img"; "dl"; "aside"] then IGNORED
  else UNKNOWN.

(** [soup.find(...)] then [body.find_all(..., recursive=False)]; a
    missing body is [None], which has no [find_all]. *)
Definition sections_of (body : node -> bool) (section : node -> bool)
    (soup : node) : res (list node) :=
  match find body soup with
  | None => Raise AttributeError
  | Some b => Ok (find_all_children section b)
  end.

Definition div_with (cls : string) (n : node) : bool :=
  named "div" n && has_class cls n.

Definition LXMLParser : parser :=
  mkParser "LXML" lxml_get_type_of_tag base_parse_code base_parse_list
    base_parse_paragraph base_parse_title
    (sections_of (div_with "document") (div_with "section")).

Definition SympyParser : parser :=
  mkParser "sympy" section_get_type_of_tag pre_parse_code base_parse_list
    base_parse_paragraph link_parse_title
    (sections_of (div_with "body") (named "section")).

Definition PassLibParser : parser :=
  mkParser "passlib" passlib_get_type_of_tag pre_parse_code base_parse_list
    base_parse_paragraph link_parse_title
    (sections_of (div_with "body") (div_with "section")).

Definition PyNaClParser : parser :=
  mkParser "pynacl" section_get_type_of_tag pre_parse_code base_parse_list
    base_parse_paragraph link_parse_title
    (sections_of (fun n => named "div" n && has_attr "itemprop" "articleBody" n)
                 (named "section")).

(** The parsers of the registry, by the name they are registered under. *)
Definition registry : list (string * parser) :=
  [("lxml", LXMLParser); ("sympy", SympyParser); ("passlib", PassLibParser);
   ("pynacl", PyNaClParser)].

Variable self : parser.

(** The dict [out] of lines 171-178. *)
Definition section_dict (id_counter parent_id section_id : Z)
    (section_str_id : string) (i : Z) (section_title : string)
    : list (string * field) :=
  [("id", FInt id_counter); ("parent_id", FInt parent_id);
   ("section_id", FInt section_id); ("section_str_id", FStr section_str_id);
   ("child_idx", FInt i); ("section_title", FStr section_title)].

Definition with_text (text tag : string) (out : list (string * field))
    : list (string * field) :=
  dict_set "tag" (FStr tag) (dict_set "text" (FStr text) out).

(** [id_counter] after the loop over a subsection: the index of its last
    yield, if it yields. *)
Definition last_idx (ys : list (Z * list (string * field))) (id_counter : Z) : Z :=
  match last ys with
  | Some y => fst y
  | None => id_counter
  end.

(** The loop of [parse_section] over [section.children], from the child
    of index [i] on; its state is [id_counter] and [section_title].
    [subsection] is the recursive call of [parse_section]. *)
Fixpoint parse_children
    (subsection : node -> Z -> Z -> res (list (Z * list (string * field))))
    (parent_id section_id : Z) (section_str_id : string)
    (cs : list node) (i id_counter : Z) (section_title : option string)
    {struct cs} : res (list (Z * list (string * field))) :=
  match cs with
  | [] => Ok []
  | tag :: cs' =>
      let continue := parse_children subsection parent_id section_id
                        section_str_id cs' (i + 1) in
      if negb (is_tag tag) then continue id_counter section_title
      else if mem (tag_name tag) header_tag then
        match section_title with
        | Some _ => Raise AssertionError
        | None => continue id_counter (Some (parse_title self tag))
        end
      else if mem (tag_name tag) IGNORED_TAGS
      then continue id_counter section_title
      else
        match get_type_of_tag self tag with
        | SECTION =>
            ys <~ subsection tag section_id id_counter ;;
            rest <~ continue (last_idx ys id_counter) section_title ;;
            Ok (ys ++ rest)
        | tag_type =>
            if str_empty (strip (clean_text (get_text tag)))
            then continue (id_counter - 1) section_title
            else
              match section_title with
              | None => Raise ValueError
              | Some title =>
                  let id_counter := id_counter + 1 in
                  let out := section_dict id_counter parent_id section_id
                               section_str_id i title in
                  let yield (text tg : string) :=
                    rest <~ continue id_counter section_title ;;
                    Ok ((id_counter, with_text text tg out) :: rest) in
                  match tag_type with
                  | PARAGRAPH => yield (parse_paragraph self tag) "p"
                  | CODE => text <~ parse_code self tag ;; yield text "code"
                  | LIST => yield (parse_list self tag) "p"
                  | IGNORED => continue (id_counter - 1) section_title
                  | _ => Raise ValueError
                  end
              end
        end
  end.

(** [parse_section]: the pairs the generator yields, in order. *)
Fixpoint parse_section (section : node) (parent_id id_counter : Z)
    {struct section} : res (list (Z * list (string * field))) :=
  match section with
  | NavigableString _ _ => Raise AttributeError
  | Tag _ _ attrs children =>
      section_str_id <~ subscript (dict_get "id" attrs) ;;
      let section_id := id_counter + 1 in
      parse_children parse_section parent_id section_id section_str_id
        children 0 section_id None
  end.

(** The loop of [__call__] over the sections (lines 205-212). *)
Fixpoint parse_sections (sections : list node) (idx_counter : Z)
    : res (list (list (list (string * field)))) :=
  match sections with
  | [] => Ok []
  | s :: sections' =>
      ys <~ parse_section s 0 idx_counter ;;
      rest <~ parse_sections sections' (last_idx ys idx_counter) ;;
      Ok (map snd ys :: rest)
  end.

(** [TutorialHTMLParser.__call__] *)
Definition call (raw_html : string) : res (list (list (list (string * field)))) :=
  let soup := BeautifulSoup raw_html in
  sections <~ get_header_and_sections self soup ;;
  parse_sections sections 0.
End parsers.

(** *** The fields of a section, and what the result depends on *)

(** Induction on the tree, with the hypothesis for every child. *)
Fixpoint node_rect' (P : node -> Type)
    (Hs : forall s c, P (NavigableString s c))
    (Ht : forall nm cls attrs cs,
        (fix all (cs : list node) : Type :=
           match cs with
           | [] => unit
           | c :: cs' => (P c * all cs')%type
           end) cs -> P (Tag nm cls attrs cs))
    (n : node) : P n :=
  match n with
  | NavigableString s c => Hs s c
  | Tag nm cls attrs cs =>
      Ht nm cls attrs cs
        ((fix go (cs : list node) :=
            match cs return
              (fix all (cs : list node) : Type :=
                 match cs with
                 | [] => unit
                 | c :: cs' => (P c * all cs')%type
                 end) cs
            with
            | [] => tt
            | c :: cs' => (node_rect' P Hs Ht c, go cs')
            end) cs)
  end.

Lemma node_ind' (P : node -> Prop) :
  (forall s c, P (NavigableString s c)) ->
  (forall nm cls attrs cs, Forall P cs -> P (Tag nm cls attrs cs)) ->
  forall n, P n.
Proof.
  intros Hs Ht. apply node_rect'; [exact Hs|].
  intros nm cls attrs cs Hall. apply Ht.
  induction cs as [|c cs IH]; [constructor|].
  destruct Hall as [Hc Hall]. constructor; [exact Hc|exact (IH Hall)].
Qed.

(** The fields every section dictionary has. *)
Definition required_fields : list string :=
  ["id"; "parent_id"; "section_id"; "section_title"; "tag"; "text"].

Definition has_fields (d : list (string * field)) : Prop :=
  Forall (fun k => dict_has k d = true) required_fields.

Lemma with_text_fields text tg idc parent sid str_id i title :
  has_fields (with_text text tg (section_dict idc parent sid str_id i title)).
Proof. unfold has_fields, required_fields. repeat constructor. Qed.

Section parsers_facts.
Variable unidecode : string -> string.
Variable BeautifulSoup : string -> node.
Variable self : parser.

Definition all_fields (ys : list (Z * list (string * field))) : Prop :=
  Forall (fun y => has_fields (snd y)) ys.

Lemma parse_children_fields subsection parent_id section_id str_id cs :
  Forall (fun tag => forall p idc ys, subsection tag p idc = Ok ys -> all_fields ys) cs ->
  forall i id_counter title ys,
    parse_children unidecode self subsection parent_id section_id str_id cs i
      id_counter title = Ok ys ->
    all_fields ys.
Proof.
  induction 1 as [|tag cs Htag Hcs IH]; intros i idc title ys; simpl;
    [intros [= <-]; constructor|].
  destruct (is_tag tag); simpl; [|apply IH].
  destruct (mem (tag_name tag) header_tag).
  { destruct title; [done|apply IH]. }
  destruct (mem (tag_name tag) IGNORED_TAGS); [apply IH|].
  assert (Hyield : forall text tg t rest,
            parse_children unidecode self subsection parent_id section_id str_id cs
              (i + 1) (idc + 1) (Some t) = Ok rest ->
            all_fields ((idc + 1, with_text text tg
                           (section_dict (idc + 1) parent_id section_id str_id i t))
                          :: rest)).
  { intros text tg t rest Hrest. constructor; [apply with_text_fields|by eapply IH]. }
  destruct (get_type_of_tag self tag) eqn:Hty.
  - destruct (str_empty _); [apply IH|]. destruct title as [t|]; [|done].
    destruct (parse_children _ _ _ _ _ _ cs (i + 1) (idc + 1) (Some t)) as [rest|] eqn:Hl;
      simpl; [|done].
    intros [= <-]. by apply Hyield.
  - destruct (str_empty _); [apply IH|]. destruct title as [t|]; [|done].
    destruct (parse_code self tag); simpl; [|done].
    destruct (parse_children _ _ _ _ _ _ cs (i + 1) (idc + 1) (Some t)) as [rest|] eqn:Hl;
      simpl; [|done].
    intros [= <-]. by apply Hyield.
  - destruct (subsection tag section_id idc) as [sub|] eqn:Hsub; simpl; [|done].
    destruct (parse_children _ _ _ _ _ _ cs (i + 1) (last_idx sub idc) title)
      as [rest|] eqn:Hl; simpl; [|done].
    intros [= <-]. apply Forall_app. split; [by eapply Htag|by eapply IH].
  - destruct (str_empty _); [apply IH|]. destruct title as [t|]; [|done].
    destruct (parse_children _ _ _ _ _ _ cs (i + 1) (idc + 1) (Some t)) as [rest|] eqn:Hl;
      simpl; [|done].
    intros [= <-]. by apply Hyield.
  - destruct (str_empty _); [apply IH|]. destruct title as [t|]; [|done]. apply IH.
  - destruct (str_empty _); [apply IH|]. by destruct title.
Qed.

Lemma parse_section_fields section : forall parent_id id_counter ys,
  parse_section unidecode self section parent_id id_counter = Ok ys -> all_fields ys.
Proof.
  induction section as [s c|nm cls attrs cs IH] using node_ind';
    intros parent_id id_counter ys; simpl; [done|].
  destruct (dict_get "id" attrs) as [str_id|]; simpl; [|done].
  by apply parse_children_fields.
Qed.

Lemma parse_sections_fields sections : forall idx_counter secs,
  parse_sections unidecode self sections idx_counter = Ok secs ->
  Forall (Forall has_fields) secs.
Proof.
  induction sections as [|s sections IH]; intros idc secs; simpl; [by intros [= <-]|].
  destruct (parse_section unidecode self s 0 idc) as [ys|] eqn:Hs; simpl; [|done].
  destruct (parse_sections unidecode self sections (last_idx ys idc)) as [rest|] eqn:Hr;
    simpl; [|done].
  intros [= <-]. constructor; [|by eapply IH].
  apply parse_section_fields in Hs. apply Forall_fmap. exact Hs.
Qed.

End parsers_facts.

(** A page of the Sympy documentation: a section with a header that has a
    link, a paragraph and a code block. *)
Definition text_node (s : string) : node := NavigableString s false.

Definition sympy_page : node :=
  Tag "[document]" [] []
    [Tag "html" [] []
       [Tag "body" [] []
          [Tag "div" ["body"] []
             [Tag "section" [] [("id", "intro")]
                [Tag "h1" [] [] [text_node "Intro"; Tag "a" ["headerlink"] [] [text_node "#"]];
                 text_node " ";
                 Tag "p" [] [] [text_node "Hello"];
                 Tag "div" ["highlight-python"] []
                   [Tag "pre" [] [] [text_node ">>> 1 + 1"]]]]]]].

Definition sympy : parser := SympyParser id id.


(** *** The ids of a page *)

(** Every id is above the one before it, and the first above [c]. *)
Fixpoint increasing_from (c : Z) (ids : list Z) : Prop :=
  match ids with
  | [] => True
  | x :: l => c < x /\ increasing_from x l
  end.

Lemma increasing_weaken ids : forall c c',
  c' <= c -> increasing_from c ids -> increasing_from c' ids.
Proof. destruct ids as [|x l]; simpl; [done|]. intros c c' Hle [Hlt Hl]. split; [lia|done]. Qed.

Lemma increasing_last ids : forall c, increasing_from c ids -> c <= default c (last ids).
Proof.
  induction ids as [|x l IH]; intros c; simpl; [lia|]. intros [Hlt Hl].
  rewrite last_cons. specialize (IH x Hl). destruct (last l); simpl in *; lia.
Qed.

Lemma increasing_app l1 : forall c l2,
  increasing_from c l1 -> increasing_from (default c (last l1)) l2 ->
  increasing_from c (l1 ++ l2).
Proof.
  induction l1 as [|x l IH]; intros c l2; simpl; [done|]. intros [Hlt Hl] H2.
  split; [done|]. apply IH; [done|]. rewrite last_cons in H2.
  by destruct (last l).
Qed.

Lemma increasing_NoDup ids : forall c, increasing_from c ids -> NoDup ids.
Proof.
  induction ids as [|x l IH]; intros c; simpl; [constructor|]. intros [Hlt Hl].
  constructor; [|by eapply IH]. clear IH Hlt. revert x Hl.
  induction l as [|y l IH]; intros x; simpl; [by intros _ ?%elem_of_nil|].
  intros [Hxy Hl] [->|Hin]%elem_of_cons; [lia|].
  apply (IH x); [|done]. by apply (increasing_weaken l y x); [lia|].
Qed.

Definition id_of (d : list (string * field)) : Z :=
  match dict_get "id" d with
  | Some (FInt n) => n
  | _ => 0
  end.

(** The pairs a generator yields from the counter [c] on: the index of a
    pair is the id of its dictionary, and the ids increase. *)
Definition numbered (c : Z) (ys : list (Z * list (string * field))) : Prop :=
  increasing_from c (map fst ys) /\ Forall (fun y => id_of (snd y) = fst y) ys.

Lemma last_idx_last ys c : last_idx ys c = default c (last (map fst ys)).
Proof.
  unfold last_idx. change (map fst ys) with (fst <$> ys). rewrite fmap_last.
  by destruct (last ys).
Qed.

Lemma numbered_app c ys rest :
  numbered c ys -> numbered (last_idx ys c) rest -> numbered c (ys ++ rest).
Proof.
  intros [H1 F1] [H2 F2]. split; [|by apply Forall_app].
  rewrite map_app. apply increasing_app; [done|]. by rewrite <- last_idx_last.
Qed.

Section ids.
Variable unidecode : string -> string.
Variable self : parser.

(** A child that [parse_section] reads: a tag that is neither a header nor
    in [IGNORED_TAGS]. *)
Definition is_content (tag : node) : bool :=
  is_tag tag && negb (mem (tag_name tag) header_tag)
  && negb (mem (tag_name tag) IGNORED_TAGS).

(** [not self.clean_text(tag.get_text()).strip()] *)
Definition blank (tag : node) : bool :=
  str_empty (strip (clean_text unidecode (get_text tag))).

Definition child_ok (rec : node -> Prop) (c : node) : Prop :=
  is_content c = true ->
  match get_type_of_tag self c with
  | SECTION => rec c
  | _ => blank c = false
  end.

(** No element of the section or of its subsections is without text. *)
Fixpoint no_blank (section : node) : Prop :=
  match section with
  | NavigableString _ _ => True
  | Tag _ _ _ cs =>
      (fix all (cs : list node) : Prop :=
         match cs with
         | [] => True
         | c :: cs' => child_ok no_blank c /\ all cs'
         end) cs
  end.

Lemma no_blank_Tag nm cls attrs cs :
  no_blank (Tag nm cls attrs cs) <-> Forall (child_ok no_blank) cs.
Proof.
  simpl. induction cs as [|c cs IH]; [split; [constructor|done]|].
  rewrite Forall_cons, IH. done.
Qed.

Lemma parse_children_ids subsection parent_id section_id str_id cs :
  Forall (fun tag => forall p idc ys,
            subsection tag p idc = Ok ys -> no_blank tag -> numbered (idc + 1) ys) cs ->
  forall i idc title ys,
    parse_children unidecode self subsection parent_id section_id str_id cs i
      idc title = Ok ys ->
    Forall (child_ok no_blank) cs -> numbered idc ys.
Proof.
  induction 1 as [|tag cs Htag Hcs IH]; intros i idc title ys; simpl;
    [intros [= <-] _; split; [done|constructor]|].
  intros Hrun [Hchild Hrest]%Forall_cons. revert Hrun.
  unfold child_ok, is_content, blank in Hchild.
  destruct (is_tag tag); simpl in *; [|by intros ?%IH].
  destruct (mem (tag_name tag) header_tag); simpl in *.
  { destruct title; [done|]. by intros ?%IH. }
  destruct (mem (tag_name tag) IGNORED_TAGS); simpl in *; [by intros ?%IH|].
  specialize (Hchild eq_refl).
  assert (Hyield : forall text tg t rest,
            parse_children unidecode self subsection parent_id section_id str_id cs
              (i + 1) (idc + 1) (Some t) = Ok rest ->
            numbered idc ((idc + 1, with_text text tg
                             (section_dict (idc + 1) parent_id section_id str_id i t))
                            :: rest)).
  { intros text tg t rest Hr. destruct (IH _ _ _ _ Hr Hrest) as [Hinc Hall].
    split; [simpl; split; [lia|done]|]. constructor; [reflexivity|done]. }
  destruct (get_type_of_tag self tag) eqn:Hty.
  - rewrite Hchild. destruct title as [t|]; [|done].
    destruct (parse_children _ _ _ _ _ _ cs (i + 1) (idc + 1) (Some t)) as [rest|] eqn:Hl;
      simpl; [|done].
    intros [= <-]. by apply Hyield.
  - rewrite Hchild. destruct title as [t|]; [|done].
    destruct (parse_code self tag); simpl; [|done].
    destruct (parse_children _ _ _ _ _ _ cs (i + 1) (idc + 1) (Some t)) as [rest|] eqn:Hl;
      simpl; [|done].
    intros [= <-]. by apply Hyield.
  - destruct (subsection tag section_id idc) as [sub|] eqn:Hsub; simpl; [|done].
    destruct (parse_children _ _ _ _ _ _ cs (i + 1) (last_idx sub idc) title)
      as [rest|] eqn:Hl; simpl; [|done].
    intros [= <-]. apply numbered_app; [|by eapply IH].
    destruct (Htag _ _ _ Hsub Hchild) as [Hinc Hall]. split; [|done].
    eapply increasing_weaken; [|exact Hinc]. lia.
  - rewrite Hchild. destruct title as [t|]; [|done].
    destruct (parse_children _ _ _ _ _ _ cs (i + 1) (idc + 1) (Some t)) as [rest|] eqn:Hl;
      simpl; [|done].
    intros [= <-]. by apply Hyield.
  - rewrite Hchild. destruct title as [t|]; [|done].
    replace (idc + 1 - 1) with idc by lia. by intros ?%IH.
  - rewrite Hchild. by destruct title.
Qed.

Lemma parse_section_ids section : forall parent_id id_counter ys,
  parse_section unidecode self section parent_id id_counter = Ok ys ->
  no_blank section -> numbered (id_counter + 1) ys.
Proof.
  induction section as [s c|nm cls attrs cs IH] using node_ind';
    intros parent_id id_counter ys; [done|].
  intros Hrun Hnb%no_blank_Tag. simpl in Hrun.
  destruct (dict_get "id" attrs) as [str_id|]; simpl in Hrun; [|done].
  by eapply parse_children_ids.
Qed.

Lemma parse_sections_ids sections : forall idx_counter secs,
  parse_sections unidecode self sections idx_counter = Ok secs ->
  Forall no_blank sections ->
  increasing_from idx_counter (map id_of (concat secs)).
Proof.
  induction sections as [|s sections IH]; intros idc secs; simpl;
    [by intros [= <-]|].
  destruct (parse_section unidecode self s 0 idc) as [ys|] eqn:Hs; simpl; [|done].
  destruct (parse_sections unidecode self sections (last_idx ys idc)) as [rest|] eqn:Hr;
    simpl; [|done].
  intros [= <-] [Hnb Hall]%Forall_cons. simpl.
  destruct (parse_section_ids s 0 idc ys Hs Hnb) as [Hinc Hid].
  assert (Hmap : map id_of (map snd ys) = map fst ys).
  { clear -Hid. induction Hid as [|y ys Hy _ IH]; simpl; [done|]. by rewrite Hy, IH. }
  rewrite map_app, Hmap. apply increasing_app.
  - eapply increasing_weaken; [|exact Hinc]. lia.
  - rewrite <- last_idx_last. by apply IH.
Qed.

(** X14.  On a page none of whose sections holds an element without text
    (a child that is a tag, no header and not in [IGNORED_TAGS], and whose
    cleaned text is empty), the ids of the dictionaries that [__call__]
    returns increase strictly through the page, from 1 on, so no two
    dictionaries of a page share an id. *)
Theorem ids_increase_on_a_page_without_empty_elements
    (BeautifulSoup : string -> node) raw_html sections parsed :
  get_header_and_sections self (BeautifulSoup raw_html) = Ok sections ->
  Forall no_blank sections ->
  call unidecode BeautifulSoup self raw_html = Ok parsed ->
  increasing_from 0 (map id_of (concat parsed)) /\
  NoDup (map id_of (concat parsed)).
Proof.
  intros Hsec Hnb. unfold call. rewrite Hsec. simpl. intros Hrun.
  pose proof (parse_sections_ids sections 0 parsed Hrun Hnb) as Hinc.
  split; [done|]. by eapply increasing_NoDup.
Qed.

(** *** An element without text *)

(** X15.  An element without text makes an id repeat.  In a section whose
    children are a header, a paragraph, an element without text and a
    second paragraph, [parse_section] takes 1 off [id_counter] at the empty
    element, and the two paragraphs, children 1 and 3, are yielded with the
    same id. *)
Theorem empty_element_repeats_an_id nm cls attrs str_id h a e b parent_id id_counter :
  dict_get "id" attrs = Some str_id ->
  is_tag h = true -> mem (tag_name h) header_tag = true ->
  is_content a = true -> get_type_of_tag self a = PARAGRAPH -> blank a = false ->
  is_content e = true -> get_type_of_tag self e <> SECTION -> blank e = true ->
  is_content b = true -> get_type_of_tag self b = PARAGRAPH -> blank b = false ->
  exists da db,
    parse_section unidecode self (Tag nm cls attrs [h; a; e; b]) parent_id id_counter
      = Ok [(id_counter + 2, da); (id_counter + 2, db)] /\
    id_of da = id_counter + 2 /\ id_of db = id_counter + 2 /\
    dict_get "child_idx" da = Some (FInt 1) /\ dict_get "child_idx" db = Some (FInt 3).
Proof.
  intros Hid Hh Hhn Ha Hta Hba He Hte Hbe Hb Htb Hbb.
  unfold is_content, blank in *.
  apply andb_true_iff in Ha as [[Ha1 Ha2]%andb_true_iff Ha3].
  apply andb_true_iff in He as [[He1 He2]%andb_true_iff He3].
  apply andb_true_iff in Hb as [[Hb1 Hb2]%andb_true_iff Hb3].
  apply negb_true_iff in Ha2, Ha3, He2, He3, Hb2, Hb3.
  eexists _, _. split.
  - simpl. rewrite Hid. simpl. rewrite Hh, Hhn. simpl.
    rewrite Ha1, Ha2, Ha3, Hta, Hba. simpl.
    rewrite He1, He2, He3, Hbe. simpl.
    rewrite Hb1, Hb2, Hb3, Htb, Hbb. simpl.
    destruct (get_type_of_tag self e); try done;
      replace (id_counter + 1 + 1 - 1 + 1) with (id_counter + 2) by lia;
      replace (id_counter + 1 + 1) with (id_counter + 2) by lia; reflexivity.
  - repeat split.
Qed.

(** *** Sections that do not parse *)

Definition is_header (tag : node) : bool :=
  is_tag tag && mem (tag_name tag) header_tag.

Lemma parse_children_headers subsection parent_id section_id str_id cs :
  forall i idc title ys,
    parse_children unidecode self subsection parent_id section_id str_id cs i
      idc title = Ok ys ->
    (length (filter (fun c => is_header c) cs) <= if title is Some _ then 0 else 1)%nat.
Proof.
  induction cs as [|tag cs IH]; intros i idc title ys; simpl;
    [intros _; destruct title; simpl; lia|].
  destruct (is_tag tag) eqn:Htag; simpl.
  2:{ rewrite filter_cons_False by (unfold is_header; rewrite Htag; simpl; tauto). apply IH. }
  destruct (mem (tag_name tag) header_tag) eqn:Hhead; simpl.
  { destruct title; [done|].
    rewrite filter_cons_True by (unfold is_header; by rewrite Htag, Hhead).
    intros ?%IH. simpl in *. lia. }
  rewrite filter_cons_False by (unfold is_header; rewrite Htag, Hhead; simpl; tauto).
  destruct (mem (tag_name tag) IGNORED_TAGS); [apply IH|].
  destruct (get_type_of_tag self tag).
  - destruct (str_empty _); [apply IH|]. destruct title as [t|]; [|done].
    destruct (parse_children _ _ _ _ _ _ cs (i + 1) (idc + 1) (Some t)) as [rest|] eqn:Hl;
      simpl; [|done].
    intros _. exact (IH _ _ _ _ Hl).
  - destruct (str_empty _); [apply IH|]. destruct title as [t|]; [|done].
    destruct (parse_code self tag); simpl; [|done].
    destruct (parse_children _ _ _ _ _ _ cs (i + 1) (idc + 1) (Some t)) as [rest|] eqn:Hl;
      simpl; [|done].
    intros _. exact (IH _ _ _ _ Hl).
  - destruct (subsection tag section_id idc) as [sub|] eqn:Hsub; simpl; [|done].
    destruct (parse_children _ _ _ _ _ _ cs (i + 1) (last_idx sub idc) title)
      as [rest|] eqn:Hl; simpl; [|done].
    intros _. exact (IH _ _ _ _ Hl).
  - destruct (str_empty _); [apply IH|]. destruct title as [t|]; [|done].
    destruct (parse_children _ _ _ _ _ _ cs (i + 1) (idc + 1) (Some t)) as [rest|] eqn:Hl;
      simpl; [|done].
    intros _. exact (IH _ _ _ _ Hl).
  - destruct (str_empty _); [apply IH|]. destruct title as [t|]; [|done]. apply IH.
  - destruct (str_empty _); [apply IH|]. by destruct title.
Qed.

(** X16.  A section that [parse_section] parses has an ['id'] attribute
    and at most one header among its children: without the attribute the
    subscript raises, and a second header fails the assertion. *)
Theorem parsed_section_has_an_id_and_one_header nm cls attrs cs parent_id id_counter ys :
  parse_section unidecode self (Tag nm cls attrs cs) parent_id id_counter = Ok ys ->
  is_Some (dict_get "id" attrs) /\
  (length (filter (fun c => is_header c) cs) <= 1)%nat.
Proof.
  simpl. destruct (dict_get "id" attrs) as [str_id|]; simpl; [|done].
  intros Hrun. split; [eauto|]. by apply parse_children_headers in Hrun.
Qed.
End ids.

Definition sympy_parsed : list (list (list (string * field))) :=
  Eval vm_compute in
    match call id (fun _ => sympy_page) sympy "<html>" with
    | Ok parsed => parsed
    | Raise _ => []
    end.

Definition sympy_sections : list node :=
  Eval vm_compute in
    match get_header_and_sections sympy sympy_page with
    | Ok sections => sections
    | Raise _ => []
    end.

Lemma ids_increase_on_a_page_without_empty_elements_witness :
  increasing_from 0 (map id_of (concat sympy_parsed)) /\
  NoDup (map id_of (concat sympy_parsed)).
Proof.
  apply (ids_increase_on_a_page_without_empty_elements id sympy (fun _ => sympy_page)
           "<html>" sympy_sections sympy_parsed).
  - vm_compute. reflexivity.
  - apply Forall_cons. split; [|apply Forall_nil_2].
    apply no_blank_Tag.
    repeat (apply Forall_cons; split;
              [intros Hc; first [by vm_compute in Hc|vm_compute; reflexivity]|]).
    apply Forall_nil_2.
  - vm_compute. reflexivity.
Defined.

Definition heading : node := Tag "h1" [] [] [text_node "Intro"].
Definition hello : node := Tag "p" [] [] [text_node "Hello"].
Definition empty_paragraph : node := Tag "p" [] [] [].
Definition bye : node := Tag "p" [] [] [text_node "Bye"].

Lemma empty_element_repeats_an_id_witness :
  exists da db,
    parse_section id sympy
      (Tag "section" [] [("id", "intro")] [heading; hello; empty_paragraph; bye]) 0 0
      = Ok [(0 + 2, da); (0 + 2, db)] /\
    id_of da = 0 + 2 /\ id_of db = 0 + 2 /\
    dict_get "child_idx" da = Some (FInt 1) /\ dict_get "child_idx" db = Some (FInt 3).
Proof.
  apply (empty_element_repeats_an_id id sympy "section" [] [("id", "intro")] "intro"
           heading hello empty_paragraph bye 0 0);
    solve [vm_compute; reflexivity | vm_compute; discriminate].
Defined.

Definition intro_section : node :=
  Tag "section" [] [("id", "intro")] [heading; text_node " "; hello].

Lemma parsed_section_has_an_id_and_one_header_witness :
  is_Some (dict_get "id" [("id", "intro")]) /\
  (length (filter (fun c => is_header c) [heading; text_node " "; hello]) <= 1)%nat.
Proof.
  apply (parsed_section_has_an_id_and_one_header id sympy "section" []
           [("id", "intro")] [heading; text_node " "; hello] 0 0
           (match parse_section id sympy intro_section 0 0 with
            | Ok ys => ys
            | Raise _ => []
            end)).
  vm_compute. reflexivity.
Defined.

End HtmlParsers.

(** ** [scripts/parse_tutorials.py]: the pages handed to the parsers

    [parse_tutorials] is the caller of [TutorialHTMLParser.__call__]: for
    every domain it matches the crawled pages against the pages of the
    domain's config, and writes the parse of every matched page under the
    name the config gives it. *)

Module ParseTutorials.

(** A group of the config: its ['path'] and its ['pages'], from the name of
    a page to its file. *)
Record group := mkGroup {
  path : string;
  pages : list (string * string)
}.

(** An entry of the crawled map. *)
Record crawled := mkCrawled {
  url : string;
  cleaned_name : string
}.

(** Lines 77-82: [path_to_name], from the path of a page to [f"{g}_{n}"]. *)
Definition path_to_use (paths : group) : string :=
  if negb (String.eqb (path paths) "/") then (path paths ++ "/")%string else "/".

Definition add_group (path_to_name : list (string * string)) (gp : string * group)
    : list (string * string) :=
  fold_left (fun acc nf =>
               dict_set (path_to_use (snd gp) ++ snd nf)%string
                        (fst gp ++ "_" ++ fst nf)%string acc)
            (pages (snd gp)) path_to_name.

Definition path_to_name_of (groups : list (string * group)) : list (string * string) :=
  fold_left add_group groups [].

Section matching.
(** [urlparse(u).path] *)
Variable urlparse_path : string -> string.
Variable path_to_name : list (string * string).

(** The body of the loop over the crawled map (lines 86-94); the state is
    [to_parse] and [found]. *)
Definition match_step (st : list (string * string) * list string) (d : crawled)
    : res (list (string * string) * list string) :=
  let '(to_parse, found) := st in
  let url_path := urlparse_path (url d) in
  if dict_has url_path path_to_name then
    name <~ subscript (dict_get url_path path_to_name) ;;
    if bool_decide (name ∈ found) then Raise ValueError else
    Ok (dict_set (cleaned_name d) name to_parse, found ++ [name])
  else Ok st.

Definition match_pages (json_map : list crawled)
    : res (list (string * string) * list string) :=
  rfold match_step json_map ([], []).
End matching.

(** *** The paths of the config *)

(** The pages of the config in the order of the two loops, each with its
    path and its name. *)
Definition config_pages (groups : list (string * group)) : list (string * string) :=
  concat (map (fun gp =>
                 map (fun nf => ((path_to_use (snd gp) ++ snd nf)%string,
                                 (fst gp ++ "_" ++ fst nf)%string))
                     (pages (snd gp)))
              groups).

Definition named_at (p : string) (kv : string * string) : option string :=
  if decide (fst kv = p) then Some (snd kv) else None.

Lemma dict_update_last (p : string) (entries : list (string * string)) :
  forall acc,
    dict_get p (dict_update acc entries) =
      match last (omap (named_at p) entries) with
      | Some v => Some v
      | None => dict_get p acc
      end.
Proof.
  unfold dict_update.
  induction entries as [|[k v] l IH]; intros acc; [done|].
  change (omap (named_at p) ((k, v) :: l)) with
    (match named_at p (k, v) with
     | Some x => x :: omap (named_at p) l
     | None => omap (named_at p) l
     end).
  cbn [fold_left fst snd]. rewrite IH. unfold named_at at 2. cbn [fst snd].
  destruct (decide (k = p)) as [->|Hne].
  - rewrite last_cons, dict_get_set_eq. by destruct (last _).
  - by rewrite dict_get_set_ne.
Qed.

Lemma path_to_name_entries groups : forall acc,
  fold_left add_group groups acc = dict_update acc (config_pages groups).
Proof.
  unfold dict_update.
  induction groups as [|gp l IH]; intros acc; [done|].
  cbn [fold_left]. rewrite IH. unfold config_pages. cbn [map concat].
  rewrite fold_left_app. f_equal. unfold add_group.
  generalize (pages (snd gp)) acc. clear.
  intros ps. induction ps as [|nf ps IH]; intros acc; [done|].
  cbn [map fold_left fst snd]. apply IH.
Qed.

(** X20.  [path_to_name] maps a path to the name [f"{g}_{n}"] of the last
    page of the config, in the order of its groups and their pages, whose
    path it is; a path that no page has is absent.  A page whose path comes
    again later in the config is dropped without a message. *)
Theorem path_to_name_last_page_wins (groups : list (string * group)) (p : string) :
  dict_get p (path_to_name_of groups) = last (omap (named_at p) (config_pages groups)).
Proof.
  unfold path_to_name_of. rewrite path_to_name_entries, dict_update_last.
  by destruct (last _).
Qed.

(** *** The names the parses are written under *)

Lemma dict_set_values (k v : string) (d : list (string * string)) :
  v ∉ map snd d -> NoDup (map snd d) ->
  NoDup (map snd (dict_set k v d)) /\
  forall x, x ∈ map snd (dict_set k v d) -> x = v \/ x ∈ map snd d.
Proof.
  induction d as [|[k0 v0] d IH]; simpl.
  - intros _ _. split; [apply NoDup_singleton|].
    intros x ->%list_elem_of_singleton. by left.
  - intros Hv [Hv0 Hnd]%NoDup_cons. apply not_elem_of_cons in Hv as [Hne Hv].
    destruct (decide (k = k0)) as [->|Hk]; simpl.
    + split; [by apply NoDup_cons|].
      intros x [->|Hx]%elem_of_cons; [by left|]. right. apply elem_of_cons. by right.
    + destruct (IH Hv Hnd) as [Hnd' Hsub]. split.
      * apply NoDup_cons. split; [|done]. intros [->|Hin]%Hsub; done.
      * intros x [->|Hx]%elem_of_cons; [right; apply elem_of_cons; by left|].
        destruct (Hsub x Hx) as [->|Hin]; [by left|]. right. apply elem_of_cons. by right.
Qed.

Section matching_facts.
Variable urlparse_path : string -> string.
Variable path_to_name : list (string * string).

(** The name the config gives a crawled page, if it gives one. *)
Definition name_of (d : crawled) : option string :=
  dict_get (urlparse_path (url d)) path_to_name.

Lemma match_loop json_map : forall to_parse found,
  NoDup found -> NoDup (map snd to_parse) ->
  (forall v, v ∈ map snd to_parse -> v ∈ found) ->
  match rfold (match_step urlparse_path path_to_name) json_map (to_parse, found) with
  | Ok (to_parse', found') =>
      found' = found ++ omap name_of json_map /\ NoDup found' /\
      NoDup (map snd to_parse') /\ (forall v, v ∈ map snd to_parse' -> v ∈ found')
  | Raise e => e = ValueError /\ ~ NoDup (found ++ omap name_of json_map)
  end.
Proof.
  induction json_map as [|d l IH]; intros to_parse found Hnd Hvals Hsub.
  - simpl. by rewrite app_nil_r.
  - change (omap name_of (d :: l)) with
      (match name_of d with
       | Some name => name :: omap name_of l
       | None => omap name_of l
       end).
    cbn [rfold].
    assert (Hstep : match_step urlparse_path path_to_name (to_parse, found) d =
              match name_of d with
              | Some name =>
                  if bool_decide (name ∈ found) then Raise ValueError
                  else Ok (dict_set (cleaned_name d) name to_parse, found ++ [name])
              | None => Ok (to_parse, found)
              end).
    { unfold match_step, dict_has, name_of. by destruct (dict_get _ _). }
    rewrite Hstep. clear Hstep. destruct (name_of d) as [name|]; cbn [rbind].
    + case_bool_decide as Hin.
      * split; [done|]. intros Hn. apply NoDup_app in Hn as (_ & Hdis & _).
        apply (Hdis name Hin). apply elem_of_cons. by left.
      * destruct (dict_set_values (cleaned_name d) name to_parse) as [Hvals' Hsub']; [|done|].
        { intros Hv. by apply Hin, Hsub. }
        specialize (IH (dict_set (cleaned_name d) name to_parse) (found ++ [name])).
        rewrite <- app_assoc in IH. simpl in IH. apply IH; [|done|].
        -- apply NoDup_app. split; [done|]. split; [|apply NoDup_singleton].
           by intros x Hx ->%list_elem_of_singleton.
        -- intros v [->|Hv]%Hsub'; apply elem_of_app; [right; by apply list_elem_of_singleton|].
           left. by apply Hsub.
    + by apply IH.
Qed.

End matching_facts.

End ParseTutorials.
